(** * train_utils: argument container and checkpoint management

    A shallow embedding of [train_utils.py] and the properties of its
    argument container ([MyArgs]), of the checkpoint listing and rotation
    ([fetch_ckpt_namelist], [get_last_ckpt], [save_ckpt]) and of the state
    restore ([load_ckpt]). *)

From stdpp Require Import gmap strings list fin_maps sorting pretty.
From Stdlib Require Import ZArith Lia Ascii.

(** ** Exceptions

    The Python exceptions that the embedded functions can raise. *)
Inductive exn :=
  | TypeError
  | ValueError
  | FileNotFoundError
  | RuntimeError
  | RecursionError.

Global Instance exn_eq_dec : EqDecision exn.
Proof. solve_decision. Defined.

(** * The argument container *)

(** Dictionary keys. Python accepts any hashable key; a string key and an
    integer key stand for the two cases that the code tells apart (a keyword
    argument's name has to be a string). *)
Inductive pykey :=
  | KStr (s : string)
  | KInt (z : Z).

Global Instance pykey_eq_dec : EqDecision pykey.
Proof. solve_decision. Defined.

Global Instance pykey_countable : Countable pykey.
Proof.
  refine (inj_countable'
    (λ k, match k with KStr s => inl s | KInt z => inr z end)
    (λ x, match x with inl s => KStr s | inr z => KInt z end) _).
  by intros [].
Defined.

(** Python values: the leaves, lists, dictionaries and [MyArgs] instances
    (given by their [__dict__]).  A dictionary is a finite map; two
    dictionaries are equal when they bind the same keys to the same values,
    as [==] has it, and the order in which a loop visits the items is the
    map's. *)
#[warning="-register-all"]
Inductive pyval :=
  | VNone
  | VBool (b : bool)
  | VInt (z : Z)
  | VStr (s : string)
  | VList (l : list pyval)
  | VDict (d : gmap pykey pyval)
  | VArgs (d : gmap pykey pyval).

Abbreviation pydict := (gmap pykey pyval).

(** Binding of the keyword arguments [argdict] to the signature of
    [__init__], whose first parameter is [self]: every key has to be a
    string, and the name [self] is already taken. *)
Definition kwarg_ok (k : pykey) : bool :=
  match k with
  | KStr s => negb (String.eqb s "self")
  | KInt _ => false
  end.

Definition kwargs_ok (argdict : pydict) : bool :=
  map_fold (λ k _ acc, kwarg_ok k && acc) true argdict.

(** The loop shared by [__init__] and [load_argdict]: for every item of
    [argdict] the value to bind ([bind v]: a container built from [v] when
    [v] is a dictionary, [v] itself otherwise) is stored in
    [self.__dict__].  An exception raised while building a container ends
    the loop; the entries stored before it stay. *)
Definition store_items (bind : pyval → exn + pyval)
    (argdict self : pydict) : pydict * option exn :=
  map_fold (λ k v acc,
    match acc with
    | (self, Some e) => (self, Some e)
    | (self, None) =>
        match bind v with
        | inl e => (self, Some e)
        | inr w => (<[k := w]> self, None)
        end
    end) (self, None) argdict.

(** The value bound under a key: the instance that the call [new] of the
    class builds from the keyword arguments [v] if [isinstance(v, dict)],
    and [v] otherwise. *)
Definition bind_with (new : pydict → exn + pydict) (v : pyval)
    : exn + pyval :=
  match v with
  | VDict d =>
      match new d with
      | inl e => inl e
      | inr self => inr (VArgs self)
      end
  | _ => inr v
  end.

(** The body of [__init__]: the loop on the empty [__dict__] of the new
    instance. *)
Definition init_body (bind : pyval → exn + pyval) (argdict : pydict)
    : exn + pydict :=
  match store_items bind argdict ∅ with
  | (_, Some e) => inl e
  | (self, None) => inr self
  end.

(** [MyArgs] called with the keyword arguments [argdict], where the
    interpreter allows [limit] more calls, one in another, before it raises
    [RecursionError]: the [__dict__] of the new instance, or the exception
    raised by the call or by a nested one.  The keyword arguments are bound
    to the signature before the body is entered; the body makes one nested
    call for every value that is a dictionary. *)
Fixpoint MyArgs_init (limit : nat) (argdict : pydict) : exn + pydict :=
  if kwargs_ok argdict then
    match limit with
    | 0 => inl RecursionError
    | S limit' => init_body (bind_with (MyArgs_init limit')) argdict
    end
  else inl TypeError.

(** The value bound under a key by a loop that may make [limit] more calls,
    one in another. *)
Definition bind_value (limit : nat) : pyval → exn + pyval :=
  bind_with (MyArgs_init limit).

(** The attribute [name] of an instance with the given [__dict__] is an
    entry of the [__dict__]: the lookup finds it before the method of the
    class with that name. *)
Definition shadowed (name : string) (d : pydict) : bool :=
  match d !! KStr name with
  | Some _ => true
  | None => false
  end.

(** The loop of [to_argdict]: the exported value of every item of
    [self.__dict__] is stored in a new dictionary.  An exception ends the
    loop. *)
Definition export_items (export : pyval → exn + pyval) (self : pydict)
    : exn + pydict :=
  map_fold (λ k v acc,
    match acc with
    | inl e => inl e
    | inr argdict =>
        match export v with
        | inl e => inl e
        | inr w => inr (<[k := w]> argdict)
        end
    end) (inr ∅) self.

(** The value exported for an item: [v.to_argdict()] if
    [isinstance(v, MyArgs)], and [v] otherwise.  The expression
    [v.to_argdict] looks the attribute up on the instance [v]; when the
    [__dict__] of [v] has the key [to_argdict], the lookup gives that entry
    and not the method, and calling the entry, which is no function, raises
    [TypeError].  Otherwise [method] is the call of the method. *)
Definition export_with (method : pydict → exn + pydict) (v : pyval)
    : exn + pyval :=
  match v with
  | VArgs d =>
      if shadowed "to_argdict" d then inl TypeError
      else
        match method d with
        | inl e => inl e
        | inr argdict => inr (VDict argdict)
        end
  | _ => inr v
  end.

(** The method [to_argdict] called on an instance with the given
    [__dict__], where the interpreter allows [limit] more calls, one in
    another: the dictionary it returns, or the exception it raises. *)
Fixpoint to_argdict (limit : nat) (self : pydict) : exn + pydict :=
  match limit with
  | 0 => inl RecursionError
  | S limit' => export_items (export_with (to_argdict limit')) self
  end.

Definition export_value (limit : nat) : pyval → exn + pyval :=
  export_with (to_argdict limit).

(** [load_argdict]: the [__dict__] after the call and the exception it
    raised, if any; the body may make [limit] more calls, one in
    another. *)
Definition load_argdict (limit : nat) (self argdict : pydict)
    : pydict * option exn :=
  store_items (bind_value limit) argdict self.

(** The value that is stored for [v] when binding it does not raise. *)
Definition bound (limit : nat) (v : pyval) : pyval :=
  match bind_value limit v with
  | inr w => w
  | inl _ => v
  end.

(** The value that is exported for [v] when exporting it does not raise. *)
Definition exported (limit : nat) (v : pyval) : pyval :=
  match export_value limit v with
  | inr w => w
  | inl _ => v
  end.

(** Every value of [argdict] can be bound: no constructor call of the loop
    raises. *)
Definition binds (limit : nat) (v : pyval) : bool :=
  match bind_value limit v with
  | inr _ => true
  | inl _ => false
  end.

Definition all_bind (limit : nat) (argdict : pydict) : bool :=
  map_fold (λ _ v acc, binds limit v && acc) true argdict.

(** Sample mappings. *)
Definition sample_args : pydict :=
  {[ KStr "lr" := VInt 3;
     KStr "name" := VStr "resnet";
     KStr "model" := VDict {[ KStr "depth" := VInt 18;
                              KStr "widths" := VList [VInt 64; VInt 128];
                              KStr "head" := VDict {[ KStr "bias" := VBool true ]} ]} ]}.

Definition sample_self : pydict :=
  {[ KStr "lr" := VInt 1;
     KStr "seed" := VInt 7;
     KStr "model" := VArgs {[ KStr "depth" := VInt 50;
                              KStr "dropout" := VInt 0 ]} ]}.

Definition self_named : pydict := {[ KStr "self" := VInt 1 ]}.

Definition int_keyed : pydict :=
  {[ KStr "milestones" := VDict {[ KInt 10 := VInt 1 ]} ]}.

(** A nested mapping with the key [to_argdict]. *)
Definition method_named : pydict :=
  {[ KStr "model" := VDict {[ KStr "to_argdict" := VInt 1 ]} ]}.

(** The mapping with [n] mappings one in another around the value 1. *)
Fixpoint nested (n : nat) : pyval :=
  match n with
  | 0 => VInt 1
  | S n' => VDict {[ KStr "inner" := nested n' ]}
  end.

(** The mappings that the constructor takes apart and [to_argdict] puts
    together again: at every level that the constructor reaches the keys
    are keyword names, and no value is a container already. *)
Fixpoint plain_value (v : pyval) : bool :=
  match v with
  | VDict d =>
      kwargs_ok d && map_fold (λ _ v acc, plain_value v && acc) true d
  | VArgs _ => false
  | _ => true
  end.

Definition plain_mapping (m : pydict) : bool := plain_value (VDict m).

(** No dictionary and no instance, at any level, has the key
    [to_argdict]. *)
Fixpoint unshadowed (v : pyval) : bool :=
  match v with
  | VDict d | VArgs d =>
      negb (shadowed "to_argdict" d)
      && map_fold (λ _ v acc, unshadowed v && acc) true d
  | _ => true
  end.

(** The number of calls, one in another, that the constructor enters for
    [v]: the levels of dictionaries that are values of dictionaries. *)
Fixpoint dict_depth (v : pyval) : nat :=
  match v with
  | VDict d => S (map_fold (λ _ v n, dict_depth v `max` n) 0 d)
  | _ => 0
  end.

(** The number of calls, one in another, that [to_argdict] enters for [v]:
    the levels of instances that are attributes of instances. *)
Fixpoint args_depth (v : pyval) : nat :=
  match v with
  | VArgs d => S (map_fold (λ _ v n, args_depth v `max` n) 0 d)
  | _ => 0
  end.

(** The number of dictionary and container nodes above and in a value. *)
Fixpoint pv_size (v : pyval) : nat :=
  match v with
  | VDict d | VArgs d => S (map_fold (λ _ v n, pv_size v + n) 0 d)
  | _ => 0
  end.

(** * Shapes of values *)

(** The values that the constructor accepts: at every level that it
    reaches, the keys of a dictionary are keyword names. *)
Fixpoint constructible (v : pyval) : bool :=
  match v with
  | VDict d =>
      kwargs_ok d && map_fold (λ _ v acc, constructible v && acc) true d
  | _ => true
  end.

(** The instances that the constructor builds from plain mappings: the
    attributes have keyword names, and an attribute is a leaf or such an
    instance, never a dictionary. *)
Fixpoint container (v : pyval) : bool :=
  match v with
  | VArgs d =>
      kwargs_ok d && map_fold (λ _ v acc, container v && acc) true d
  | VDict _ => false
  | _ => true
  end.

(** The values that [to_argdict] exports: every instance that is an
    attribute, at any level, has the method [to_argdict] in reach. *)
Fixpoint exportable (v : pyval) : bool :=
  match v with
  | VArgs d =>
      negb (shadowed "to_argdict" d)
      && map_fold (λ _ v acc, exportable v && acc) true d
  | _ => true
  end.

Definition all_exportable (self : pydict) : bool :=
  map_fold (λ _ v acc, exportable v && acc) true self.

(** Every value of the mapping is plain. *)
Definition plain_values (m : pydict) : bool :=
  map_fold (λ _ v acc, plain_value v && acc) true m.

(** * Strings

    File names are strings of 8-bit characters; the string methods used by
    the checkpoint functions are defined on them. *)

(** [x.startswith(p)] *)
Fixpoint startswith (x p : string) {struct p} : bool :=
  match p, x with
  | EmptyString, _ => true
  | String a p', String b x' => Ascii.eqb a b && startswith x' p'
  | String _ _, EmptyString => false
  end.

(** [x.endswith(s)]: [x] is [s], or the tail of [x] ends with [s]. *)
Fixpoint endswith (x s : string) : bool :=
  String.eqb x s ||
  match x with
  | EmptyString => false
  | String _ x' => endswith x' s
  end.

(** [x.replace(pat, '')]: every occurrence of [pat], found from left to
    right without overlap, is removed.  [n] counts the characters of the
    occurrence being removed that are still to be skipped. *)
Fixpoint remove_from (pat : string) (n : nat) (x : string) : string :=
  match x with
  | EmptyString => EmptyString
  | String a x' =>
      match n with
      | S n' => remove_from pat n' x'
      | O =>
          if startswith x pat
          then remove_from pat (String.length pat - 1) x'
          else String a (remove_from pat 0 x')
      end
  end.

Definition str_remove (x pat : string) : string :=
  match pat with
  | EmptyString => x
  | String _ _ => remove_from pat 0 x
  end.

(** ** [int(s)]

    The integer literal of base 10 that [int] accepts on a string:
    whitespace around it, an optional sign, and digits that single
    underscores may separate.  The characters are those of ASCII; digits
    and spaces beyond ASCII are not modelled. *)
Definition is_space (a : ascii) : bool :=
  let n := Ascii.nat_of_ascii a in
  Nat.eqb n 32 || (Nat.leb 9 n && Nat.leb n 13).

Definition digit_of (a : ascii) : option Z :=
  let n := Ascii.nat_of_ascii a in
  if Nat.leb 48 n && Nat.leb n 57 then Some (Z.of_nat n - 48)%Z else None.

Fixpoint lstrip (x : string) : string :=
  match x with
  | EmptyString => EmptyString
  | String a x' => if is_space a then lstrip x' else x
  end.

Definition strip (x : string) : string :=
  String.rev (lstrip (String.rev (lstrip x))).

(** The digits after the sign; [after_digit] tells whether the character
    before was a digit (an underscore is accepted only between two
    digits). *)
Fixpoint parse_digits (acc : Z) (after_digit : bool) (x : string) : option Z :=
  match x with
  | EmptyString => if after_digit then Some acc else None
  | String a x' =>
      if Ascii.eqb a "_"%char
      then (if after_digit then parse_digits acc false x' else None)
      else
        match digit_of a with
        | Some d => parse_digits (10 * acc + d)%Z true x'
        | None => None
        end
  end.

Definition py_int (x : string) : option Z :=
  match strip x with
  | String "+"%char r => parse_digits 0 false r
  | String "-"%char r => Z.opp <$> parse_digits 0 false r
  | r => parse_digits 0 false r
  end.

(** ** Sorting

    [ckpts.sort(key=lambda x: x[1])]: a stable sort, ascending by the
    second component. *)
Fixpoint insert_by_epoch (c : string * Z) (l : list (string * Z))
    : list (string * Z) :=
  match l with
  | [] => [c]
  | c' :: l' =>
      if (c.2 <=? c'.2)%Z then c :: l else c' :: insert_by_epoch c l'
  end.

Definition sort_by_epoch (l : list (string * Z)) : list (string * Z) :=
  foldr insert_by_epoch [] l.

(** Ascending by the number. *)
Definition epoch_le (a b : string * Z) : Prop := (a.2 ≤ b.2)%Z.

(** Strictly ascending by the number. *)
Definition epoch_lt (a b : string * Z) : Prop := (a.2 < b.2)%Z.

Definition ascending (l : list (string * Z)) : Prop :=
  StronglySorted epoch_lt l.

(** [l[:stop]] *)
Definition py_slice_to {A} (l : list A) (stop : Z) : list A :=
  if (stop <? 0)%Z
  then take (Z.to_nat (Z.of_nat (length l) + stop)) l
  else take (Z.to_nat stop) l.

(** * Checkpoint listing *)

(** The test of the loop of [fetch_ckpt_namelist] and the number it reads
    from a name. *)
Definition selected (suffix x : string) : bool :=
  endswith x suffix && negb (startswith x "best").

Definition epoch_of (suffix x : string) : option Z :=
  py_int (str_remove x suffix).

(** The entry of a name in the list, if the loop selects the name and reads
    a number from it. *)
Definition entry (suffix x : string) : option (string * Z) :=
  if selected suffix x then (x,.) <$> epoch_of suffix x else None.

(** A selected name from which no number is read. *)
Definition unreadable (suffix x : string) : Prop :=
  selected suffix x = true ∧ epoch_of suffix x = None.

Global Instance unreadable_dec suffix x : Decision (unreadable suffix x).
Proof. unfold unreadable. apply _. Defined.

(** The name [prefix +:+ suffix] is listed, with the number [e]. *)
Definition numbered_as (suffix prefix : string) (e : Z) : Prop :=
  selected suffix (prefix +:+ suffix) = true ∧
  epoch_of suffix (prefix +:+ suffix) = Some e.

(** The loop over the listing: [ckpts] grows at its end, and an [int] that
    fails raises [ValueError]. *)
Fixpoint scan_names (suffix : string) (names : list string)
    (ckpts : list (string * Z)) : exn + list (string * Z) :=
  match names with
  | [] => inr ckpts
  | x :: names' =>
      if selected suffix x then
        match epoch_of suffix x with
        | Some n => scan_names suffix names' (ckpts ++ [(x, n)])
        | None => inl ValueError
        end
      else scan_names suffix names' ckpts
  end.

(** [fetch_ckpt_namelist] on the listing that [os.listdir] returned. *)
Definition namelist_of (names : list string) (suffix : string)
    : exn + list (string * Z) :=
  match scan_names suffix names [] with
  | inl e => inl e
  | inr ckpts =>
      if Nat.eqb (length ckpts) 0 then inr [] else inr (sort_by_epoch ckpts)
  end.

(** * The checkpoint directory

    The files of [ckptdir], by name, with the log of the writes and deletions
    done on it.  File names are taken as they are: a path separator inside
    a name is not interpreted.  Every file holds a record that [torch.save]
    wrote, and the directory can be read and written: reading a file that
    exists, writing a file and deleting a file that exists do not fail. *)
Inductive fs_event (B : Type) :=
  | EvWrite (name : string) (content : B)
  | EvRemove (name : string).
Arguments EvWrite {B} name content.
Arguments EvRemove {B} name.

Record ckptdir (B : Type) := Ckptdir {
  files : gmap string B;
  events : list (fs_event B)
}.
Arguments Ckptdir {B} files events.
Arguments files {B} c.
Arguments events {B} c.

(** Computations on the directory: the directory they leave, and their
    result or the exception they raise. *)
Definition io (B A : Type) : Type := ckptdir B → ckptdir B * (exn + A).

Definition io_ret {B A} (a : A) : io B A := λ w, (w, inr a).

Definition io_raise {B A} (e : exn) : io B A := λ w, (w, inl e).

Definition io_bind {B A A'} (c : io B A) (k : A → io B A') : io B A' :=
  λ w, match c w with
       | (w', inl e) => (w', inl e)
       | (w', inr a) => k a w'
       end.

Notation "'let*' x ':=' c 'in' k" := (io_bind c (λ x, k))
  (at level 10, x name, c at level 100, k at level 200, only parsing).
Notation "c ';>' k" := (io_bind c (λ _, k))
  (at level 100, k at level 200, right associativity, only parsing).

(** A [for] loop over a list. *)
Fixpoint io_for {B A} (l : list A) (body : A → io B unit) : io B unit :=
  match l with
  | [] => io_ret tt
  | a :: l' => body a ;> io_for l' body
  end.

Section filesystem.
Context {B : Type}.

(** The names that [os.listdir] returns, each once, in an order that is not
    specified (here the order of the map). *)
Definition listing (w : ckptdir B) : list string := (map_to_list (files w)).*1.

(** [os.listdir(ckptdir)] *)
Definition os_listdir : io B (list string) :=
  λ w, (w, inr (listing w)).

(** [os.path.exists(os.path.join(ckptdir, name))] *)
Definition os_path_exists (name : string) : io B bool :=
  λ w, (w, inr (bool_decide (is_Some (files w !! name)))).

(** [torch.save(content, os.path.join(ckptdir, name))] *)
Definition torch_save (content : B) (name : string) : io B unit :=
  λ w, (Ckptdir (<[name := content]> (files w))
                (events w ++ [EvWrite name content]), inr tt).

(** [torch.load(os.path.join(ckptdir, name))]; the device that the tensors
    are mapped to does not change the record that is read. *)
Definition torch_load (name : string) : io B B :=
  λ w, match files w !! name with
       | Some content => (w, inr content)
       | None => (w, inl FileNotFoundError)
       end.

(** [os.remove(os.path.join(ckptdir, name))] *)
Definition os_remove (name : string) : io B unit :=
  λ w, match files w !! name with
       | Some _ =>
           (Ckptdir (delete name (files w)) (events w ++ [EvRemove name]),
            inr tt)
       | None => (w, inl FileNotFoundError)
       end.

Definition fetch_ckpt_namelist (suffix : string) : io B (list (string * Z)) :=
  let* names := os_listdir in
  match namelist_of names suffix with
  | inl e => io_raise e
  | inr ckpts => io_ret ckpts
  end.

(** The directory that a sequence of writes and deletions leaves. *)
Definition apply_event (d : gmap string B) (ev : fs_event B) : gmap string B :=
  match ev with
  | EvWrite name content => <[name := content]> d
  | EvRemove name => delete name d
  end.

Definition replay (evs : list (fs_event B)) (d : gmap string B)
    : gmap string B :=
  foldl apply_event d evs.

(** The directory without the files of the given names. *)
Definition remove_all (names : list string) (d : gmap string B)
    : gmap string B :=
  foldl (λ d x, delete x d) d names.

(** Sample directories. *)
Definition dir_of (names : list string) (content : B) : ckptdir B :=
  Ckptdir (list_to_map ((., content) <$> names)) [].

End filesystem.

(** * Checkpoint records and the framework's objects *)

(** [state_dict()] and [load_state_dict()] of a model, an optimizer or a
    scheduler: the import changes the object and may raise. *)
Class StateExport (T SD : Type) := state_dict : T → SD.
Class StateImport (T SD : Type) := load_state_dict : T → SD → T * option exn.

(** [torch.nn.DataParallel(model)], with its attribute [module]. *)
Record DataParallel (T : Type) := DataParallelOf { module : T }.
Arguments DataParallelOf {T} module.
Arguments module {T} d.

(** The value of [specify]: a number or a string, and ['{}'.format] of
    it. *)
Inductive specifier :=
  | SpecInt (n : Z)
  | SpecStr (s : string).

Definition py_format (sp : specifier) : string :=
  match sp with
  | SpecInt n => pretty n
  | SpecStr s => s
  end.

Section checkpoints.
Context {Loss MS OS SS : Type}.

Record ckptdict := Ckptdict {
  ck_epoch : Z;
  ck_best_valid_loss : Loss;
  ck_best_valid_epoch : Z;
  ck_model : MS;
  ck_optimizer : OS;
  ck_scheduler : SS
}.

(** The dictionary that [get_last_ckpt] returns, with its keys ['last']
    and ['best']. *)
Record last_best := LastBest {
  last_ckpt : option ckptdict;
  best_ckpt : option ckptdict
}.

Definition get_last_ckpt {Device : Type} (device : Device)
    (suffix : string) (specify : option specifier)
    : io ckptdict last_best :=
  let* last_ck :=
    match specify with
    | Some sp =>
        let* c := torch_load (py_format sp +:+ suffix) in io_ret (Some c)
    | None =>
        let* ckpts := fetch_ckpt_namelist suffix in
        (* [ckpts[-1]] is there unless [len(ckpts) == 0] *)
        match last ckpts with
        | None => io_ret None
        | Some c => let* c := torch_load c.1 in io_ret (Some c)
        end
    end in
  let* has_best := os_path_exists ("best" +:+ suffix) in
  let* best_ck :=
    (if has_best : bool
     then let* c := torch_load ("best" +:+ suffix) in io_ret (Some c)
     else io_ret None) in
  io_ret (LastBest last_ck best_ck).

Section objects.
Context {Model Optimizer Scheduler : Type}.
Context `{!StateExport Model MS, !StateExport Optimizer OS,
          !StateExport Scheduler SS}.

Definition save_ckpt (epoch : Z) (best_valid_loss : Loss)
    (best_valid_epoch : Z) (model : Model) (optimizer : Optimizer)
    (scheduler : Scheduler) (prefix suffix : string) (max_to_keep : Z)
    : io ckptdict ckptdict :=
  let ckpt :=
    Ckptdict epoch best_valid_loss best_valid_epoch
      (state_dict model) (state_dict optimizer) (state_dict scheduler) in
  torch_save ckpt (prefix +:+ suffix) ;>
  let* ckpts := fetch_ckpt_namelist suffix in
  (if (Z.of_nat (length ckpts) >? max_to_keep)%Z
   then io_for (py_slice_to ckpts (Z.of_nat (length ckpts) - max_to_keep))
               (λ c, os_remove c.1)
   else io_ret tt) ;>
  io_ret ckpt.

(** The directory after the write of [save_ckpt], before the rotation. *)
Definition written (ckpt : ckptdict) (name : string)
    (w : ckptdir ckptdict) : ckptdir ckptdict :=
  (torch_save ckpt name w).1.

(** The files that the rotation deletes when the listing is [ckpts]. *)
Definition rotated_out (ckpts : list (string * Z)) (max_to_keep : Z)
    : list (string * Z) :=
  if (Z.of_nat (length ckpts) >? max_to_keep)%Z
  then py_slice_to ckpts (Z.of_nat (length ckpts) - max_to_keep)
  else [].

(** A training loop that saves once per epoch: the arguments of one call,
    and the calls in a row. *)
Record save_call := SaveCall {
  sc_epoch : Z;
  sc_best_valid_loss : Loss;
  sc_best_valid_epoch : Z;
  sc_model : Model;
  sc_optimizer : Optimizer;
  sc_scheduler : Scheduler;
  sc_prefix : string
}.

Definition record_of (c : save_call) : ckptdict :=
  Ckptdict (sc_epoch c) (sc_best_valid_loss c) (sc_best_valid_epoch c)
    (state_dict (sc_model c)) (state_dict (sc_optimizer c))
    (state_dict (sc_scheduler c)).

Definition save_call_run (suffix : string) (max_to_keep : Z) (c : save_call)
    : io ckptdict ckptdict :=
  save_ckpt (sc_epoch c) (sc_best_valid_loss c) (sc_best_valid_epoch c)
    (sc_model c) (sc_optimizer c) (sc_scheduler c) (sc_prefix c) suffix
    max_to_keep.

Definition save_calls (suffix : string) (max_to_keep : Z)
    (calls : list save_call) : io ckptdict unit :=
  io_for calls (λ c, save_call_run suffix max_to_keep c ;> io_ret tt).

Context `{!StateImport Model MS, !StateImport (DataParallel Model) MS,
          !StateImport Optimizer OS, !StateImport Scheduler SS}.

(** The objects that the caller of [load_ckpt] holds, as the call leaves
    them. *)
Record objects := Objects {
  the_model : Model;
  the_optimizer : Optimizer;
  the_scheduler : Scheduler
}.

Record restored := Restored {
  r_epoch : Z;
  r_best_valid_loss : Loss;
  r_best_valid_epoch : Z;
  r_model : Model;
  r_optimizer : Optimizer;
  r_scheduler : Scheduler
}.

(** The [try] block with its handler: the model after the import, or the
    exception of the second import, which nothing catches. *)
Definition load_model (model : Model) (ckpt : ckptdict) : Model * option exn :=
  match load_state_dict model (ck_model ckpt) with
  | (model, None) => (model, None)
  | (model, Some _) =>
      let wrapped := DataParallelOf model in
      match load_state_dict wrapped (ck_model ckpt) with
      | (wrapped, Some e) => (module wrapped, Some e)
      | (wrapped, None) => (module wrapped, None)
      end
  end.

Definition load_ckpt (model : Model) (optimizer : Optimizer)
    (scheduler : Scheduler) (ckpt : ckptdict) (restore_opt_sche : bool)
    : objects * (exn + restored) :=
  let epoch := ck_epoch ckpt in
  let best_valid_loss := ck_best_valid_loss ckpt in
  let best_valid_epoch := ck_best_valid_epoch ckpt in
  match load_model model ckpt with
  | (model, Some e) => (Objects model optimizer scheduler, inl e)
  | (model, None) =>
      if restore_opt_sche then
        match load_state_dict optimizer (ck_optimizer ckpt) with
        | (optimizer, Some e) => (Objects model optimizer scheduler, inl e)
        | (optimizer, None) =>
            match load_state_dict scheduler (ck_scheduler ckpt) with
            | (scheduler, Some e) =>
                (Objects model optimizer scheduler, inl e)
            | (scheduler, None) =>
                (Objects model optimizer scheduler,
                 inr (Restored epoch best_valid_loss best_valid_epoch
                        model optimizer scheduler))
            end
        end
      else
        (Objects model optimizer scheduler,
         inr (Restored epoch best_valid_loss best_valid_epoch
                model optimizer scheduler))
  end.

End objects.
End checkpoints.

(** ** A small instance of the framework's objects

    Objects whose state is the list of their parameters, by name.  The
    import is strict: it raises unless the names of the imported state are
    the names of the object; the wrapper's names are those of its module
    with [module.] in front. *)
Abbreviation params := (list (string * Z)).

Global Instance params_export : StateExport params params := λ m, m.

Global Instance params_import : StateImport params params :=
  λ m sd,
    if bool_decide (sd.*1 = m.*1) then (sd, None)
    else (m, Some RuntimeError).

Global Instance wrapped_import : StateImport (DataParallel params) params :=
  λ wrapped sd,
    if bool_decide (sd.*1 = (String.append "module.") <$> (module wrapped).*1)
    then (DataParallelOf (zip (module wrapped).*1 sd.*2), None)
    else (wrapped, Some RuntimeError).

(** Sample objects, records and directories. *)
Definition sample_model : params := [("fc.weight", 0%Z); ("fc.bias", 0%Z)].

Definition sample_optimizer : params := [("lr", 1%Z)].

Definition sample_scheduler : params := [("last_epoch", 0%Z)].

Definition sample_ckpt (epoch : Z) : @ckptdict Z params params params :=
  Ckptdict epoch 0%Z epoch [("fc.weight", epoch); ("fc.bias", 1%Z)]
    [("lr", 2%Z)] [("last_epoch", epoch)].

Definition sample_wrapped_ckpt (epoch : Z)
    : @ckptdict Z params params params :=
  Ckptdict epoch 0%Z epoch
    [("module.fc.weight", epoch); ("module.fc.bias", 1%Z)]
    [("lr", 2%Z)] [("last_epoch", epoch)].

Definition sample_mismatched_ckpt (epoch : Z)
    : @ckptdict Z params params params :=
  Ckptdict epoch 0%Z epoch [("conv.weight", epoch)]
    [("lr", 2%Z)] [("last_epoch", epoch)].

Definition sample_call (epoch : Z) : @save_call Z params params params :=
  SaveCall epoch 0%Z epoch [("fc.weight", epoch); ("fc.bias", 1%Z)]
    [("lr", 2%Z)] [("last_epoch", epoch)] (pretty epoch).

Definition sample_dir (epochs : list Z)
    : ckptdir (@ckptdict Z params params params) :=
  Ckptdir (list_to_map
    ((λ e, (pretty e +:+ "_checkpoint.pt", sample_ckpt e)) <$> epochs)) [].

(** * Decimal names

    ['{:d}'.format(n)] and [str(n)] of an integer are [pretty n]; the
    definitions below say what such a string looks like. *)

(** Every character of [s] passes the test [p]. *)
Fixpoint all_chars (p : ascii → bool) (s : string) : bool :=
  match s with
  | EmptyString => true
  | String a s' => p a && all_chars p s'
  end.


Definition is_digit (a : ascii) : bool :=
  match digit_of a with
  | Some _ => true
  | None => false
  end.

(** The number that a string of digits denotes after the digits read so
    far denote [acc]. *)
Fixpoint digits_value (acc : Z) (s : string) : Z :=
  match s with
  | EmptyString => acc
  | String a s' =>
      match digit_of a with
      | Some d => digits_value (10 * acc + d) s'
      | None => acc
      end
  end.

(** The characters of a decimal name: digits, after a minus sign for a
    negative number. *)
Definition is_decimal_char (a : ascii) : bool :=
  is_digit a || Ascii.eqb a "-"%char.

(** A suffix that a decimal name cannot run into: it is not empty and
    starts with a character that is neither a digit nor a sign. *)
Definition plain_suffix (suffix : string) : bool :=
  match suffix with
  | EmptyString => false
  | String a _ => negb (is_digit a) && negb (Ascii.eqb a "-"%char)
  end.
(** * A run of saves

    The entry that the listing has for the file of a call whose name has
    the number [e]. *)
Definition entry_of_call {Loss Model Optimizer Scheduler : Type}
    (suffix : string)
    (ce : @save_call Loss Model Optimizer Scheduler * Z) : string * Z :=
  (sc_prefix ce.1 +:+ suffix, ce.2).
(** * Output streams and [print_2way]

    A text stream: whether it is closed, the text it holds in its buffer,
    and the text already flushed. *)
Record stream := Stream {
  st_closed : bool;
  st_buffer : string;
  st_flushed : string
}.

(** All the text that was sent to the stream, flushed or not. *)
Definition st_sent (s : stream) : string := st_flushed s +:+ st_buffer s.

(** The two streams of [print_2way]: [sys.stdout], and another open file.
    The argument [f] is one of them. *)
Record outputs := Outputs {
  out_stdout : stream;
  out_other : stream
}.

Inductive target :=
  | Stdout
  | Other.

Definition get_stream (t : target) (o : outputs) : stream :=
  match t with
  | Stdout => out_stdout o
  | Other => out_other o
  end.

Definition set_stream (t : target) (s : stream) (o : outputs) : outputs :=
  match t with
  | Stdout => Outputs s (out_other o)
  | Other => Outputs (out_stdout o) s
  end.

(** [file.write(text)]: a closed file raises [ValueError]. *)
Definition stream_write (t : target) (text : string) (o : outputs)
    : outputs * option exn :=
  let s := get_stream t o in
  if st_closed s then (o, Some ValueError)
  else (set_stream t (Stream false (st_buffer s +:+ text) (st_flushed s)) o,
        None).

(** [file.flush()] *)
Definition stream_flush (t : target) (o : outputs) : outputs * option exn :=
  let s := get_stream t o in
  if st_closed s then (o, Some ValueError)
  else (set_stream t (Stream false "" (st_flushed s +:+ st_buffer s)) o, None).

Section printing.
Context {V : Type} (py_str : V → string).

(** The text that [print] writes for the values [x]: the values, each turned into a string by
    [str], with single spaces between them and a newline at the end. *)
Definition print_text (x : list V) : string :=
  String.concat " " (py_str <$> x) +:+ String "010"%char "".

(** [print] of the values [x] with [file=t] *)
Definition py_print (t : target) (x : list V) (o : outputs)
    : outputs * option exn :=
  stream_write t (print_text x) o.

Definition print_2way (f : target) (x : list V) (o : outputs)
    : outputs * option exn :=
  match py_print Stdout x o with
  | (o, Some e) => (o, Some e)
  | (o, None) =>
      match py_print f x o with
      | (o, Some e) => (o, Some e)
      | (o, None) => stream_flush f o
      end
  end.

End printing.

(** * Properties of the argument container *)

Section map_fold_facts.
Context {K : Type} `{Countable K} {A : Type}.

Lemma fold_and_true (p : K → A → bool) (m : gmap K A) :
  map_fold (λ k v acc, p k v && acc) true m = true ↔
  ∀ k v, m !! k = Some v → p k v = true.
Proof.
  apply (map_fold_weak_ind (λ r m, r = true ↔ ∀ k v, m !! k = Some v → p k v = true)).
  - split; [intros _ k v; by rewrite lookup_empty | done].
  - intros i x m' r Hi IH. rewrite andb_true_iff, IH. split.
    + intros [Hx Hm] k v. rewrite lookup_insert.
      case_decide as Hd; [intros [= <-]; by subst|by apply Hm].
    + intros Hall. split.
      * apply Hall. by rewrite lookup_insert_eq.
      * intros k v Hk. apply Hall. rewrite lookup_insert_ne; [done|congruence].
Qed.

Lemma fold_insert_fmap {A'} (g : A → A') (m : gmap K A) :
  map_fold (λ k v acc, <[k := g v]> acc) ∅ m = g <$> m.
Proof.
  apply (map_fold_weak_ind (λ r m, r = g <$> m)).
  - by rewrite fmap_empty.
  - intros i x m' r _ ->. by rewrite fmap_insert.
Qed.

Lemma fold_sum_lookup (f : A → nat) (m : gmap K A) k v :
  m !! k = Some v → f v ≤ map_fold (λ _ v n, f v + n) 0 m.
Proof.
  intros Hk.
  rewrite (map_fold_delete_L _ _ k v m); [lia| |done].
  intros. lia.
Qed.

Lemma fold_max_le (f : A → nat) (m : gmap K A) (n : nat) :
  map_fold (λ _ v acc, f v `max` acc) 0 m ≤ n ↔
  ∀ k v, m !! k = Some v → f v ≤ n.
Proof.
  apply (map_fold_weak_ind (λ r m, r ≤ n ↔ ∀ k v, m !! k = Some v → f v ≤ n)).
  - split; [intros _ k v; by rewrite lookup_empty | lia].
  - intros i x m' r Hi IH. rewrite Nat.max_lub_iff, IH. split.
    + intros [Hx Hm] k v. rewrite lookup_insert.
      case_decide as Hd; [intros [= <-]; done|by apply Hm].
    + intros Hall. split.
      * apply (Hall i). by rewrite lookup_insert_eq.
      * intros k v Hk. apply (Hall k).
        rewrite lookup_insert_ne; [done|congruence].
Qed.

End map_fold_facts.

Lemma pyval_size_ind (P : pyval → Prop) :
  (∀ v, (∀ v', pv_size v' < pv_size v → P v') → P v) → ∀ v, P v.
Proof.
  intros Hstep v. remember (pv_size v) as n eqn:Hn. revert v Hn.
  induction n as [n IHn] using lt_wf_ind. intros v ->.
  apply Hstep. intros v' Hlt. by apply (IHn (pv_size v')).
Qed.

Lemma pv_size_lookup (d : pydict) k v :
  d !! k = Some v → pv_size v < pv_size (VDict d).
Proof.
  intros Hk. simpl. apply Nat.lt_succ_r.
  by apply (fold_sum_lookup pv_size d k v).
Qed.

Lemma kwargs_ok_spec (d : pydict) :
  kwargs_ok d = true ↔ ∀ k v, d !! k = Some v → kwarg_ok k = true.
Proof. apply (fold_and_true (λ k _, kwarg_ok k)). Qed.

Lemma kwargs_ok_fmap (f : pyval → pyval) (d : pydict) :
  kwargs_ok (f <$> d) = kwargs_ok d.
Proof.
  apply eq_true_iff_eq. rewrite !kwargs_ok_spec. split; intros Hall k v.
  - intros Hv. apply (Hall k (f v)). by rewrite lookup_fmap, Hv.
  - rewrite lookup_fmap. destruct (d !! k) as [v'|] eqn:Hd; [|done].
    intros _. by apply (Hall k v').
Qed.

Lemma plain_value_dict (d : pydict) :
  plain_value (VDict d) = true ↔
  kwargs_ok d = true ∧ ∀ k v, d !! k = Some v → plain_value v = true.
Proof.
  simpl. rewrite andb_true_iff.
  by rewrite (fold_and_true (λ _ v, plain_value v)).
Qed.

Lemma shadowed_fmap (name : string) (f : pyval → pyval) (d : pydict) :
  shadowed name (f <$> d) = shadowed name d.
Proof. unfold shadowed. rewrite lookup_fmap. by destruct (d !! KStr name). Qed.

Lemma shadowed_false (name : string) (d : pydict) :
  shadowed name d = false ↔ d !! KStr name = None.
Proof. unfold shadowed. by destruct (d !! KStr name). Qed.

Lemma unshadowed_dict (d : pydict) :
  unshadowed (VDict d) = true ↔
  shadowed "to_argdict" d = false ∧
  ∀ k v, d !! k = Some v → unshadowed v = true.
Proof.
  cbn [unshadowed]. rewrite andb_true_iff, negb_true_iff.
  by rewrite (fold_and_true (λ _ v, unshadowed v)).
Qed.

Lemma unshadowed_args (d : pydict) :
  unshadowed (VArgs d) = true ↔
  shadowed "to_argdict" d = false ∧
  ∀ k v, d !! k = Some v → unshadowed v = true.
Proof.
  cbn [unshadowed]. rewrite andb_true_iff, negb_true_iff.
  by rewrite (fold_and_true (λ _ v, unshadowed v)).
Qed.

Lemma dict_depth_le (d : pydict) (n : nat) :
  dict_depth (VDict d) ≤ S n ↔ ∀ k v, d !! k = Some v → dict_depth v ≤ n.
Proof.
  cbn [dict_depth]. rewrite <-Nat.succ_le_mono. apply fold_max_le.
Qed.

Lemma dict_depth_pos (d : pydict) : 0 < dict_depth (VDict d).
Proof. cbn [dict_depth]. lia. Qed.

Lemma args_depth_le (d : pydict) (n : nat) :
  args_depth (VArgs d) ≤ S n ↔ ∀ k v, d !! k = Some v → args_depth v ≤ n.
Proof.
  cbn [args_depth]. rewrite <-Nat.succ_le_mono. apply fold_max_le.
Qed.

Lemma args_depth_pos (d : pydict) : 0 < args_depth (VArgs d).
Proof. cbn [args_depth]. lia. Qed.

(** The loop stores the bound value of every item when no constructor call
    raises. *)
Lemma store_items_ok bind (f : pyval → pyval) (argdict self : pydict) :
  (∀ k v, argdict !! k = Some v → bind v = inr (f v)) →
  store_items bind argdict self = ((f <$> argdict) ∪ self, None).
Proof.
  unfold store_items.
  apply (map_fold_weak_ind (λ r m,
    (∀ k v, m !! k = Some v → bind v = inr (f v)) →
    r = ((f <$> m) ∪ self, None))).
  - intros _. by rewrite fmap_empty, (left_id_L ∅ (∪)).
  - intros i x m r Hi IHm Hall.
    rewrite IHm.
    + rewrite (Hall i x) by apply lookup_insert_eq.
      by rewrite fmap_insert, insert_union_l.
    + intros k v Hk. apply (Hall k v).
      rewrite lookup_insert_ne; [done|congruence].
Qed.

(** Whatever the outcome, the loop leaves the keys alone that are not in
    [argdict]. *)
Lemma store_items_frame bind (argdict self : pydict) k :
  argdict !! k = None → (store_items bind argdict self).1 !! k = self !! k.
Proof.
  unfold store_items.
  apply (map_fold_weak_ind (λ r m, m !! k = None → r.1 !! k = self !! k)).
  - done.
  - intros i x m [self' [e|]] Hi IHm Hk;
      apply lookup_insert_None in Hk as [Hk Hne]; simpl in *; [by apply IHm|].
    destruct (bind x); simpl; [by apply IHm|].
    rewrite lookup_insert_ne by done. by apply IHm.
Qed.

(** The loop returns exactly when every value can be bound. *)
Lemma store_items_returns bind (argdict self : pydict) :
  (store_items bind argdict self).2 = None ↔
  ∀ k v, argdict !! k = Some v → ∃ w, bind v = inr w.
Proof.
  unfold store_items.
  apply (map_fold_weak_ind (λ r m,
    r.2 = None ↔ ∀ k v, m !! k = Some v → ∃ w, bind v = inr w)).
  - split; [intros _ k v; by rewrite lookup_empty|done].
  - intros i x m [self' [e|]] Hi IHm; simpl in *.
    + split; [done|]. intros Hall. apply IHm. intros k v Hk.
      apply (Hall k v). rewrite lookup_insert_ne; [done|congruence].
    + destruct (bind x) as [e|w] eqn:Hx; simpl.
      * split; [done|]. intros Hall.
        destruct (Hall i x) as [w Hw]; [apply lookup_insert_eq|congruence].
      * split; [|done]. intros _ k v. rewrite lookup_insert.
        case_decide as Hd; [intros [= <-]; eauto|by apply IHm].
Qed.

(** The loop raises what a constructor call of an item raises. *)
Lemma store_items_raises bind (argdict self : pydict) (e : exn) :
  (store_items bind argdict self).2 = Some e →
  ∃ k v, argdict !! k = Some v ∧ bind v = inl e.
Proof.
  unfold store_items.
  apply (map_fold_weak_ind (λ r m,
    r.2 = Some e → ∃ k v, m !! k = Some v ∧ bind v = inl e)).
  - done.
  - intros i x m [self' [e'|]] Hi IHm; simpl in *.
    + intros He. destruct (IHm He) as (k & v & Hk & Hv).
      exists k, v. split; [|done].
      rewrite lookup_insert_ne; [done|congruence].
    + destruct (bind x) as [e1|w] eqn:Hx; simpl; [|done].
      intros [= ->]. exists i, x. split; [apply lookup_insert_eq|done].
Qed.

Lemma init_body_ok bind (f : pyval → pyval) (d : pydict) :
  (∀ k v, d !! k = Some v → bind v = inr (f v)) →
  init_body bind d = inr (f <$> d).
Proof.
  intros Hall. unfold init_body.
  rewrite (store_items_ok _ f) by done.
  by rewrite (right_id_L ∅ (∪)).
Qed.

Lemma init_body_cases bind (d : pydict) :
  init_body bind d =
  match (store_items bind d ∅).2 with
  | Some e => inl e
  | None => inr (store_items bind d ∅).1
  end.
Proof. unfold init_body. by destruct (store_items bind d ∅) as [self [e|]]. Qed.

(** The loop of [to_argdict] stores the exported value of every item when
    no export raises. *)
Lemma export_items_ok export (g : pyval → pyval) (self : pydict) :
  (∀ k v, self !! k = Some v → export v = inr (g v)) →
  export_items export self = inr (g <$> self).
Proof.
  unfold export_items.
  apply (map_fold_weak_ind (λ r m,
    (∀ k v, m !! k = Some v → export v = inr (g v)) → r = inr (g <$> m))).
  - intros _. by rewrite fmap_empty.
  - intros i x m r Hi IHm Hall.
    rewrite IHm.
    + rewrite (Hall i x) by apply lookup_insert_eq. by rewrite fmap_insert.
    + intros k v Hk. apply (Hall k v).
      rewrite lookup_insert_ne; [done|congruence].
Qed.

Lemma export_items_returns export (self m : pydict) :
  export_items export self = inr m →
  ∀ k v, self !! k = Some v → ∃ w, export v = inr w.
Proof.
  unfold export_items. revert m.
  apply (map_fold_weak_ind (λ r s,
    ∀ m, r = inr m → ∀ k v, s !! k = Some v → ∃ w, export v = inr w)).
  - intros m _ k v. by rewrite lookup_empty.
  - intros i x s [e|a] Hi IHs m; [done|].
    destruct (export x) as [e|w] eqn:Hx; [done|]. intros _ k v.
    rewrite lookup_insert.
    case_decide as Hd; [intros [= <-]; eauto|by apply (IHs a)].
Qed.

Lemma export_items_raises export (self : pydict) (e : exn) :
  export_items export self = inl e →
  ∃ k v, self !! k = Some v ∧ export v = inl e.
Proof.
  unfold export_items.
  apply (map_fold_weak_ind (λ r s,
    r = inl e → ∃ k v, s !! k = Some v ∧ export v = inl e)).
  - done.
  - intros i x s [e'|a] Hi IHs.
    + intros He. destruct (IHs He) as (k & v & Hk & Hv).
      exists k, v. split; [|done].
      rewrite lookup_insert_ne; [done|congruence].
    + destruct (export x) as [e1|w] eqn:Hx; [|done].
      intros [= ->]. exists i, x. split; [apply lookup_insert_eq|done].
Qed.

(** The equations of the calls. *)
Lemma MyArgs_init_S (limit : nat) (m : pydict) :
  MyArgs_init (S limit) m
  = if kwargs_ok m then init_body (bind_value limit) m else inl TypeError.
Proof. reflexivity. Qed.

Lemma to_argdict_S (limit : nat) (self : pydict) :
  to_argdict (S limit) self = export_items (export_value limit) self.
Proof. reflexivity. Qed.

Lemma bind_value_dict (limit : nat) (d : pydict) :
  bind_value limit (VDict d)
  = match MyArgs_init limit d with
    | inl e => inl e
    | inr self => inr (VArgs self)
    end.
Proof. reflexivity. Qed.

Lemma bind_value_leaf (limit : nat) (v : pyval) :
  (∀ d, v ≠ VDict d) → bind_value limit v = inr v.
Proof. intros Hv. destruct v; try done. by destruct (Hv d). Qed.

Lemma export_value_args (limit : nat) (d : pydict) :
  export_value limit (VArgs d)
  = if shadowed "to_argdict" d then inl TypeError
    else match to_argdict limit d with
         | inl e => inl e
         | inr argdict => inr (VDict argdict)
         end.
Proof. reflexivity. Qed.

Lemma export_value_leaf (limit : nat) (v : pyval) :
  (∀ d, v ≠ VArgs d) → export_value limit v = inr v.
Proof. intros Hv. destruct v; try done. by destruct (Hv d). Qed.

(** A plain value, no deeper than the calls allowed and without the key
    [to_argdict], is bound without an exception, and exporting what was
    bound gives the value back. *)
Lemma bind_export (v : pyval) : ∀ l l',
  plain_value v = true → unshadowed v = true →
  dict_depth v ≤ l → dict_depth v ≤ l' →
  bind_value l v = inr (bound l v) ∧ export_value l' (bound l v) = inr v.
Proof.
  induction v as [v IHv] using pyval_size_ind. intros l l' Hv Hu Hl Hl'.
  destruct v as [| | | | |d|d]; try done.
  pose proof (dict_depth_pos d) as Hpos.
  destruct l as [|l]; [lia|]. destruct l' as [|l']; [lia|].
  apply plain_value_dict in Hv as [Hk Hall].
  apply unshadowed_dict in Hu as [Hs Hus].
  pose proof (proj1 (dict_depth_le d l) Hl) as Hdl.
  pose proof (proj1 (dict_depth_le d l') Hl') as Hdl'.
  assert (IH : ∀ k v, d !! k = Some v →
            bind_value l v = inr (bound l v) ∧
            export_value l' (bound l v) = inr v).
  { intros k v Hv. apply IHv; eauto using pv_size_lookup. }
  assert (Hb : bind_value (S l) (VDict d) = inr (VArgs (bound l <$> d))).
  { rewrite bind_value_dict, MyArgs_init_S, Hk.
    rewrite (init_body_ok _ (bound l)); [done|].
    intros k v Hv. by apply (IH k v). }
  unfold bound at 2. rewrite Hb. split; [by unfold bound; rewrite Hb|].
  rewrite export_value_args, shadowed_fmap, Hs, to_argdict_S.
  rewrite (export_items_ok _ (exported l')).
  - f_equal. f_equal. rewrite <-map_fmap_compose.
    rewrite <-(map_fmap_id d) at 2. apply map_fmap_ext.
    intros k v Hv. simpl. unfold exported.
    by destruct (IH k v Hv) as [_ ->].
  - intros k v. rewrite lookup_fmap.
    destruct (d !! k) as [v'|] eqn:Hd; [|done]. intros [= <-].
    unfold exported. by destruct (IH k v' Hd) as [_ ->].
Qed.

(** What the loop binds: a container built from a mapping value alone,
    and every other value as it is. *)
Lemma bound_dict (limit : nat) (d : pydict) :
  bind_value limit (VDict d) = inr (bound limit (VDict d)) →
  ∃ d', MyArgs_init limit d = inr d' ∧ bound limit (VDict d) = VArgs d'.
Proof.
  unfold bound. rewrite bind_value_dict.
  destruct (MyArgs_init limit d) as [e|d']; [done|]. by exists d'.
Qed.

Lemma bound_leaf (limit : nat) (v : pyval) :
  (∀ d, v ≠ VDict d) → bound limit v = v.
Proof. intros Hv. unfold bound. by rewrite bind_value_leaf. Qed.

(** C2 (as amended): for every nested mapping whose keys, at every level
    that the constructor reaches, are keyword names other than [self] and
    [to_argdict], whose entries are no containers already, and which is
    nested no deeper than the calls that the interpreter allows, [MyArgs]
    called with the keyword arguments [m] returns an instance that binds
    the keys of [m], a mapping value to the container built from it and
    every other value as it is; the attribute [to_argdict] of the instance
    is the method, and [to_argdict] of the instance is [m]. *)
Theorem MyArgs_roundtrip (limit limit' : nat) (m : pydict) :
  plain_mapping m = true →
  unshadowed (VDict m) = true →
  dict_depth (VDict m) ≤ limit →
  dict_depth (VDict m) ≤ limit' →
  ∃ self, MyArgs_init limit m = inr self ∧
    self !! KStr "to_argdict" = None ∧
    to_argdict limit' self = inr m ∧
    (∀ k d, m !! k = Some (VDict d) →
       ∃ d', MyArgs_init (Nat.pred limit) d = inr d' ∧
             self !! k = Some (VArgs d')) ∧
    (∀ k v, m !! k = Some v → (∀ d, v ≠ VDict d) → self !! k = Some v) ∧
    (∀ k, m !! k = None → self !! k = None).
Proof.
  intros Hm Hu Hl Hl'. pose proof (dict_depth_pos m) as Hpos.
  destruct limit as [|l]; [lia|]. destruct limit' as [|l']; [lia|].
  apply plain_value_dict in Hm as [Hk Hall].
  apply unshadowed_dict in Hu as [Hs Hus].
  pose proof (proj1 (dict_depth_le m l) Hl) as Hdl.
  pose proof (proj1 (dict_depth_le m l') Hl') as Hdl'.
  assert (Hb : ∀ k v, m !! k = Some v →
            bind_value l v = inr (bound l v) ∧
            export_value l' (bound l v) = inr v)
    by (intros k v Hv; apply bind_export; eauto).
  exists (bound l <$> m). split; [|split; [|split; [|split; [|split]]]].
  - rewrite MyArgs_init_S, Hk. apply init_body_ok.
    intros k v Hv. by apply (Hb k v).
  - rewrite lookup_fmap. by rewrite (proj1 (shadowed_false _ _) Hs).
  - rewrite to_argdict_S, (export_items_ok _ (exported l')).
    + f_equal. rewrite <-map_fmap_compose.
      rewrite <-(map_fmap_id m) at 2. apply map_fmap_ext.
      intros k v Hv. simpl. unfold exported.
      by destruct (Hb k v Hv) as [_ ->].
    + intros k v. rewrite lookup_fmap.
      destruct (m !! k) as [v'|] eqn:Hd; [|done]. intros [= <-].
      unfold exported. by destruct (Hb k v' Hd) as [_ ->].
  - intros k d Hd. destruct (Hb k _ Hd) as [Hbd _].
    destruct (bound_dict l d Hbd) as (d' & Hd' & Heq).
    exists d'. split; [done|]. by rewrite lookup_fmap, Hd, <-Heq.
  - intros k v Hv Hleaf. rewrite lookup_fmap, Hv. simpl.
    by rewrite (bound_leaf l v Hleaf).
  - intros k Hk'. by rewrite lookup_fmap, Hk'.
Qed.

Lemma MyArgs_roundtrip_witness :
  plain_mapping sample_args = true ∧
  ∃ self, MyArgs_init 3 sample_args = inr self ∧
    to_argdict 3 self = inr sample_args.
Proof.
  assert (Hplain : plain_mapping sample_args = true)
    by (vm_compute; reflexivity).
  assert (Hu : unshadowed (VDict sample_args) = true)
    by (vm_compute; reflexivity).
  assert (Hd : dict_depth (VDict sample_args) ≤ 3)
    by (vm_compute; lia).
  split; [exact Hplain|].
  destruct (MyArgs_roundtrip 3 3 sample_args Hplain Hu Hd Hd)
    as (self & Hinit & _ & Hexp & _).
  exists self. split; [exact Hinit|exact Hexp].
Defined.

(** C2 fails as stated: a mapping with the key [self], and a mapping with
    a nested mapping keyed by integers, have primitive leaves, and the
    constructor raises [TypeError] on both; from a mapping with a nested
    mapping that has the key [to_argdict] the constructor builds an
    instance on which [to_argdict] raises [TypeError]; and on a mapping
    nested deeper than the calls allowed the constructor raises
    [RecursionError]. *)
Lemma MyArgs_roundtrip_counterexample :
  MyArgs_init 3 self_named = inl TypeError ∧
  MyArgs_init 3 int_keyed = inl TypeError ∧
  (plain_mapping method_named = true ∧
   ∃ self, MyArgs_init 3 method_named = inr self ∧
           to_argdict 3 self = inl TypeError) ∧
  (plain_mapping {[ KStr "inner" := nested 3 ]} = true ∧
   MyArgs_init 3 {[ KStr "inner" := nested 3 ]} = inl RecursionError).
Proof.
  split; [vm_compute; reflexivity|]. split; [vm_compute; reflexivity|].
  split; (split; [vm_compute; reflexivity|]).
  - exists {[ KStr "model" := VArgs {[ KStr "to_argdict" := VInt 1 ]} ]}.
    split; reflexivity.
  - vm_compute. reflexivity.
Qed.

Lemma all_bind_spec (limit : nat) (argdict : pydict) :
  all_bind limit argdict = true ↔
  ∀ k v, argdict !! k = Some v → bind_value limit v = inr (bound limit v).
Proof.
  unfold all_bind. rewrite (fold_and_true (λ _ v, binds limit v)).
  unfold binds, bound. split; intros Hall k v Hv; specialize (Hall k v Hv).
  - by destruct (bind_value limit v).
  - by rewrite Hall.
Qed.

(** C9: [load_argdict] never removes or changes a key that is absent from
    the incoming mapping; it returns exactly when every value of the
    incoming mapping can be bound (no constructor call raises), and then
    every incoming key is bound by the rule of the constructor: the value
    itself, or a new container built from a mapping value alone, whatever
    was bound to the key before. *)
Theorem load_argdict_overwrites (limit : nat) (self argdict : pydict) :
  (∀ k, argdict !! k = None →
        (load_argdict limit self argdict).1 !! k = self !! k) ∧
  ((load_argdict limit self argdict).2 = None ↔
   all_bind limit argdict = true) ∧
  (all_bind limit argdict = true →
   ∃ self', load_argdict limit self argdict = (self', None) ∧
     (∀ k v, argdict !! k = Some v →
        ∃ w, bind_value limit v = inr w ∧ self' !! k = Some w) ∧
     (∀ k d, argdict !! k = Some (VDict d) →
        ∃ d', MyArgs_init limit d = inr d' ∧ self' !! k = Some (VArgs d')) ∧
     (∀ k v, argdict !! k = Some v → (∀ d, v ≠ VDict d) →
        self' !! k = Some v) ∧
     (∀ s, MyArgs_init (S limit) argdict = inr s →
        ∀ k, is_Some (argdict !! k) → self' !! k = s !! k)).
Proof.
  split; [intros k; apply store_items_frame|]. split.
  { unfold load_argdict. rewrite store_items_returns, all_bind_spec.
    split; intros Hall k v Hv.
    - destruct (Hall k v Hv) as [w Hw]. unfold bound. by rewrite Hw.
    - eauto. }
  intros Hall0. pose proof (proj1 (all_bind_spec _ _) Hall0) as Hall.
  exists ((bound limit <$> argdict) ∪ self).
  assert (Hlk : ∀ k v, argdict !! k = Some v →
            ((bound limit <$> argdict) ∪ self) !! k = Some (bound limit v)).
  { intros k v Hv. apply lookup_union_Some_l. by rewrite lookup_fmap, Hv. }
  split; [by apply store_items_ok|]. repeat split.
  - intros k v Hv. exists (bound limit v). eauto.
  - intros k d Hd. destruct (bound_dict limit d (Hall k _ Hd)) as (d' & Hd' & Heq).
    exists d'. split; [done|]. rewrite (Hlk k _ Hd). by rewrite Heq.
  - intros k v Hv Hnd. rewrite (Hlk k v Hv). by rewrite bound_leaf.
  - intros s Hs k [v Hv]. rewrite (Hlk k v Hv).
    rewrite MyArgs_init_S in Hs.
    destruct (kwargs_ok argdict); [|done].
    rewrite (init_body_ok _ (bound limit)) in Hs by done.
    injection Hs as <-. by rewrite lookup_fmap, Hv.
Qed.

Lemma load_argdict_overwrites_witness :
  all_bind 3 sample_args = true ∧
  ∃ self', load_argdict 3 sample_self sample_args = (self', None) ∧
    self' !! KStr "lr" = Some (VInt 3) ∧
    self' !! KStr "seed" = Some (VInt 7) ∧
    (∀ k d, sample_args !! k = Some (VDict d) →
        ∃ d', MyArgs_init 3 d = inr d' ∧ self' !! k = Some (VArgs d')).
Proof.
  assert (Hall : all_bind 3 sample_args = true) by (vm_compute; reflexivity).
  split; [exact Hall|].
  destruct (load_argdict_overwrites 3 sample_self sample_args)
    as (Hframe & _ & Hset).
  destruct (Hset Hall) as (self' & Hrun & _ & Hnew & Hleaf & _).
  exists self'. split; [exact Hrun|]. split; [|split; [|exact Hnew]].
  - apply Hleaf; [vm_compute; reflexivity|discriminate].
  - rewrite Hrun in Hframe. simpl in Hframe.
    rewrite (Hframe (KStr "seed")); vm_compute; reflexivity.
Defined.

(** * Properties of the string methods *)

Lemma startswith_app (p r : string) : startswith (p +:+ r) p = true.
Proof.
  induction p as [|a p IHp]; simpl; [done|].
  by rewrite Ascii.eqb_refl, IHp.
Qed.

Lemma startswith_spec (x p : string) :
  startswith x p = true ↔ ∃ r, x = p +:+ r.
Proof.
  split.
  - revert x. induction p as [|a p IHp]; intros x Hx; simpl in *; [by eexists|].
    destruct x as [|b x]; [done|].
    apply andb_true_iff in Hx as [Hab Hx]. apply Ascii.eqb_eq in Hab as ->.
    destruct (IHp x Hx) as [r ->]. by exists r.
  - intros [r ->]. apply startswith_app.
Qed.

Lemma endswith_unfold (x s : string) :
  endswith x s =
  String.eqb x s ||
  match x with
  | EmptyString => false
  | String _ x' => endswith x' s
  end.
Proof. by destruct x. Qed.

Lemma endswith_spec (x s : string) :
  endswith x s = true ↔ ∃ r, x = r +:+ s.
Proof.
  split.
  - induction x as [|a x IHx]; rewrite endswith_unfold; intros Hx.
    + rewrite orb_false_r in Hx. apply String.eqb_eq in Hx as <-. by exists "".
    + apply orb_true_iff in Hx as [Hx|Hx].
      * apply String.eqb_eq in Hx as <-. by exists "".
      * destruct (IHx Hx) as [r ->]. by exists (String a r).
  - intros [r ->]. induction r as [|a r IHr].
    + rewrite endswith_unfold. by rewrite String.eqb_refl.
    + change (String a r +:+ s) with (String a (r +:+ s)).
      rewrite endswith_unfold. cbv beta iota. by rewrite IHr, orb_true_r.
Qed.

(** The best file is never selected, whatever the suffix. *)
Lemma selected_best (suffix r : string) :
  selected suffix ("best" +:+ r) = false.
Proof.
  unfold selected. rewrite (startswith_app "best" r). apply andb_false_r.
Qed.

(** * Properties of the sort *)

Lemma insert_by_epoch_perm c l : insert_by_epoch c l ≡ₚ c :: l.
Proof.
  induction l as [|c' l IHl]; simpl; [done|].
  destruct (c.2 <=? c'.2)%Z; [done|]. by rewrite IHl, Permutation_swap.
Qed.

Lemma sort_by_epoch_perm l : sort_by_epoch l ≡ₚ l.
Proof.
  induction l as [|c l IHl]; simpl; [done|].
  by rewrite insert_by_epoch_perm, IHl.
Qed.

Lemma insert_by_epoch_sorted c l :
  Sorted epoch_le l → Sorted epoch_le (insert_by_epoch c l).
Proof.
  induction 1 as [|c' l Hl IHl Hhd]; simpl; [by repeat constructor|].
  destruct (Z.leb_spec c.2 c'.2) as [Hle|Hlt].
  - constructor; [by constructor|]. by constructor.
  - constructor; [done|].
    destruct Hhd as [|c'' l' Hc'']; simpl.
    + constructor. unfold epoch_le. lia.
    + destruct (c.2 <=? c''.2)%Z; constructor; [unfold epoch_le; lia|done].
Qed.

Lemma sort_by_epoch_sorted l : Sorted epoch_le (sort_by_epoch l).
Proof.
  induction l as [|c l IHl]; simpl; [constructor|].
  by apply insert_by_epoch_sorted.
Qed.

Global Instance epoch_le_trans : Transitive epoch_le.
Proof. unfold epoch_le. intros a b c; lia. Qed.

(** * Properties of the listing *)

Lemma scan_names_ok suffix (names : list string) ckpts :
  (∀ x, x ∈ names → ¬ unreadable suffix x) →
  scan_names suffix names ckpts = inr (ckpts ++ omap (entry suffix) names).
Proof.
  revert ckpts. induction names as [|x names IHn]; intros ckpts Hall; simpl.
  - by rewrite app_nil_r.
  - assert (Hx : ¬ unreadable suffix x) by (apply Hall; left).
    assert (Hn : ∀ y, y ∈ names → ¬ unreadable suffix y)
      by (intros y Hy; apply Hall; by right).
    unfold entry, unreadable in *.
    destruct (selected suffix x); [|by apply IHn].
    destruct (epoch_of suffix x) as [n|]; [|by destruct Hx].
    simpl. rewrite IHn by done. by rewrite <-app_assoc.
Qed.

Lemma scan_names_raises suffix (names : list string) ckpts x :
  x ∈ names → unreadable suffix x →
  scan_names suffix names ckpts = inl ValueError.
Proof.
  revert ckpts. induction names as [|y names IHn]; intros ckpts Hx Hbad.
  - by apply elem_of_nil in Hx.
  - simpl.
    destruct (selected suffix y) eqn:Hs;
      [destruct (epoch_of suffix y) eqn:He; [|done]|];
      (apply IHn; [|done]; apply elem_of_cons in Hx as [->|Hx]; [|done];
       destruct Hbad; congruence).
Qed.

Lemma entry_Some suffix x c :
  entry suffix x = Some c ↔
  c.1 = x ∧ selected suffix x = true ∧ epoch_of suffix x = Some c.2.
Proof.
  unfold entry. destruct c as [y n]; simpl.
  destruct (selected suffix x); [|split; [done|by intros (_ & ? & _)]].
  destruct (epoch_of suffix x) as [m|]; simpl; split.
  - by intros [= <- <-].
  - by intros (-> & _ & [= ->]).
  - done.
  - by intros (_ & _ & ?).
Qed.

Lemma elem_of_entries suffix (names : list string) x n :
  (x, n) ∈ omap (entry suffix) names ↔
  x ∈ names ∧ selected suffix x = true ∧ epoch_of suffix x = Some n.
Proof.
  rewrite list_elem_of_omap. split.
  - intros (y & Hy & He). apply entry_Some in He as (<- & ? & ?). done.
  - intros (Hx & Hs & He). exists x. split; [done|].
    by apply entry_Some.
Qed.

Lemma entries_sublist suffix (names : list string) :
  (omap (entry suffix) names).*1 `sublist_of` names.
Proof.
  induction names as [|x names IHn]; simpl; [done|].
  destruct (entry suffix x) as [c|] eqn:He; simpl.
  - apply entry_Some in He as (-> & _). by constructor.
  - by constructor.
Qed.

Lemma namelist_of_ok suffix (names : list string) :
  (∀ x, x ∈ names → ¬ unreadable suffix x) →
  namelist_of names suffix = inr (sort_by_epoch (omap (entry suffix) names)).
Proof.
  intros Hall. unfold namelist_of. rewrite scan_names_ok by done. simpl.
  by destruct (omap (entry suffix) names).
Qed.

Lemma namelist_of_raises suffix (names : list string) x :
  x ∈ names → unreadable suffix x → namelist_of names suffix = inl ValueError.
Proof.
  intros Hx Hbad. unfold namelist_of.
  by rewrite (scan_names_raises suffix names [] x).
Qed.

(** The listing either has an unreadable name, and the call raises, or the
    call returns the sorted entries. *)
Lemma namelist_of_cases suffix (names : list string) :
  (∃ x, x ∈ names ∧ unreadable suffix x ∧
        namelist_of names suffix = inl ValueError) ∨
  ((∀ x, x ∈ names → ¬ unreadable suffix x) ∧
   namelist_of names suffix = inr (sort_by_epoch (omap (entry suffix) names))).
Proof.
  destruct (decide (Exists (unreadable suffix) names)) as [Hex|Hno].
  - left. apply Exists_exists in Hex as (x & Hx & Hbad).
    exists x. eauto using namelist_of_raises.
  - right. apply not_Exists_Forall in Hno; [|apply _].
    rewrite Forall_forall in Hno.
    split; [done|]. by apply namelist_of_ok.
Qed.

Section listing_facts.
Context {B : Type}.
Implicit Types w : ckptdir B.

Lemma elem_of_listing w x : x ∈ listing w ↔ is_Some (files w !! x).
Proof.
  unfold listing. rewrite list_elem_of_fmap. split.
  - intros ([y b] & -> & Hy). apply elem_of_map_to_list in Hy. by exists b.
  - intros [b Hb]. exists (x, b). split; [done|]. by apply elem_of_map_to_list.
Qed.

Lemma NoDup_listing w : NoDup (listing w).
Proof. apply NoDup_fst_map_to_list. Qed.

Lemma fetch_ckpt_namelist_unfold suffix w :
  fetch_ckpt_namelist suffix w = (w, namelist_of (listing w) suffix).
Proof.
  unfold fetch_ckpt_namelist, io_bind, os_listdir.
  by destruct (namelist_of (listing w) suffix).
Qed.

End listing_facts.

(** The listing of the example, from a listing in this order. *)
Example namelist_of_example :
  namelist_of ["2_checkpoint.pt"; "10_checkpoint.pt"; "best_checkpoint.pt";
               "5_checkpoint.pt"] "_checkpoint.pt"
  = inr [("2_checkpoint.pt", 2%Z); ("5_checkpoint.pt", 5%Z);
         ("10_checkpoint.pt", 10%Z)].
Proof. vm_compute. reflexivity. Qed.

(** Runs the listing of a given directory. *)
Ltac run_listing :=
  rewrite fetch_ckpt_namelist_unfold; apply f_equal; vm_compute; reflexivity.

Lemma selected_true suffix x :
  selected suffix x = true ↔
  endswith x suffix = true ∧ startswith x "best" = false.
Proof. unfold selected. by rewrite andb_true_iff, negb_true_iff. Qed.

(** C3 (as amended): when a number is read from every name of the
    directory that ends in the suffix and does not start with [best],
    [fetch_ckpt_namelist] returns the pairs of exactly these names with their
    numbers, each name once, in ascending order of the numbers, and the empty
    list when there is no such name; on the four files of the example it
    returns the three numbered ones in the order 2, 5, 10. *)
Theorem fetch_ckpt_namelist_sorted {B : Type} :
  (∀ (w : ckptdir B) (suffix : string),
     (∀ x, is_Some (files w !! x) → ¬ unreadable suffix x) →
     ∃ ckpts, fetch_ckpt_namelist suffix w = (w, inr ckpts) ∧
       Sorted epoch_le ckpts ∧
       NoDup ckpts.*1 ∧
       (∀ x n, (x, n) ∈ ckpts ↔
          is_Some (files w !! x) ∧ endswith x suffix = true ∧
          startswith x "best" = false ∧ epoch_of suffix x = Some n) ∧
       ((∀ x, is_Some (files w !! x) → selected suffix x = false) →
        ckpts = [])) ∧
  (∀ (b2 b10 bbest b5 : B) evs,
     let w := Ckptdir {[ "2_checkpoint.pt" := b2; "10_checkpoint.pt" := b10;
                         "best_checkpoint.pt" := bbest;
                         "5_checkpoint.pt" := b5 ]} evs in
     fetch_ckpt_namelist "_checkpoint.pt" w =
     (w, inr [("2_checkpoint.pt", 2%Z); ("5_checkpoint.pt", 5%Z);
              ("10_checkpoint.pt", 10%Z)])).
Proof.
  split.
  - intros w suffix Hall.
    exists (sort_by_epoch (omap (entry suffix) (listing w))).
    split; [|split; [|split; [|split]]].
    + rewrite fetch_ckpt_namelist_unfold, namelist_of_ok; [done|].
      intros x Hx. by apply Hall, elem_of_listing.
    + apply sort_by_epoch_sorted.
    + rewrite sort_by_epoch_perm.
      apply (sublist_NoDup _ (listing w));
        [apply NoDup_listing|apply entries_sublist].
    + intros x n.
      rewrite sort_by_epoch_perm, elem_of_entries, elem_of_listing.
      rewrite selected_true. tauto.
    + intros Hnone.
      assert (Hnil : omap (entry suffix) (listing w) = []); [|by rewrite Hnil].
      apply elem_of_nil_inv. intros [x n] Hin.
      apply elem_of_entries in Hin as (Hx & Hs & _).
      apply elem_of_listing in Hx. rewrite (Hnone x Hx) in Hs. done.
  - intros b2 b10 bbest b5 evs w.
    run_listing.
Qed.

Lemma fetch_ckpt_namelist_sorted_witness :
  let w := dir_of ["3_checkpoint.pt"; "best_checkpoint.pt"; "notes.txt";
                   "-1_checkpoint.pt"; " 12_checkpoint.pt"] tt in
  fetch_ckpt_namelist "_checkpoint.pt" w =
  (w, inr [("-1_checkpoint.pt", (-1)%Z); ("3_checkpoint.pt", 3%Z);
           (" 12_checkpoint.pt", 12%Z)]) ∧
  ∃ ckpts, fetch_ckpt_namelist "_checkpoint.pt" w = (w, inr ckpts) ∧
    Sorted epoch_le ckpts.
Proof.
  intros w. split.
  - run_listing.
  - destruct (proj1 fetch_ckpt_namelist_sorted w "_checkpoint.pt")
      as (ckpts & Hrun & Hsorted & _).
    + intros x Hx. apply elem_of_listing in Hx.
      assert (Hall : Forall (λ x, ¬ unreadable "_checkpoint.pt" x) (listing w)).
      { vm_compute listing. repeat constructor; intros [Hs He];
          vm_compute in Hs; vm_compute in He; discriminate. }
      by apply (proj1 (Forall_forall _ _) Hall).
    + exists ckpts. split; [exact Hrun|exact Hsorted].
Defined.

(** C3 fails as stated: a name that ends in the suffix and starts with
    [best] is not the best file, and it is not listed. *)
Lemma fetch_ckpt_namelist_sorted_counterexample :
  let w := dir_of ["best1_checkpoint.pt"; "1_checkpoint.pt"] tt in
  is_Some (files w !! "best1_checkpoint.pt") ∧
  endswith "best1_checkpoint.pt" "_checkpoint.pt" = true ∧
  "best1_checkpoint.pt" ≠ "best" +:+ "_checkpoint.pt" ∧
  fetch_ckpt_namelist "_checkpoint.pt" w = (w, inr [("1_checkpoint.pt", 1%Z)]).
Proof.
  intros w. split; [|split; [|split]].
  - exists tt. vm_compute. reflexivity.
  - vm_compute. reflexivity.
  - discriminate.
  - run_listing.
Qed.




(** * Properties of [get_last_ckpt] *)

Section get_last_ckpt_facts.
Context {Loss MS OS SS Device : Type}.
Local Abbreviation ckpt := (@ckptdict Loss MS OS SS).
Implicit Types w : ckptdir ckpt.

(** The second half of [get_last_ckpt]: the best file is read when it
    exists. *)
Lemma read_best (suffix : string) (last_ck : option ckpt) w :
  (let* has_best := os_path_exists ("best" +:+ suffix) in
   let* best_ck :=
     (if has_best : bool
      then let* c := torch_load ("best" +:+ suffix) in io_ret (Some c)
      else io_ret None) in
   io_ret (LastBest last_ck best_ck)) w
  = (w, inr (LastBest last_ck (files w !! ("best" +:+ suffix)))).
Proof.
  unfold io_bind, os_path_exists, torch_load, io_ret.
  destruct (files w !! ("best" +:+ suffix)) as [c|] eqn:Hb.
  - rewrite bool_decide_eq_true_2 by eauto. by rewrite Hb.
  - rewrite bool_decide_eq_false_2; [done|]. by intros [? ?].
Qed.

(** C6: with [specify], [get_last_ckpt] reads the file named by
    [specify] followed by the suffix as the last checkpoint, and raises
    [FileNotFoundError] when the directory has no file of that name,
    whatever other files it has. *)
Theorem get_last_ckpt_specified (device : Device) (suffix : string)
    (sp : specifier) w :
  (∀ c, files w !! (py_format sp +:+ suffix) = Some c →
     get_last_ckpt device suffix (Some sp) w =
     (w, inr (LastBest (Some c) (files w !! ("best" +:+ suffix))))) ∧
  (files w !! (py_format sp +:+ suffix) = None →
     get_last_ckpt device suffix (Some sp) w = (w, inl FileNotFoundError)).
Proof.
  split.
  - intros c Hc. unfold get_last_ckpt.
    unfold io_bind at 1. unfold io_bind at 1. unfold torch_load at 1.
    rewrite Hc. unfold io_ret at 1. apply read_best.
  - intros Hc. unfold get_last_ckpt.
    unfold io_bind at 1. unfold io_bind at 1. unfold torch_load at 1.
    by rewrite Hc.
Qed.

(** C7: without [specify], on a directory with no numbered checkpoint
    file (none of its names ends in the suffix without starting with
    [best]), [get_last_ckpt] returns without raising, with no last
    checkpoint and with the best checkpoint exactly when the best file
    exists; on the empty directory both are absent.  Whenever the call
    returns, the best checkpoint is the content of the best file, if there
    is one. *)
Theorem get_last_ckpt_no_checkpoints (device : Device) (suffix : string) w :
  ((∀ x, is_Some (files w !! x) → selected suffix x = false) →
   get_last_ckpt device suffix None w =
   (w, inr (LastBest None (files w !! ("best" +:+ suffix))))) ∧
  (files w = ∅ →
   get_last_ckpt device suffix None w = (w, inr (LastBest None None))) ∧
  (∀ specify r, (get_last_ckpt device suffix specify w).2 = inr r →
     best_ckpt r = files w !! ("best" +:+ suffix)).
Proof.
  assert (Hbest : ∀ specify r,
    (get_last_ckpt device suffix specify w).2 = inr r →
    best_ckpt r = files w !! ("best" +:+ suffix)).
  { intros specify r. unfold get_last_ckpt.
    unfold io_bind at 1. destruct specify as [sp|].
    - unfold io_bind at 1. unfold torch_load at 1.
      destruct (files w !! (py_format sp +:+ suffix)); [|done].
      unfold io_ret at 1. rewrite read_best. by intros [= <-].
    - unfold io_bind at 1. rewrite fetch_ckpt_namelist_unfold.
      destruct (namelist_of (listing w) suffix) as [e|ckpts]; [done|].
      destruct (last ckpts) as [c|].
      + unfold io_bind at 1. unfold torch_load at 1.
        destruct (files w !! c.1); [|done].
        unfold io_ret at 1. rewrite read_best. by intros [= <-].
      + unfold io_ret at 1. rewrite read_best. by intros [= <-]. }
  assert (Hgen : (∀ x, is_Some (files w !! x) → selected suffix x = false) →
    get_last_ckpt device suffix None w =
    (w, inr (LastBest None (files w !! ("best" +:+ suffix))))).
  { intros Hnone. unfold get_last_ckpt.
    unfold io_bind at 1. unfold io_bind at 1.
    rewrite fetch_ckpt_namelist_unfold.
    assert (Hnil : omap (entry suffix) (listing w) = []).
    { apply elem_of_nil_inv. intros [x n] Hin.
      apply elem_of_entries in Hin as (Hx & Hs & _).
      apply elem_of_listing in Hx. rewrite (Hnone x Hx) in Hs. done. }
    rewrite namelist_of_ok, Hnil.
    - simpl. unfold io_ret at 1. apply read_best.
    - intros x Hx [Hs _]. apply elem_of_listing in Hx.
      rewrite (Hnone x Hx) in Hs. done. }
  split; [done|]. split; [|done]. intros Hempty. rewrite Hgen.
  - by rewrite Hempty, lookup_empty.
  - intros x. rewrite Hempty, lookup_empty. by intros [? ?].
Qed.

End get_last_ckpt_facts.

Lemma get_last_ckpt_specified_witness :
  get_last_ckpt tt "_checkpoint.pt" (Some (SpecInt 5)) (sample_dir [3; 5]%Z)
  = (sample_dir [3; 5]%Z, inr (LastBest (Some (sample_ckpt 5)) None)) ∧
  get_last_ckpt tt "_checkpoint.pt" (Some (SpecInt 7)) (sample_dir [3; 5]%Z)
  = (sample_dir [3; 5]%Z, inl FileNotFoundError).
Proof.
  split.
  - apply (proj1 (get_last_ckpt_specified tt "_checkpoint.pt" (SpecInt 5)
                    (sample_dir [3; 5]%Z)) (sample_ckpt 5)).
    vm_compute. reflexivity.
  - apply (proj2 (get_last_ckpt_specified tt "_checkpoint.pt" (SpecInt 7)
                    (sample_dir [3; 5]%Z))).
    vm_compute. reflexivity.
Defined.

Lemma listing_Forall {B : Type} (P : string → Prop) (w : ckptdir B) :
  Forall P (listing w) → ∀ x, is_Some (files w !! x) → P x.
Proof.
  rewrite Forall_forall. intros Hall x Hx. by apply Hall, elem_of_listing.
Qed.

Lemma get_last_ckpt_no_checkpoints_witness :
  let w := Ckptdir {[ "best_checkpoint.pt" := sample_ckpt 4;
                      "log.txt" := sample_ckpt 0 ]} [] in
  get_last_ckpt tt "_checkpoint.pt" None w
  = (w, inr (LastBest None (Some (sample_ckpt 4)))) ∧
  get_last_ckpt tt "_checkpoint.pt" None (sample_dir [])
  = (sample_dir [], inr (LastBest None None)).
Proof.
  intros w. split.
  - apply (proj1 (get_last_ckpt_no_checkpoints tt "_checkpoint.pt" w)).
    apply listing_Forall. vm_compute listing.
    repeat constructor; vm_compute; reflexivity.
  - apply (proj1 (proj2 (get_last_ckpt_no_checkpoints tt "_checkpoint.pt"
                           (sample_dir [])))).
    vm_compute. reflexivity.
Defined.

(** * Properties of the rotation *)

Section rotation_facts.
Context {B : Type}.
Implicit Types (w : ckptdir B) (d : gmap string B).

Lemma lookup_remove_all names d x :
  remove_all names d !! x = if decide (x ∈ names) then None else d !! x.
Proof.
  unfold remove_all. revert d.
  induction names as [|y names IHn]; intros d; cbn [foldl].
  - destruct (decide (x ∈ [])) as [Hin|_]; [by apply elem_of_nil in Hin|done].
  - rewrite IHn. destruct (decide (x ∈ names)) as [Hin|Hout].
    + rewrite decide_True; [done|]. by right.
    + rewrite lookup_delete. destruct (decide (y = x)) as [->|Hne].
      * rewrite decide_True; [done|]. by left.
      * rewrite decide_False; [done|].
        rewrite elem_of_cons. intros [->|?]; done.
Qed.

Lemma remove_all_replay names d :
  replay (EvRemove <$> names) d = remove_all names d.
Proof.
  unfold replay, remove_all. revert d.
  induction names as [|y names IHn]; intros d; simpl; [done|]. apply IHn.
Qed.

(** The loop of deletions, on names that are all there and all different,
    deletes every one of them and raises nothing. *)
Lemma io_for_remove (dels : list (string * Z)) w :
  NoDup dels.*1 →
  (∀ x, x ∈ dels.*1 → is_Some (files w !! x)) →
  io_for dels (λ c, os_remove c.1) w =
  (Ckptdir (remove_all dels.*1 (files w))
           (events w ++ (EvRemove <$> dels.*1)), inr tt).
Proof.
  revert w. induction dels as [|c dels IHd]; intros [fs evs] Hnd Hin; simpl.
  - by rewrite app_nil_r.
  - apply NoDup_cons in Hnd as [Hc Hnd].
    destruct (Hin c.1) as [b Hb]; [by left|]. simpl in Hb.
    unfold io_bind at 1. unfold os_remove at 1. simpl. rewrite Hb.
    rewrite IHd; simpl.
    + by rewrite <-app_assoc.
    + done.
    + intros x Hx. rewrite lookup_delete_ne.
      * apply (Hin x). by right.
      * intros Heq. apply Hc. by rewrite Heq.
Qed.

End rotation_facts.

Lemma namelist_of_inr suffix (names : list string) ckpts :
  namelist_of names suffix = inr ckpts →
  ckpts = sort_by_epoch (omap (entry suffix) names) ∧
  ∀ x, x ∈ names → ¬ unreadable suffix x.
Proof.
  intros Hrun.
  destruct (namelist_of_cases suffix names) as [(x & _ & _ & Hx)|[Hall Hok]].
  - congruence.
  - split; [congruence|done].
Qed.

Lemma namelist_of_names suffix (names : list string) ckpts :
  NoDup names → namelist_of names suffix = inr ckpts →
  NoDup ckpts.*1 ∧ ∀ x, x ∈ ckpts.*1 → x ∈ names.
Proof.
  intros Hnd Hrun. apply namelist_of_inr in Hrun as [-> _].
  rewrite sort_by_epoch_perm.
  pose proof (entries_sublist suffix names) as Hsub. split.
  - by apply (sublist_NoDup _ names).
  - intros x Hx. rewrite sort_by_epoch_perm in Hx.
    by apply (elem_of_sublist _ _ _ Hx Hsub).
Qed.

Lemma rotated_out_take (ckpts : list (string * Z)) (max_to_keep : Z) :
  rotated_out ckpts max_to_keep =
  take (Z.to_nat (Z.of_nat (length ckpts) - max_to_keep)) ckpts.
Proof.
  unfold rotated_out, py_slice_to.
  destruct (Z.gtb_spec (Z.of_nat (length ckpts)) max_to_keep) as [Hgt|Hle].
  - destruct (Z.ltb_spec (Z.of_nat (length ckpts) - max_to_keep) 0); [lia|done].
  - by replace (Z.to_nat (Z.of_nat (length ckpts) - max_to_keep)) with 0%nat
      by lia.
Qed.

Section save_facts.
Context {Loss MS OS SS Model Optimizer Scheduler : Type}.
Context `{!StateExport Model MS, !StateExport Optimizer OS,
          !StateExport Scheduler SS}.
Local Abbreviation ckpt := (@ckptdict Loss MS OS SS).
Implicit Types w : ckptdir ckpt.

Local Abbreviation call := (@save_call Loss Model Optimizer Scheduler).
Implicit Types c : call.

(** When the listing raises, the new file is written and nothing is
    deleted. *)
Lemma save_ckpt_raise suffix (max_to_keep : Z) c w e :
  let w1 := written (record_of c) (sc_prefix c +:+ suffix) w in
  namelist_of (listing w1) suffix = inl e →
  save_call_run suffix max_to_keep c w = (w1, inl e).
Proof.
  intros w1 Hrun. unfold save_call_run, save_ckpt.
  unfold io_bind at 1. unfold torch_save at 1. unfold io_bind at 1.
  rewrite fetch_ckpt_namelist_unfold.
  unfold w1, written, torch_save, record_of in Hrun. simpl in Hrun.
  by rewrite Hrun.
Qed.

(** When the listing returns [ckpts], the call returns the record; it has
    written the new file and then deleted the files of
    [rotated_out ckpts max_to_keep], in this order. *)
Lemma save_ckpt_run suffix (max_to_keep : Z) c w ckpts :
  let w1 := written (record_of c) (sc_prefix c +:+ suffix) w in
  namelist_of (listing w1) suffix = inr ckpts →
  save_call_run suffix max_to_keep c w =
  (Ckptdir (remove_all (rotated_out ckpts max_to_keep).*1 (files w1))
           (events w1 ++ (EvRemove <$> (rotated_out ckpts max_to_keep).*1)),
   inr (record_of c)).
Proof.
  intros w1 Hrun. unfold save_call_run, save_ckpt.
  unfold io_bind at 1. unfold torch_save at 1. unfold io_bind at 1.
  rewrite fetch_ckpt_namelist_unfold.
  pose proof (namelist_of_names _ _ _ (NoDup_listing _) Hrun) as [Hnd Hin].
  unfold w1, written, torch_save, record_of in *. simpl in *. rewrite Hrun.
  pose proof (rotated_out_take ckpts max_to_keep) as Ht.
  unfold io_bind at 1. unfold rotated_out in *.
  destruct (Z.of_nat (length ckpts) >? max_to_keep)%Z eqn:Hgt.
  - rewrite io_for_remove.
    + done.
    + rewrite Ht, fmap_take. apply (sublist_NoDup _ ckpts.*1); [done|].
      apply sublist_take.
    + intros x Hx. simpl. rewrite Ht in Hx.
      rewrite fmap_take in Hx. apply elem_of_take in Hx as (i & Hi & _).
      apply list_elem_of_lookup_2, Hin in Hi.
      by apply elem_of_listing in Hi.
  - simpl. by rewrite app_nil_r.
Qed.

End save_facts.

Section rotation_listing.
Context {B : Type}.

Lemma elem_of_namelist suffix (w : ckptdir B) ckpts x n :
  namelist_of (listing w) suffix = inr ckpts →
  (x, n) ∈ ckpts ↔
  is_Some (files w !! x) ∧ selected suffix x = true ∧
  epoch_of suffix x = Some n.
Proof.
  intros Hrun. apply namelist_of_inr in Hrun as [-> _].
  by rewrite sort_by_epoch_perm, elem_of_entries, elem_of_listing.
Qed.

Lemma NoDup_entries suffix (names : list string) :
  NoDup names → NoDup (omap (entry suffix) names).
Proof.
  intros Hnd. apply (NoDup_fmap_1 fst).
  apply (sublist_NoDup _ names); [done|apply entries_sublist].
Qed.

(** The listing of the directory from which the first [k] files of the
    listing [ckpts] are deleted has the other files of [ckpts], in
    ascending order. *)
Lemma namelist_after_rotation suffix (w w' : ckptdir B) ckpts k :
  namelist_of (listing w) suffix = inr ckpts →
  files w' = remove_all (take k ckpts).*1 (files w) →
  ∃ kept, namelist_of (listing w') suffix = inr kept ∧
    kept ≡ₚ drop k ckpts ∧ Sorted epoch_le kept.
Proof.
  intros Hrun Hfiles.
  pose proof (namelist_of_names _ _ _ (NoDup_listing w) Hrun) as [Hnd _].
  pose proof (namelist_of_inr _ _ _ Hrun) as [_ Hall].
  assert (Hlk : ∀ x, is_Some (files w' !! x) ↔
                     (x ∉ (take k ckpts).*1) ∧ is_Some (files w !! x)).
  { intros x. rewrite Hfiles, lookup_remove_all.
    destruct (decide (x ∈ (take k ckpts).*1)); [|tauto].
    split; [by intros [? ?]|tauto]. }
  exists (sort_by_epoch (omap (entry suffix) (listing w'))).
  split; [|split; [|apply sort_by_epoch_sorted]].
  - apply namelist_of_ok. intros x Hx. apply Hall.
    apply elem_of_listing. apply elem_of_listing in Hx. by apply Hlk.
  - rewrite sort_by_epoch_perm. apply NoDup_Permutation.
    + apply NoDup_entries, NoDup_listing.
    + apply (sublist_NoDup _ ckpts); [|apply sublist_drop].
      by apply (NoDup_fmap_1 fst).
    + intros [x n]. rewrite elem_of_entries, elem_of_listing, Hlk.
      rewrite <-(take_drop k ckpts) in Hnd.
      rewrite fmap_app in Hnd. apply NoDup_app in Hnd as (_ & Hdisj & _).
      split.
      * intros ((Hout & Hx) & Hs & He).
        assert (Hin : (x, n) ∈ ckpts)
          by (by apply (elem_of_namelist suffix w)).
        rewrite <-(take_drop k ckpts) in Hin.
        apply elem_of_app in Hin as [Hin|Hin]; [|done].
        destruct Hout. by apply (list_elem_of_fmap_2 fst) in Hin.
      * intros Hin.
        assert (Hc : (x, n) ∈ ckpts).
        { rewrite <-(take_drop k ckpts). apply elem_of_app. by right. }
        apply (elem_of_namelist suffix w) in Hc as (Hx & Hs & He); [|done].
        split; [split|]; [|done..].
        intros Hout. apply (Hdisj x Hout).
        by apply (list_elem_of_fmap_2 fst) in Hin.
Qed.

End rotation_listing.

(** * Listings without ties *)

Lemma ascending_sorted l : ascending l → StronglySorted epoch_le l.
Proof.
  unfold ascending. induction 1 as [|c l Hl IHl Hc]; constructor; [done|].
  eapply Forall_impl; [exact Hc|]. unfold epoch_lt, epoch_le. intros; lia.
Qed.

Lemma ascending_inj l a b :
  ascending l → a ∈ l → b ∈ l → a.2 = b.2 → a = b.
Proof.
  unfold ascending. induction 1 as [|c l Hl IHl Hc]; intros Ha Hb Hab.
  - by apply elem_of_nil in Ha.
  - rewrite Forall_forall in Hc. unfold epoch_lt in Hc.
    apply elem_of_cons in Ha as [->|Ha]; apply elem_of_cons in Hb as [->|Hb].
    + done.
    + specialize (Hc b Hb). lia.
    + specialize (Hc a Ha). lia.
    + by apply IHl.
Qed.

(** A listing without ties is determined by its entries. *)
Lemma sorted_ascending_unique l l' :
  ascending l → Sorted epoch_le l' → l' ≡ₚ l → l' = l.
Proof.
  intros Hl Hl' Hperm.
  apply (StronglySorted_unique_strong epoch_le); [| |by apply ascending_sorted|done].
  - intros a b Ha Hb Hab Hba. apply (ascending_inj l); [done| |done|].
    + by rewrite <-Hperm.
    + unfold epoch_le in *. lia.
  - by apply Sorted_StronglySorted; [apply _|].
Qed.

Lemma ascending_drop k l : ascending l → ascending (drop k l).
Proof.
  unfold ascending. intros Hl. rewrite <-(take_drop k l) in Hl.
  by apply StronglySorted_app_1_r in Hl.
Qed.

Lemma ascending_snoc l c :
  ascending l → (∀ a, a ∈ l → (a.2 < c.2)%Z) → ascending (l ++ [c]).
Proof.
  intros Hl Hc. apply StronglySorted_app_2; [|done|by repeat constructor].
  intros a b Ha Hb. apply list_elem_of_singleton in Hb as ->. by apply Hc.
Qed.

Section step_facts.
Context {B : Type}.

(** Writing a file whose number is above all listed ones puts it at the
    end of the listing. *)
Lemma namelist_after_write suffix (w w' : ckptdir B) l name e content :
  namelist_of (listing w) suffix = inr l →
  ascending l →
  selected suffix name = true → epoch_of suffix name = Some e →
  (∀ a, a ∈ l → (a.2 < e)%Z) →
  files w' = <[name := content]> (files w) →
  namelist_of (listing w') suffix = inr (l ++ [(name, e)]).
Proof.
  intros Hrun Hasc Hs He Hlt Hfiles.
  assert (Hfresh : files w !! name = None).
  { destruct (files w !! name) as [b|] eqn:Hb; [|done].
    assert (Hin : (name, e) ∈ l).
    { apply (elem_of_namelist suffix w); [done|]. eauto. }
    specialize (Hlt _ Hin). simpl in Hlt. lia. }
  assert (Hlist : listing w' ≡ₚ name :: listing w).
  { unfold listing. rewrite Hfiles, map_to_list_insert by done. done. }
  pose proof (namelist_of_inr _ _ _ Hrun) as [Hl Hall].
  rewrite namelist_of_ok.
  - f_equal. apply sorted_ascending_unique.
    + apply ascending_snoc; [done|]. intros a Ha. by apply Hlt.
    + apply sort_by_epoch_sorted.
    + rewrite sort_by_epoch_perm, Hlist. simpl.
      unfold entry at 1. rewrite Hs, He. simpl.
      rewrite <-Permutation_cons_append. apply Permutation_skip.
      by rewrite Hl, sort_by_epoch_perm.
  - intros x Hx. rewrite Hlist in Hx.
    apply elem_of_cons in Hx as [->|Hx]; [|by apply Hall].
    intros [_ Hbad]. congruence.
Qed.

End step_facts.

Section save_rotation.
Context {Loss MS OS SS Model Optimizer Scheduler : Type}.
Context `{!StateExport Model MS, !StateExport Optimizer OS,
          !StateExport Scheduler SS}.
Local Abbreviation ckpt := (@ckptdict Loss MS OS SS).
Local Abbreviation call := (@save_call Loss Model Optimizer Scheduler).
Implicit Types (w : ckptdir ckpt) (c : call).

(** One call whose listing succeeds, with [max_to_keep] not negative: the
    first files of the listing are deleted, and the last [max_to_keep] are
    listed afterwards. *)
Lemma save_call_rotation suffix (max_to_keep : Z) c w ckpts :
  let name := sc_prefix c +:+ suffix in
  let w1 := written (record_of c) name w in
  let k := (length ckpts - Z.to_nat max_to_keep)%nat in
  (0 ≤ max_to_keep)%Z →
  fetch_ckpt_namelist suffix w1 = (w1, inr ckpts) →
  ∃ w2, save_call_run suffix max_to_keep c w = (w2, inr (record_of c)) ∧
    files w2 = remove_all (take k ckpts).*1 (files w1) ∧
    ((Z.of_nat (length ckpts) ≤ max_to_keep)%Z → files w2 = files w1) ∧
    (∃ kept, fetch_ckpt_namelist suffix w2 = (w2, inr kept) ∧
       kept ≡ₚ drop k ckpts ∧ Sorted epoch_le kept ∧
       ((max_to_keep < Z.of_nat (length ckpts))%Z →
        Z.of_nat (length kept) = max_to_keep) ∧
       (∀ a b, a ∈ take k ckpts → b ∈ kept → (a.2 ≤ b.2)%Z)) ∧
    (∀ x, startswith x "best" = true → files w2 !! x = files w1 !! x).
Proof.
  intros name w1 k Hmax Hfetch.
  rewrite fetch_ckpt_namelist_unfold in Hfetch.
  assert (Hrun : namelist_of (listing w1) suffix = inr ckpts) by congruence.
  clear Hfetch.
  assert (Hk : Z.to_nat (Z.of_nat (length ckpts) - max_to_keep) = k)
    by (unfold k; lia).
  eexists. split; [|split; [|split; [|split]]].
  - rewrite (save_ckpt_run suffix max_to_keep c w ckpts) by exact Hrun.
    reflexivity.
  - simpl. by rewrite rotated_out_take, Hk.
  - intros Hle. simpl. rewrite rotated_out_take, Hk.
    by replace k with 0%nat by (unfold k; lia).
  - destruct (namelist_after_rotation suffix w1
      (Ckptdir (remove_all (rotated_out ckpts max_to_keep).*1 (files w1))
         (events w1 ++ (EvRemove <$> (rotated_out ckpts max_to_keep).*1)))
      ckpts k Hrun) as (kept & Hkept & Hperm & Hsorted).
    { simpl. by rewrite rotated_out_take, Hk. }
    exists kept. split; [|split; [done|split; [done|split]]].
    + rewrite fetch_ckpt_namelist_unfold. by f_equal.
    + intros Hlt. rewrite Hperm, length_drop. unfold k. lia.
    + intros a b Ha Hb. rewrite Hperm in Hb.
      apply namelist_of_inr in Hrun as [Hc _].
      pose proof (sort_by_epoch_sorted (omap (entry suffix) (listing w1)))
        as Hs%Sorted_StronglySorted; [|apply _].
      rewrite <-Hc, <-(take_drop k ckpts) in Hs.
      apply (StronglySorted_app_1_elem_of _ _ _ _ _ Hs Ha Hb).
  - intros x Hbest. simpl. rewrite lookup_remove_all.
    rewrite decide_False; [done|]. intros Hin.
    apply list_elem_of_fmap in Hin as ([y n] & -> & Hin).
    rewrite rotated_out_take in Hin.
    apply elem_of_take in Hin as (i & Hi & _).
    apply list_elem_of_lookup_2 in Hi.
    apply (elem_of_namelist suffix w1) in Hi as (_ & Hs & _); [|done].
    apply selected_true in Hs as [_ Hs].
    assert (Hy : startswith y "best" = true) by exact Hbest. congruence.
Qed.

(** One call of a loop with ascending numbers: the new file goes to the end
    of the listing, and the listing keeps its last [max_to_keep] entries. *)
Lemma save_call_step suffix (max_to_keep : Z) c e w l :
  let name := sc_prefix c +:+ suffix in
  let l1 := l ++ [(name, e)] in
  let k := (length l1 - Z.to_nat max_to_keep)%nat in
  (0 ≤ max_to_keep)%Z →
  namelist_of (listing w) suffix = inr l →
  ascending l →
  numbered_as suffix (sc_prefix c) e →
  (∀ a, a ∈ l → (a.2 < e)%Z) →
  ∃ w2, save_call_run suffix max_to_keep c w = (w2, inr (record_of c)) ∧
    files w2 = remove_all (take k l1).*1 (<[name := record_of c]> (files w)) ∧
    namelist_of (listing w2) suffix = inr (drop k l1).
Proof.
  intros name l1 k Hmax Hrun Hasc [Hs He] Hlt.
  assert (Hrun1 : namelist_of (listing (written (record_of c) name w)) suffix
                  = inr l1).
  { by apply (namelist_after_write suffix w _ l name e (record_of c)). }
  destruct (save_call_rotation suffix max_to_keep c w l1 Hmax)
    as (w2 & Hsave & Hfiles & _ & (kept & Hkept & Hperm & Hsorted & _) & _).
  { rewrite fetch_ckpt_namelist_unfold. by f_equal. }
  exists w2. split; [done|]. split; [done|].
  rewrite fetch_ckpt_namelist_unfold in Hkept.
  assert (Hk : namelist_of (listing w2) suffix = inr kept) by congruence.
  rewrite Hk. f_equal. apply sorted_ascending_unique; [|done..].
  apply ascending_drop, ascending_snoc; [done|]. intros a Ha. by apply Hlt.
Qed.

(** Whatever its outcome and whatever [max_to_keep], a call deletes no file
    whose name starts with [best]. *)
Lemma save_call_keeps_best suffix (max_to_keep : Z) c w x :
  startswith x "best" = true →
  files (save_call_run suffix max_to_keep c w).1 !! x
  = files (written (record_of c) (sc_prefix c +:+ suffix) w) !! x.
Proof.
  intros Hbest.
  destruct (namelist_of
              (listing (written (record_of c) (sc_prefix c +:+ suffix) w))
              suffix) as [e|ckpts] eqn:Hrun.
  - by rewrite (save_ckpt_raise suffix max_to_keep c w e Hrun).
  - rewrite (save_ckpt_run suffix max_to_keep c w ckpts Hrun). simpl.
    rewrite lookup_remove_all, decide_False; [done|]. intros Hin.
    apply list_elem_of_fmap in Hin as ([y n] & -> & Hin).
    rewrite rotated_out_take in Hin.
    apply elem_of_take in Hin as (i & Hi & _).
    apply list_elem_of_lookup_2 in Hi.
    apply (elem_of_namelist suffix _ _ _ _ Hrun) in Hi as (_ & Hs & _).
    apply selected_true in Hs as [_ Hs].
    assert (Hy : startswith y "best" = true) by exact Hbest. congruence.
Qed.

Lemma namelist_of_none suffix w :
  (∀ x, is_Some (files w !! x) → selected suffix x = false) →
  namelist_of (listing w) suffix = inr [].
Proof.
  intros Hnone.
  assert (Hnil : omap (entry suffix) (listing w) = []).
  { apply elem_of_nil_inv. intros [x n] Hin.
    apply elem_of_entries in Hin as (Hx & Hs & _).
    apply elem_of_listing in Hx. rewrite (Hnone x Hx) in Hs. done. }
  rewrite namelist_of_ok, Hnil; [done|].
  intros x Hx [Hs _]. apply elem_of_listing in Hx.
  rewrite (Hnone x Hx) in Hs. done.
Qed.

Lemma numbered_as_ne suffix p p' e e' :
  numbered_as suffix p e → numbered_as suffix p' e' → e ≠ e' →
  p +:+ suffix ≠ p' +:+ suffix.
Proof. intros [_ He] [_ He'] Hne Heq. rewrite Heq in He. congruence. Qed.

Lemma save_calls_cons suffix (max_to_keep : Z) c cs w w' r :
  save_call_run suffix max_to_keep c w = (w', inr r) →
  save_calls suffix max_to_keep (c :: cs) w
  = save_calls suffix max_to_keep cs w'.
Proof.
  intros Hrun. unfold save_calls. cbn [io_for].
  unfold io_bind at 1. unfold io_bind at 1. by rewrite Hrun.
Qed.

(** The side conditions of a step, and the lists of its outcome. *)
Local Ltac step_side :=
  first
    [ done
    | by repeat constructor; unfold epoch_lt; simpl; lia
    | intros ? Ha;
      repeat (apply elem_of_cons in Ha as [->|Ha]; [simpl; lia|]);
      by apply elem_of_nil in Ha ].

Local Ltac step_norm Hf Hl :=
  change (Z.to_nat 3) with 3%nat in Hf, Hl;
  cbn [length app drop take fmap list_fmap Nat.sub fst] in Hf, Hl;
  unfold remove_all in Hf; cbn [foldl] in Hf.

(** Five calls in a row with ascending numbers and [max_to_keep = 3], on a
    directory without numbered files: the files of the last three calls are
    listed, with their records, and those of the first two are gone. *)
Lemma five_saves suffix c1 c2 c3 c4 c5 (e1 e2 e3 e4 e5 : Z) w0 :
  (∀ x, is_Some (files w0 !! x) → selected suffix x = false) →
  numbered_as suffix (sc_prefix c1) e1 →
  numbered_as suffix (sc_prefix c2) e2 →
  numbered_as suffix (sc_prefix c3) e3 →
  numbered_as suffix (sc_prefix c4) e4 →
  numbered_as suffix (sc_prefix c5) e5 →
  (e1 < e2)%Z → (e2 < e3)%Z → (e3 < e4)%Z → (e4 < e5)%Z →
  ∃ w5, save_calls suffix 3 [c1; c2; c3; c4; c5] w0 = (w5, inr tt) ∧
    fetch_ckpt_namelist suffix w5 =
    (w5, inr [(sc_prefix c3 +:+ suffix, e3); (sc_prefix c4 +:+ suffix, e4);
              (sc_prefix c5 +:+ suffix, e5)]) ∧
    files w5 !! (sc_prefix c1 +:+ suffix) = None ∧
    files w5 !! (sc_prefix c2 +:+ suffix) = None ∧
    files w5 !! (sc_prefix c3 +:+ suffix) = Some (record_of c3) ∧
    files w5 !! (sc_prefix c4 +:+ suffix) = Some (record_of c4) ∧
    files w5 !! (sc_prefix c5 +:+ suffix) = Some (record_of c5).
Proof.
  intros Hnone H1 H2 H3 H4 H5 H12 H23 H34 H45.
  pose proof (namelist_of_none suffix w0 Hnone) as Hl0.
  assert (Hmax : (0 ≤ 3)%Z) by lia.
  destruct (save_call_step suffix 3 c1 e1 w0 [] Hmax Hl0)
    as (w1 & Hs1 & Hf1 & Hl1); [step_side..|]. step_norm Hf1 Hl1.
  destruct (save_call_step suffix 3 c2 e2 w1 _ Hmax Hl1)
    as (w2 & Hs2 & Hf2 & Hl2); [step_side..|]. step_norm Hf2 Hl2.
  destruct (save_call_step suffix 3 c3 e3 w2 _ Hmax Hl2)
    as (w3 & Hs3 & Hf3 & Hl3); [step_side..|]. step_norm Hf3 Hl3.
  destruct (save_call_step suffix 3 c4 e4 w3 _ Hmax Hl3)
    as (w4 & Hs4 & Hf4 & Hl4); [step_side..|]. step_norm Hf4 Hl4.
  destruct (save_call_step suffix 3 c5 e5 w4 _ Hmax Hl4)
    as (w5 & Hs5 & Hf5 & Hl5); [step_side..|]. step_norm Hf5 Hl5.
  exists w5. split; [|split].
  - rewrite (save_calls_cons _ _ _ _ _ _ _ Hs1), (save_calls_cons _ _ _ _ _ _ _ Hs2),
      (save_calls_cons _ _ _ _ _ _ _ Hs3), (save_calls_cons _ _ _ _ _ _ _ Hs4),
      (save_calls_cons _ _ _ _ _ _ _ Hs5).
    done.
  - rewrite fetch_ckpt_namelist_unfold. by f_equal.
  - pose proof (numbered_as_ne _ _ _ _ _ H1 H2 ltac:(lia)) as N12.
    pose proof (numbered_as_ne _ _ _ _ _ H1 H3 ltac:(lia)) as N13.
    pose proof (numbered_as_ne _ _ _ _ _ H1 H4 ltac:(lia)) as N14.
    pose proof (numbered_as_ne _ _ _ _ _ H1 H5 ltac:(lia)) as N15.
    pose proof (numbered_as_ne _ _ _ _ _ H2 H3 ltac:(lia)) as N23.
    pose proof (numbered_as_ne _ _ _ _ _ H2 H4 ltac:(lia)) as N24.
    pose proof (numbered_as_ne _ _ _ _ _ H2 H5 ltac:(lia)) as N25.
    pose proof (numbered_as_ne _ _ _ _ _ H3 H4 ltac:(lia)) as N34.
    pose proof (numbered_as_ne _ _ _ _ _ H3 H5 ltac:(lia)) as N35.
    pose proof (numbered_as_ne _ _ _ _ _ H4 H5 ltac:(lia)) as N45.
    rewrite Hf5, Hf4, Hf3, Hf2, Hf1.
    repeat split; simplify_map_eq by congruence; done.
Qed.

End save_rotation.

Section save_ckpt_rotation.
Context {Loss MS OS SS Model Optimizer Scheduler : Type}.
Context `{!StateExport Model MS, !StateExport Optimizer OS,
          !StateExport Scheduler SS}.
Local Abbreviation ckpt := (@ckptdict Loss MS OS SS).
Local Abbreviation call := (@save_call Loss Model Optimizer Scheduler).

(** C1 (as amended): for every directory and suffix on which the listing
    after the write succeeds, and every [max_to_keep] that is not negative,
    [save_ckpt] returns the record; when the listing has more than
    [max_to_keep] entries their first ones, the oldest, are deleted and
    exactly the last [max_to_keep] are listed afterwards, and otherwise
    nothing is deleted; a file whose name starts with [best] is never
    deleted.  After five calls with ascending numbers and
    [max_to_keep = 3], on a directory without numbered files, exactly the
    files of the last three calls are listed. *)
Theorem save_ckpt_rotates :
  (∀ (epoch : Z) (best_valid_loss : Loss) (best_valid_epoch : Z)
     (model : Model) (optimizer : Optimizer) (scheduler : Scheduler)
     (prefix suffix : string) (max_to_keep : Z)
     (w : ckptdir ckpt) (ckpts : list (string * Z)),
     let record :=
       Ckptdict epoch best_valid_loss best_valid_epoch (state_dict model)
         (state_dict optimizer) (state_dict scheduler) in
     let w1 := written record (prefix +:+ suffix) w in
     let k := (length ckpts - Z.to_nat max_to_keep)%nat in
     (0 ≤ max_to_keep)%Z →
     fetch_ckpt_namelist suffix w1 = (w1, inr ckpts) →
     ∃ w2,
       save_ckpt epoch best_valid_loss best_valid_epoch model optimizer
         scheduler prefix suffix max_to_keep w = (w2, inr record) ∧
       files w2 = remove_all (take k ckpts).*1 (files w1) ∧
       ((Z.of_nat (length ckpts) ≤ max_to_keep)%Z → files w2 = files w1) ∧
       (∃ kept, fetch_ckpt_namelist suffix w2 = (w2, inr kept) ∧
          kept ≡ₚ drop k ckpts ∧ Sorted epoch_le kept ∧
          ((max_to_keep < Z.of_nat (length ckpts))%Z →
           Z.of_nat (length kept) = max_to_keep) ∧
          (∀ a b, a ∈ take k ckpts → b ∈ kept → (a.2 ≤ b.2)%Z)) ∧
       (∀ x, startswith x "best" = true →
             files w2 !! x = files w1 !! x)) ∧
  (∀ (suffix : string) (c1 c2 c3 c4 c5 : call) (e1 e2 e3 e4 e5 : Z)
     (w0 : ckptdir ckpt),
     (∀ x, is_Some (files w0 !! x) → selected suffix x = false) →
     numbered_as suffix (sc_prefix c1) e1 →
     numbered_as suffix (sc_prefix c2) e2 →
     numbered_as suffix (sc_prefix c3) e3 →
     numbered_as suffix (sc_prefix c4) e4 →
     numbered_as suffix (sc_prefix c5) e5 →
     (e1 < e2)%Z → (e2 < e3)%Z → (e3 < e4)%Z → (e4 < e5)%Z →
     ∃ w5, save_calls suffix 3 [c1; c2; c3; c4; c5] w0 = (w5, inr tt) ∧
       fetch_ckpt_namelist suffix w5 =
       (w5, inr [(sc_prefix c3 +:+ suffix, e3); (sc_prefix c4 +:+ suffix, e4);
                 (sc_prefix c5 +:+ suffix, e5)]) ∧
       files w5 !! (sc_prefix c1 +:+ suffix) = None ∧
       files w5 !! (sc_prefix c2 +:+ suffix) = None ∧
       files w5 !! (sc_prefix c3 +:+ suffix) = Some (record_of c3) ∧
       files w5 !! (sc_prefix c4 +:+ suffix) = Some (record_of c4) ∧
       files w5 !! (sc_prefix c5 +:+ suffix) = Some (record_of c5)) ∧
  (∀ (epoch : Z) (best_valid_loss : Loss) (best_valid_epoch : Z)
     (model : Model) (optimizer : Optimizer) (scheduler : Scheduler)
     (prefix suffix : string) (max_to_keep : Z) (w : ckptdir ckpt)
     (x : string),
     let record :=
       Ckptdict epoch best_valid_loss best_valid_epoch (state_dict model)
         (state_dict optimizer) (state_dict scheduler) in
     startswith x "best" = true →
     files (save_ckpt epoch best_valid_loss best_valid_epoch model optimizer
              scheduler prefix suffix max_to_keep w).1 !! x
     = files (written record (prefix +:+ suffix) w) !! x).
Proof.
  split; [|split].
  - intros epoch best_valid_loss best_valid_epoch model optimizer scheduler
      prefix suffix max_to_keep w ckpts record w1 k Hmax Hfetch.
    apply (save_call_rotation suffix max_to_keep
             (SaveCall epoch best_valid_loss best_valid_epoch model optimizer
                scheduler prefix) w ckpts Hmax Hfetch).
  - intros suffix c1 c2 c3 c4 c5 e1 e2 e3 e4 e5 w0 **.
    by apply (five_saves suffix c1 c2 c3 c4 c5 e1 e2 e3 e4 e5).
  - intros epoch best_valid_loss best_valid_epoch model optimizer scheduler
      prefix suffix max_to_keep w x record Hbest.
    apply (save_call_keeps_best suffix max_to_keep
             (SaveCall epoch best_valid_loss best_valid_epoch model optimizer
                scheduler prefix) w x Hbest).
Qed.

End save_ckpt_rotation.

Lemma sample_numbered_as (e : Z) :
  e ∈ [1; 2; 3; 4; 5]%Z →
  numbered_as "_checkpoint.pt" (sc_prefix (sample_call e)) e.
Proof.
  intros He. repeat (apply elem_of_cons in He as [->|He];
    [split; vm_compute; reflexivity|]).
  by apply elem_of_nil in He.
Qed.

Lemma save_ckpt_rotates_witness :
  (∃ w2, save_call_run "_checkpoint.pt" 3 (sample_call 4)
           (sample_dir [1; 2; 3]%Z) = (w2, inr (record_of (sample_call 4))) ∧
     ∃ kept, fetch_ckpt_namelist "_checkpoint.pt" w2 = (w2, inr kept) ∧
       Z.of_nat (length kept) = 3%Z ∧
       kept ≡ₚ [("2_checkpoint.pt", 2%Z); ("3_checkpoint.pt", 3%Z);
                ("4_checkpoint.pt", 4%Z)]) ∧
  (∃ w5, save_calls "_checkpoint.pt" 3
           [sample_call 1; sample_call 2; sample_call 3; sample_call 4;
            sample_call 5] (sample_dir []) = (w5, inr tt) ∧
     fetch_ckpt_namelist "_checkpoint.pt" w5 =
     (w5, inr [("3_checkpoint.pt", 3%Z); ("4_checkpoint.pt", 4%Z);
               ("5_checkpoint.pt", 5%Z)])).
Proof.
  split.
  - destruct (proj1 save_ckpt_rotates 4%Z 0%Z 4%Z
      (sc_model (sample_call 4)) (sc_optimizer (sample_call 4))
      (sc_scheduler (sample_call 4)) "4" "_checkpoint.pt" 3%Z
      (sample_dir [1; 2; 3]%Z)
      [("1_checkpoint.pt", 1%Z); ("2_checkpoint.pt", 2%Z);
       ("3_checkpoint.pt", 3%Z); ("4_checkpoint.pt", 4%Z)])
      as (w2 & Hsave & _ & _ & (kept & Hkept & Hperm & _ & Hlen & _) & _).
    + lia.
    + run_listing.
    + exists w2. split; [exact Hsave|]. exists kept.
      split; [exact Hkept|]. split; [apply Hlen; simpl; lia|exact Hperm].
  - destruct (proj1 (proj2 save_ckpt_rotates) "_checkpoint.pt"
      (sample_call 1) (sample_call 2) (sample_call 3) (sample_call 4)
      (sample_call 5) 1%Z 2%Z 3%Z 4%Z 5%Z (sample_dir []))
      as (w5 & Hsave & Hkept & _);
      try (apply sample_numbered_as; set_solver); try lia.
    + intros x [b Hb]. vm_compute in Hb. discriminate.
    + exists w5. split; [exact Hsave|exact Hkept].
Defined.

(** C1 fails as stated: with [max_to_keep = -1] no numbered file remains,
    the one just written included; and on a directory with a name that
    ends in the suffix and is no number the call raises after the write,
    and the four numbered files stay although [max_to_keep = 3]. *)
Lemma save_ckpt_rotates_counterexample :
  let run1 := save_call_run "_checkpoint.pt" (-1) (sample_call 4)
                (sample_dir [1; 2; 3]%Z) in
  let w := Ckptdir (<["tmp_checkpoint.pt" := sample_ckpt 0]>
                      (files (sample_dir [1; 2; 3]%Z))) [] in
  let run2 := save_call_run "_checkpoint.pt" 3 (sample_call 4) w in
  (run1.2 = inr (sample_ckpt 4) ∧
   namelist_of (listing run1.1) "_checkpoint.pt" = inr []) ∧
  (run2.2 = inl ValueError ∧
   (λ x, ck_epoch <$> files run2.1 !! x) <$>
     ["1_checkpoint.pt"; "2_checkpoint.pt"; "3_checkpoint.pt";
      "4_checkpoint.pt"] = [Some 1; Some 2; Some 3; Some 4]%Z).
Proof.
  intros run1 w run2. split; split.
  - vm_compute. reflexivity.
  - vm_compute. reflexivity.
  - vm_compute. reflexivity.
  - vm_compute. reflexivity.
Qed.

(** * The order of the write and the deletions *)

Section write_first.
Context {Loss MS OS SS Model Optimizer Scheduler : Type}.
Context `{!StateExport Model MS, !StateExport Optimizer OS,
          !StateExport Scheduler SS}.
Local Abbreviation ckpt := (@ckptdict Loss MS OS SS).
Local Abbreviation call := (@save_call Loss Model Optimizer Scheduler).
Implicit Types (w : ckptdir ckpt) (d : gmap string ckpt).

Lemma replay_write_removes name (record : ckpt) dels d n :
  replay (take (S n) (EvWrite name record :: (EvRemove <$> dels))) d
  = remove_all (take n dels) (<[name := record]> d).
Proof.
  cbn [take]. rewrite <-fmap_take. unfold replay at 1. cbn [foldl apply_event].
  apply remove_all_replay.
Qed.

(** The file that the listing has last is not among the deleted ones when
    at least one file is kept. *)
Lemma last_not_rotated_out (ckpts : list (string * Z)) (max_to_keep : Z) c :
  NoDup ckpts.*1 → (1 ≤ max_to_keep)%Z → last ckpts = Some c →
  c.1 ∉ (rotated_out ckpts max_to_keep).*1.
Proof.
  intros Hnd Hmax Hlast. rewrite rotated_out_take.
  set (k := Z.to_nat (Z.of_nat (length ckpts) - max_to_keep)).
  rewrite <-(take_drop k ckpts), fmap_app in Hnd.
  apply NoDup_app in Hnd as (_ & Hdisj & _). intros Hin.
  apply (Hdisj _ Hin). apply (list_elem_of_fmap_2 fst).
  rewrite last_lookup in Hlast.
  assert (Hlen : length ckpts ≠ 0%nat) by (by destruct ckpts).
  apply (list_elem_of_lookup_2 _ (Nat.pred (length ckpts) - k)).
  rewrite lookup_drop. rewrite <-Hlast. f_equal. unfold k. lia.
Qed.

(** C8 (as amended): whatever its outcome, [save_ckpt] first writes the
    full record to the new file and only then deletes files: the
    operations it has done are the write followed by deletions (none when
    the listing raises), and they account for the directory it leaves.  If
    the call stops after any number of these operations, then before the
    write the directory is unchanged, and after it the new file holds the
    record provided the new file is not among those to delete; it is not
    when [max_to_keep] is at least 1 and the listing has the new file
    last. *)
Theorem save_ckpt_write_first (epoch : Z) (best_valid_loss : Loss)
    (best_valid_epoch : Z) (model : Model) (optimizer : Optimizer)
    (scheduler : Scheduler) (prefix suffix : string) (max_to_keep : Z)
    w w' (out : exn + ckpt) :
  let record :=
    Ckptdict epoch best_valid_loss best_valid_epoch (state_dict model)
      (state_dict optimizer) (state_dict scheduler) in
  let name := prefix +:+ suffix in
  save_ckpt epoch best_valid_loss best_valid_epoch model optimizer scheduler
    prefix suffix max_to_keep w = (w', out) →
  ∃ dels : list string,
    events w' = events w ++ EvWrite name record :: (EvRemove <$> dels) ∧
    files w' = replay (EvWrite name record :: (EvRemove <$> dels)) (files w) ∧
    (∀ e, out = inl e → dels = []) ∧
    ((1 ≤ max_to_keep)%Z →
     (∀ ckpts, namelist_of (listing (written record name w)) suffix
               = inr ckpts → ∃ e, last ckpts = Some (name, e)) →
     name ∉ dels) ∧
    (∀ n, let d := replay (take n (EvWrite name record :: (EvRemove <$> dels)))
                     (files w) in
       (n = 0%nat → d = files w) ∧
       ((0 < n)%nat → name ∉ dels → d !! name = Some record)).
Proof.
  intros record name Hsave.
  set (c := SaveCall epoch best_valid_loss best_valid_epoch model optimizer
              scheduler prefix).
  change (save_call_run suffix max_to_keep c w = (w', out)) in Hsave.
  assert (Hsteps : ∀ dels n,
    let d := replay (take n (EvWrite name record :: (EvRemove <$> dels)))
               (files w) in
    (n = 0%nat → d = files w) ∧
    ((0 < n)%nat → name ∉ dels → d !! name = Some record)).
  { intros dels n d. split; [by intros ->|].
    intros Hn Hout. destruct n as [|n]; [lia|].
    unfold d. rewrite replay_write_removes, lookup_remove_all.
    rewrite decide_False; [apply lookup_insert_eq|].
    intros Hin. apply Hout. by apply (elem_of_sublist _ _ _ Hin), sublist_take. }
  destruct (namelist_of (listing (written record name w)) suffix)
    as [e|ckpts] eqn:Hrun.
  - rewrite (save_ckpt_raise suffix max_to_keep c w e Hrun) in Hsave.
    injection Hsave as <- <-. exists []. repeat split; try done.
    + intros _ _ Hin. by apply elem_of_nil in Hin.
    + by apply Hsteps.
    + by apply Hsteps.
  - rewrite (save_ckpt_run suffix max_to_keep c w ckpts Hrun) in Hsave.
    injection Hsave as <- <-.
    exists (rotated_out ckpts max_to_keep).*1. repeat split.
    + simpl. by rewrite <-app_assoc.
    + simpl. unfold replay at 1. cbn [foldl apply_event].
      symmetry. apply remove_all_replay.
    + done.
    + intros Hmax Hlast. destruct (Hlast ckpts eq_refl) as [e He].
      pose proof (namelist_of_names _ _ _ (NoDup_listing _) Hrun) as [Hnd _].
      apply (last_not_rotated_out ckpts max_to_keep (name, e) Hnd Hmax He).
    + by apply Hsteps.
    + by apply Hsteps.
Qed.

End write_first.

Lemma save_ckpt_write_first_witness :
  let run := save_ckpt 4 0%Z 4 (sc_model (sample_call 4))
               (sc_optimizer (sample_call 4)) (sc_scheduler (sample_call 4))
               "4" "_checkpoint.pt" 3 (sample_dir [1; 2; 3]%Z) in
  run.2 = inr (sample_ckpt 4) ∧
  ∃ dels : list string,
    events run.1 =
      [] ++ EvWrite "4_checkpoint.pt" (sample_ckpt 4) :: (EvRemove <$> dels) ∧
    ("4_checkpoint.pt" ∉ dels) ∧
    ∀ n, (0 < n)%nat →
      replay (take n (EvWrite "4_checkpoint.pt" (sample_ckpt 4)
                        :: (EvRemove <$> dels)))
        (files (sample_dir [1; 2; 3]%Z)) !! "4_checkpoint.pt"
      = Some (sample_ckpt 4).
Proof.
  intros run. split; [vm_compute; reflexivity|].
  destruct (save_ckpt_write_first 4 0%Z 4 (sc_model (sample_call 4))
              (sc_optimizer (sample_call 4)) (sc_scheduler (sample_call 4))
              "4" "_checkpoint.pt" 3 (sample_dir [1; 2; 3]%Z) run.1 run.2)
    as (dels & Hev & _ & _ & Hkept & Hsteps).
  - apply surjective_pairing.
  - assert (Hout : "4_checkpoint.pt" ∉ dels).
    { apply Hkept; [lia|]. intros ckpts Hrun. exists 4%Z.
      assert (Hl : namelist_of
                (listing (written (sample_ckpt 4) "4_checkpoint.pt"
                            (sample_dir [1; 2; 3]%Z))) "_checkpoint.pt"
              = inr [("1_checkpoint.pt", 1%Z); ("2_checkpoint.pt", 2%Z);
                     ("3_checkpoint.pt", 3%Z); ("4_checkpoint.pt", 4%Z)])
        by (vm_compute; reflexivity).
      change (namelist_of
                (listing (written (sample_ckpt 4) "4_checkpoint.pt"
                            (sample_dir [1; 2; 3]%Z))) "_checkpoint.pt"
              = inr ckpts) in Hrun.
      rewrite Hl in Hrun. by injection Hrun as <-. }
    exists dels. split; [exact Hev|]. split; [exact Hout|].
    intros n Hn. by apply (Hsteps n).
Defined.

(** C8 fails as stated: with [max_to_keep = 0] the call writes the new
    file and then deletes it; and when the new file's number is below the
    listed ones, the rotation deletes the file just written.  Neither call
    raises. *)
Lemma save_ckpt_write_first_counterexample :
  let run0 := save_call_run "_checkpoint.pt" 0 (sample_call 1)
                (sample_dir []) in
  let run1 := save_call_run "_checkpoint.pt" 3 (sample_call 1)
                (sample_dir [5; 6; 7]%Z) in
  (run0.2 = inr (sample_ckpt 1) ∧
   events run0.1 = [EvWrite "1_checkpoint.pt" (sample_ckpt 1);
                    EvRemove "1_checkpoint.pt"] ∧
   ck_epoch <$> files run0.1 !! "1_checkpoint.pt" = None) ∧
  (run1.2 = inr (sample_ckpt 1) ∧
   events run1.1 = [EvWrite "1_checkpoint.pt" (sample_ckpt 1);
                    EvRemove "1_checkpoint.pt"] ∧
   ck_epoch <$> files run1.1 !! "1_checkpoint.pt" = None).
Proof.
  intros run0 run1. repeat split; vm_compute; reflexivity.
Qed.

(** * Properties of [load_ckpt] *)

Section load_ckpt_facts.
Context {Loss MS OS SS Model Optimizer Scheduler : Type}.
Context `{!StateImport Model MS, !StateImport (DataParallel Model) MS}.
Local Abbreviation ckpt := (@ckptdict Loss MS OS SS).

(** C5: when the import into the given model raises, [load_ckpt]
    imports into the wrapper around the model; when that import raises
    too, its exception is the outcome of the call, and otherwise the model
    that the call goes on with and returns is the wrapper's module. *)
Theorem load_ckpt_fallback `{!StateImport Optimizer OS}
    `{!StateImport Scheduler SS} (model : Model) (optimizer : Optimizer)
    (scheduler : Scheduler) (ckpt : ckpt) (restore_opt_sche : bool)
    (e : exn) :
  let first := load_state_dict model (ck_model ckpt) in
  let second :=
    load_state_dict (DataParallelOf first.1) (ck_model ckpt) in
  let run := load_ckpt model optimizer scheduler ckpt restore_opt_sche in
  first.2 = Some e →
  (∀ e2, second.2 = Some e2 →
     run = (Objects (module second.1) optimizer scheduler, inl e2)) ∧
  (second.2 = None →
     load_model model ckpt = (module second.1, None) ∧
     (∀ r, run.2 = inr r → r_model r = module second.1) ∧
     (restore_opt_sche = false →
      run = (Objects (module second.1) optimizer scheduler,
             inr (Restored (ck_epoch ckpt) (ck_best_valid_loss ckpt)
                    (ck_best_valid_epoch ckpt) (module second.1)
                    optimizer scheduler))) ∧
     (restore_opt_sche = true →
      ∀ optimizer' scheduler',
        load_state_dict optimizer (ck_optimizer ckpt) = (optimizer', None) →
        load_state_dict scheduler (ck_scheduler ckpt) = (scheduler', None) →
        run = (Objects (module second.1) optimizer' scheduler',
               inr (Restored (ck_epoch ckpt) (ck_best_valid_loss ckpt)
                      (ck_best_valid_epoch ckpt) (module second.1)
                      optimizer' scheduler')))).
Proof.
  intros first second run Hfirst.
  assert (Hm : load_model model ckpt = (module second.1, second.2)).
  { unfold load_model. fold first. destruct first as [m1 r1] eqn:E1.
    simpl in Hfirst. subst r1. simpl in second. fold second.
    by destruct second as [wr [e2|]]. }
  split.
  - intros e2 He2. unfold run, load_ckpt. by rewrite Hm, He2.
  - intros Hsecond. rewrite Hsecond in Hm. split; [done|].
    unfold run, load_ckpt. rewrite Hm. split; [|split].
    + intros r. destruct restore_opt_sche; simpl.
      * destruct (load_state_dict optimizer _) as [o' [eo|]]; [done|].
        destruct (load_state_dict scheduler _) as [s' [es|]]; [done|].
        by intros [= <-].
      * by intros [= <-].
    + by intros ->.
    + intros -> o' s' Ho Hs. by rewrite Ho, Hs.
Qed.

(** C10: with [restore_opt_sche = false] the optimizer and the
    scheduler are left and returned as they were given, whatever the
    outcome; the call does not depend on how their state is imported. *)
Theorem load_ckpt_keeps_optimizer (model : Model) (optimizer : Optimizer)
    (scheduler : Scheduler) (ckpt : ckpt) :
  (∀ (imp_o imp_o' : StateImport Optimizer OS)
     (imp_s imp_s' : StateImport Scheduler SS),
     load_ckpt (StateImport2:=imp_o) (StateImport3:=imp_s)
       model optimizer scheduler ckpt false
     = load_ckpt (StateImport2:=imp_o') (StateImport3:=imp_s')
       model optimizer scheduler ckpt false) ∧
  (∀ (imp_o : StateImport Optimizer OS) (imp_s : StateImport Scheduler SS),
     let run := load_ckpt model optimizer scheduler ckpt false in
     the_optimizer run.1 = optimizer ∧ the_scheduler run.1 = scheduler ∧
     ∀ r, run.2 = inr r →
       r_optimizer r = optimizer ∧ r_scheduler r = scheduler ∧
       r_model r = the_model run.1).
Proof.
  split; [done|]. intros imp_o imp_s run. unfold run, load_ckpt.
  destruct (load_model model ckpt) as [m [e|]]; simpl.
  - done.
  - split; [done|split; [done|]]. by intros r [= <-].
Qed.

End load_ckpt_facts.

Lemma load_ckpt_fallback_witness :
  load_ckpt sample_model sample_optimizer sample_scheduler
    (sample_wrapped_ckpt 7) true
  = (Objects [("fc.weight", 7%Z); ("fc.bias", 1%Z)] [("lr", 2%Z)]
       [("last_epoch", 7%Z)],
     inr (Restored 7 0%Z 7 [("fc.weight", 7%Z); ("fc.bias", 1%Z)]
            [("lr", 2%Z)] [("last_epoch", 7%Z)])) ∧
  load_ckpt sample_model sample_optimizer sample_scheduler
    (sample_mismatched_ckpt 7) true
  = (Objects sample_model sample_optimizer sample_scheduler,
     inl RuntimeError).
Proof.
  split.
  - destruct (load_ckpt_fallback sample_model sample_optimizer
                sample_scheduler (sample_wrapped_ckpt 7) true RuntimeError)
      as [_ Hok]; [vm_compute; reflexivity|].
    destruct Hok as (_ & _ & _ & Hrun); [vm_compute; reflexivity|].
    exact (Hrun eq_refl [("lr", 2%Z)] [("last_epoch", 7%Z)] eq_refl eq_refl).
  - destruct (load_ckpt_fallback sample_model sample_optimizer
                sample_scheduler (sample_mismatched_ckpt 7) true RuntimeError)
      as [Hfail _]; [vm_compute; reflexivity|].
    exact (Hfail RuntimeError eq_refl).
Defined.

Lemma load_ckpt_keeps_optimizer_witness :
  let run := load_ckpt sample_model sample_optimizer sample_scheduler
               (sample_ckpt 7) false in
  run.2 = inr (Restored 7 0%Z 7 [("fc.weight", 7%Z); ("fc.bias", 1%Z)]
                 sample_optimizer sample_scheduler) ∧
  the_optimizer run.1 = sample_optimizer ∧
  the_scheduler run.1 = sample_scheduler.
Proof.
  intros run.
  destruct (proj2 (load_ckpt_keeps_optimizer sample_model sample_optimizer
                     sample_scheduler (sample_ckpt 7)) _ _)
    as (Ho & Hs & Hr).
  assert (Hrun : run.2 = inr (Restored 7 0%Z 7
                   [("fc.weight", 7%Z); ("fc.bias", 1%Z)]
                   sample_optimizer sample_scheduler))
    by (vm_compute; reflexivity).
  destruct (Hr _ Hrun) as (_ & _ & _).
  split; [exact Hrun|]. split; [exact Ho|exact Hs].
Defined.

(** * Decimal names are read back *)

Lemma string_app_nil_r (s : string) : s +:+ "" = s.
Proof.
  induction s as [|a s IHs]; [done|].
  change (String a (s +:+ "") = String a s). by rewrite IHs.
Qed.

Lemma string_app_assoc (s1 s2 s3 : string) :
  (s1 +:+ s2) +:+ s3 = s1 +:+ (s2 +:+ s3).
Proof.
  induction s1 as [|a s1 IHs]; [done|].
  change (String a ((s1 +:+ s2) +:+ s3) = String a (s1 +:+ (s2 +:+ s3))).
  by rewrite IHs.
Qed.

Lemma rev_app_rev_app (s1 s2 s3 : string) :
  String.rev_app (String.rev_app s1 s2) s3 = String.rev_app s2 (s1 +:+ s3).
Proof.
  revert s2. induction s1 as [|a s1 IHs]; intros s2; [done|].
  change (String.rev_app (String.rev_app s1 (String a s2)) s3
          = String.rev_app s2 (String a (s1 +:+ s3))).
  by rewrite IHs.
Qed.

Lemma string_rev_involutive (s : string) : String.rev (String.rev s) = s.
Proof.
  unfold String.rev. rewrite rev_app_rev_app. apply string_app_nil_r.
Qed.

Lemma all_chars_app p (s1 s2 : string) :
  all_chars p (s1 +:+ s2) = all_chars p s1 && all_chars p s2.
Proof.
  induction s1 as [|a s1 IHs]; [done|].
  change (p a && all_chars p (s1 +:+ s2)
          = p a && all_chars p s1 && all_chars p s2).
  by rewrite IHs, andb_assoc.
Qed.

Lemma all_chars_rev_app p (s1 s2 : string) :
  all_chars p (String.rev_app s1 s2) = all_chars p s1 && all_chars p s2.
Proof.
  revert s2. induction s1 as [|a s1 IHs]; intros s2; simpl; [done|].
  rewrite IHs. simpl. destruct (p a), (all_chars p s1); by simpl.
Qed.

Lemma all_chars_rev p (s : string) :
  all_chars p (String.rev s) = all_chars p s.
Proof. unfold String.rev. rewrite all_chars_rev_app. simpl. apply andb_true_r. Qed.

Lemma lstrip_no_space (s : string) :
  all_chars (λ a, negb (is_space a)) s = true → lstrip s = s.
Proof.
  destruct s as [|a s]; simpl; [done|].
  intros [Ha _]%andb_true_iff. by destruct (is_space a).
Qed.

(** [strip] leaves a string without white space as it is. *)
Lemma strip_no_space (s : string) :
  all_chars (λ a, negb (is_space a)) s = true → strip s = s.
Proof.
  intros Hs. unfold strip. rewrite (lstrip_no_space s Hs).
  rewrite lstrip_no_space by by rewrite all_chars_rev.
  apply string_rev_involutive.
Qed.

Lemma all_chars_impl (p q : ascii → bool) (s : string) :
  (∀ a, p a = true → q a = true) →
  all_chars p s = true → all_chars q s = true.
Proof.
  intros Hpq. induction s as [|a s IHs]; simpl; [done|].
  intros [Ha Hs]%andb_true_iff. by rewrite (Hpq a Ha), IHs.
Qed.

Lemma digit_of_range (a : ascii) (d : Z) :
  digit_of a = Some d → 48 ≤ nat_of_ascii a ≤ 57 ∧ d = (Z.of_nat (nat_of_ascii a) - 48)%Z.
Proof.
  unfold digit_of.
  destruct (Nat.leb_spec 48 (nat_of_ascii a)); simpl; [|done].
  destruct (Nat.leb_spec (nat_of_ascii a) 57); [|done].
  intros [= <-]. lia.
Qed.

Lemma is_digit_range (a : ascii) :
  is_digit a = true → 48 ≤ nat_of_ascii a ≤ 57.
Proof.
  unfold is_digit. destruct (digit_of a) as [d|] eqn:Hd; [|done].
  intros _. by apply digit_of_range in Hd as [? _].
Qed.

Lemma is_digit_no_space (a : ascii) : is_digit a = true → negb (is_space a) = true.
Proof.
  intros Ha%is_digit_range. unfold is_space.
  destruct (Nat.eqb_spec (nat_of_ascii a) 32); [lia|].
  destruct (Nat.leb_spec (nat_of_ascii a) 13); [lia|].
  by rewrite andb_false_r.
Qed.

Lemma is_digit_neq (a c : ascii) :
  is_digit a = true → ¬ (48 ≤ nat_of_ascii c ≤ 57) → Ascii.eqb a c = false.
Proof. intros Ha%is_digit_range Hc. apply Ascii.eqb_neq. by intros ->. Qed.

Lemma pretty_N_char_digit (x : N) :
  (x < 10)%N → digit_of (pretty_N_char x) = Some (Z.of_N x).
Proof.
  intros Hx. rewrite <-(N2Nat.id x).
  assert (Hn : N.to_nat x < 10) by lia.
  generalize dependent (N.to_nat x). intros n Hn.
  do 10 (destruct n as [|n]; [reflexivity|]). lia.
Qed.

(** The parser on a string of digits: no underscore, no other character. *)
Lemma parse_digits_value (s : string) (acc : Z) (after_digit : bool) :
  all_chars is_digit s = true →
  (s ≠ "" ∨ after_digit = true) →
  parse_digits acc after_digit s = Some (digits_value acc s).
Proof.
  revert acc after_digit.
  induction s as [|a s IHs]; intros acc b Hs Hne.
  - destruct Hne as [?| ->]; done.
  - apply andb_true_iff in Hs as [Ha Hs]. cbn [parse_digits digits_value].
    rewrite (is_digit_neq a "_"%char Ha) by (vm_compute; lia).
    unfold is_digit in Ha. destruct (digit_of a) as [d|]; [|done].
    apply IHs; [done|by right].
Qed.

Lemma digits_value_snoc (s : string) (acc : Z) (c : ascii) (d : Z) :
  all_chars is_digit s = true → digit_of c = Some d →
  digits_value acc (s +:+ String c "") = (10 * digits_value acc s + d)%Z.
Proof.
  revert acc. induction s as [|a s IHs]; intros acc Hs Hc.
  - change ("" +:+ String c "") with (String c "").
    cbn [digits_value]. by rewrite Hc.
  - apply andb_true_iff in Hs as [Ha Hs].
    change (String a s +:+ String c "") with (String a (s +:+ String c "")).
    cbn [digits_value]. unfold is_digit in Ha.
    destruct (digit_of a) as [d'|]; [|done]. by apply IHs.
Qed.

Lemma pretty_N_go_app (x : N) (s : string) :
  pretty_N_go x s = pretty_N_go x "" +:+ s.
Proof.
  revert s. induction (N.lt_wf_0 x) as [x _ IH]; intros s.
  destruct (decide (0 < x)%N) as [Hx|Hx].
  - rewrite (pretty_N_go_step x s), (pretty_N_go_step x "") by done.
    assert (Hlt : (x `div` 10 < x)%N) by (apply N.div_lt; lia).
    rewrite (IH _ Hlt (String _ s)), (IH _ Hlt (String _ "")).
    by rewrite string_app_assoc.
  - replace x with 0%N by lia. by rewrite !pretty_N_go_0.
Qed.

(** The digits of a positive number: they are digits, at least one, and
    they denote the number. *)
Lemma pretty_N_go_digits (x : N) :
  all_chars is_digit (pretty_N_go x "") = true ∧
  digits_value 0 (pretty_N_go x "") = Z.of_N x ∧
  ((0 < x)%N → pretty_N_go x "" ≠ "").
Proof.
  induction (N.lt_wf_0 x) as [x _ IH].
  destruct (decide (0 < x)%N) as [Hx|Hx].
  - rewrite (pretty_N_go_step x "") by done. rewrite pretty_N_go_app.
    destruct (IH (x `div` 10)%N) as (Hd & Hv & _); [apply N.div_lt; lia|].
    assert (Hc : digit_of (pretty_N_char (x `mod` 10)) = Some (Z.of_N (x `mod` 10)))
      by (apply pretty_N_char_digit, N.mod_lt; lia).
    split; [|split].
    + rewrite all_chars_app, Hd. cbn [all_chars andb].
      unfold is_digit. by rewrite Hc.
    + rewrite (digits_value_snoc _ _ _ _ Hd Hc), Hv.
      rewrite (N.div_mod x 10) at 3 by lia. lia.
    + intros _. by destruct (pretty_N_go (x `div` 10) "").
  - replace x with 0%N by lia. rewrite pretty_N_go_0. by split; [|split; [|lia]].
Qed.

Lemma sign_of_digit (a : ascii) (r : string) :
  is_digit a = true →
  match String a r with
  | String "+"%char r' => parse_digits 0 false r'
  | String "-"%char r' => Z.opp <$> parse_digits 0 false r'
  | r' => parse_digits 0 false r'
  end = parse_digits 0 false (String a r).
Proof.
  intros Ha.
  destruct a as [[] [] [] [] [] [] [] []];
    first [reflexivity | (vm_compute in Ha; discriminate)].
Qed.

(** [int(str(n))] is [n]. *)
Lemma py_int_pretty (n : Z) : py_int (pretty n) = Some n.
Proof.
  destruct n as [|p|p].
  - vm_compute. reflexivity.
  - change (pretty (Z.pos p)) with (pretty (N.pos p)).
    unfold pretty, pretty_N. rewrite decide_False by done.
    destruct (pretty_N_go_digits (N.pos p)) as (Hd & Hv & Hne).
    unfold py_int. rewrite strip_no_space
      by (apply (all_chars_impl is_digit); [apply is_digit_no_space|done]).
    destruct (pretty_N_go (N.pos p) "") as [|a r] eqn:Hgo; [by destruct Hne|].
    pose proof Hd as [Ha _]%andb_true_iff.
    rewrite (sign_of_digit a r Ha), parse_digits_value, Hv; [done..|by left].
  - change (pretty (Z.neg p)) with ("-" +:+ pretty (N.pos p)).
    unfold pretty, pretty_N. rewrite decide_False by done.
    destruct (pretty_N_go_digits (N.pos p)) as (Hd & Hv & Hne).
    unfold py_int. rewrite strip_no_space.
    + change ("-" +:+ pretty_N_go (N.pos p) "")
        with (String "-"%char (pretty_N_go (N.pos p) "")).
      cbv beta iota. rewrite parse_digits_value, Hv; [done|done|].
      left. by apply Hne.
    + change ("-" +:+ pretty_N_go (N.pos p) "")
        with (String "-"%char (pretty_N_go (N.pos p) "")).
      cbn [all_chars].
      rewrite (all_chars_impl is_digit _ _ is_digit_no_space Hd).
      reflexivity.
Qed.

Lemma pretty_Z_decimal (n : Z) :
  all_chars is_decimal_char (pretty n) = true ∧ pretty n ≠ "".
Proof.
  destruct n as [|p|p].
  - by split.
  - change (pretty (Z.pos p)) with (pretty (N.pos p)).
    unfold pretty, pretty_N. rewrite decide_False by done.
    destruct (pretty_N_go_digits (N.pos p)) as (Hd & _ & Hne).
    split; [|by apply Hne].
    apply (all_chars_impl is_digit); [|done].
    intros a Ha. unfold is_decimal_char. by rewrite Ha.
  - change (pretty (Z.neg p)) with (String "-"%char (pretty (N.pos p))).
    split; [|done]. cbn [all_chars].
    unfold pretty, pretty_N. rewrite decide_False by done.
    destruct (pretty_N_go_digits (N.pos p)) as (Hd & _ & _).
    rewrite (all_chars_impl is_digit is_decimal_char _) ; [done| |done].
    intros a Ha. unfold is_decimal_char. by rewrite Ha.
Qed.

Lemma remove_from_skip (pat t : string) :
  remove_from pat (String.length t) t = "".
Proof. induction t as [|b t IHt]; [done|]. exact IHt. Qed.

Lemma startswith_refl (s : string) : startswith s s = true.
Proof.
  induction s as [|a s IHs]; [done|].
  cbn [startswith]. by rewrite Ascii.eqb_refl, IHs.
Qed.

Lemma plain_suffix_head (suffix : string) (c : ascii) (r : string) :
  plain_suffix suffix = true → is_decimal_char c = true →
  startswith (String c r) suffix = false.
Proof.
  destruct suffix as [|a t]; [done|]. cbn [plain_suffix startswith].
  intros [Hd Hm]%andb_true_iff Hc.
  destruct (Ascii.eqb_spec a c) as [->|]; [|done].
  unfold is_decimal_char in Hc.
  by destruct (is_digit c), (Ascii.eqb c "-").
Qed.

(** Removing the suffix from a decimal name followed by the suffix leaves
    the decimal name. *)
Lemma str_remove_decimal (s suffix : string) :
  all_chars is_decimal_char s = true → plain_suffix suffix = true →
  str_remove (s +:+ suffix) suffix = s.
Proof.
  intros Hs Hp. unfold str_remove.
  destruct suffix as [|a t]; [done|].
  induction s as [|c s IHs].
  - change ("" +:+ String a t) with (String a t).
    cbn [remove_from]. rewrite startswith_refl.
    replace (String.length (String a t) - 1) with (String.length t)
      by (cbn [String.length]; lia).
    apply remove_from_skip.
  - apply andb_true_iff in Hs as [Hc Hs].
    change (String c s +:+ String a t) with (String c (s +:+ String a t)).
    cbn [remove_from]. rewrite (plain_suffix_head _ c _ Hp Hc).
    by rewrite IHs.
Qed.

Lemma startswith_decimal (s r p : string) (b : ascii) :
  all_chars is_decimal_char s = true → s ≠ "" →
  is_decimal_char b = false → startswith (s +:+ r) (String b p) = false.
Proof.
  intros Hs Hne Hb. destruct s as [|c s]; [done|].
  apply andb_true_iff in Hs as [Hc _].
  change (String c s +:+ r) with (String c (s +:+ r)). cbn [startswith].
  destruct (Ascii.eqb_spec b c) as [->|]; [congruence|done].
Qed.

(** The name of an epoch is selected, and its number is the epoch. *)
Lemma numbered_as_pretty (n : Z) (suffix : string) :
  plain_suffix suffix = true → numbered_as suffix (pretty n) n.
Proof.
  intros Hp. destruct (pretty_Z_decimal n) as [Hd Hne]. split.
  - apply selected_true. split.
    + apply endswith_spec. by exists (pretty n).
    + by apply startswith_decimal.
  - unfold epoch_of. rewrite (str_remove_decimal _ _ Hd Hp).
    apply py_int_pretty.
Qed.

(** X1: the name that the convention [{:d}{suffix}] gives to epoch [n] is
    listed with the number [n], for every integer [n], negative ones
    included, and every suffix that starts with a character that is neither
    a digit nor a minus sign; [_checkpoint.pt] is such a suffix. *)
Theorem decimal_name_numbered (n : Z) (suffix : string) :
  plain_suffix suffix = true →
  numbered_as suffix (pretty n) n ∧
  py_int (pretty n) = Some n ∧
  str_remove (pretty n +:+ suffix) suffix = pretty n.
Proof.
  intros Hp. destruct (pretty_Z_decimal n) as [Hd Hne].
  split; [by apply numbered_as_pretty|].
  split; [apply py_int_pretty|by apply str_remove_decimal].
Qed.

Lemma decimal_name_numbered_witness :
  plain_suffix "_checkpoint.pt" = true ∧
  numbered_as "_checkpoint.pt" (pretty (-2024)%Z) (-2024)%Z.
Proof.
  split; [reflexivity|].
  apply (decimal_name_numbered (-2024)%Z "_checkpoint.pt"). reflexivity.
Defined.
(** * More on the argument container *)

Lemma constructible_dict (d : pydict) :
  constructible (VDict d) = true ↔
  kwargs_ok d = true ∧ ∀ k v, d !! k = Some v → constructible v = true.
Proof.
  simpl. rewrite andb_true_iff.
  by rewrite (fold_and_true (λ _ v, constructible v)).
Qed.

Lemma container_args (d : pydict) :
  container (VArgs d) = true ↔
  kwargs_ok d = true ∧ ∀ k v, d !! k = Some v → container v = true.
Proof.
  simpl. rewrite andb_true_iff.
  by rewrite (fold_and_true (λ _ v, container v)).
Qed.

Lemma exportable_args (d : pydict) :
  exportable (VArgs d) = true ↔
  shadowed "to_argdict" d = false ∧ all_exportable d = true.
Proof. cbn [exportable]. by rewrite andb_true_iff, negb_true_iff. Qed.

Lemma all_exportable_spec (self : pydict) :
  all_exportable self = true ↔
  ∀ k v, self !! k = Some v → exportable v = true.
Proof. apply (fold_and_true (λ _ v, exportable v)). Qed.

Lemma plain_values_spec (m : pydict) :
  plain_values m = true ↔ ∀ k v, m !! k = Some v → plain_value v = true.
Proof. apply (fold_and_true (λ _ v, plain_value v)). Qed.

(** The outcome of the constructor: it returns on the mappings that are
    constructible and nested no deeper than the calls allowed; it raises
    [TypeError] only on a mapping that is not constructible, and
    [RecursionError] only on one that is nested deeper. *)
Lemma MyArgs_init_cases (limit : nat) : ∀ m,
  match MyArgs_init limit m with
  | inr _ => constructible (VDict m) = true ∧ dict_depth (VDict m) ≤ limit
  | inl e =>
      (e = TypeError ∧ constructible (VDict m) = false) ∨
      (e = RecursionError ∧ limit < dict_depth (VDict m))
  end.
Proof.
  induction limit as [|l IHl]; intros m.
  - cbn [MyArgs_init]. destruct (kwargs_ok m) eqn:Hk.
    + right. split; [done|apply dict_depth_pos].
    + left. split; [done|]. apply not_true_is_false.
      rewrite constructible_dict. intros [Hk' _]. congruence.
  - rewrite MyArgs_init_S. destruct (kwargs_ok m) eqn:Hk.
    2:{ left. split; [done|]. apply not_true_is_false.
        rewrite constructible_dict. intros [Hk' _]. congruence. }
    rewrite init_body_cases.
    destruct ((store_items (bind_value l) m ∅).2) as [e|] eqn:Hst.
    + destruct (store_items_raises _ _ _ _ Hst) as (k & v & Hv & Hb).
      destruct v as [| | | | |d|d]; try done.
      rewrite bind_value_dict in Hb. specialize (IHl d).
      destruct (MyArgs_init l d) as [e'|s]; [|done]. injection Hb as ->.
      destruct IHl as [[-> Hc]|[-> Hd]].
      * left. split; [done|]. apply not_true_is_false.
        rewrite constructible_dict. intros [_ Hall].
        rewrite (Hall k _ Hv) in Hc. done.
      * right. split; [done|]. apply Nat.lt_nge. intros Hle.
        pose proof (proj1 (dict_depth_le m l) Hle k _ Hv). lia.
    + pose proof (proj1 (store_items_returns _ _ _) Hst) as Hret.
      split.
      * apply constructible_dict. split; [done|]. intros k v Hv.
        destruct (Hret k v Hv) as [w Hw].
        destruct v as [| | | | |d|d]; try done.
        rewrite bind_value_dict in Hw. specialize (IHl d).
        destruct (MyArgs_init l d); [done|]. by destruct IHl.
      * apply dict_depth_le. intros k v Hv.
        destruct (Hret k v Hv) as [w Hw].
        destruct v as [| | | | |d|d]; try (simpl; lia).
        rewrite bind_value_dict in Hw. specialize (IHl d).
        destruct (MyArgs_init l d); [done|]. by destruct IHl.
Qed.

(** X2: the constructor returns exactly on the mappings whose keys, at
    every level, are keyword names other than [self] and which are nested
    no deeper than the calls that the interpreter allows; when it raises,
    the exception is [TypeError], and then some key is no such name, or it
    is [RecursionError], and then the mapping is nested deeper. *)
Theorem MyArgs_init_raises (limit : nat) (m : pydict) :
  ((∃ self, MyArgs_init limit m = inr self) ↔
   constructible (VDict m) = true ∧ dict_depth (VDict m) ≤ limit) ∧
  (∀ e, MyArgs_init limit m = inl e →
        (e = TypeError ∧ constructible (VDict m) = false) ∨
        (e = RecursionError ∧ limit < dict_depth (VDict m))).
Proof.
  pose proof (MyArgs_init_cases limit m) as Hc.
  destruct (MyArgs_init limit m) as [e|self].
  - split.
    + split; [by intros [? ?]|]. intros [Hcon Hd].
      destruct Hc as [[_ Hc]|[_ Hc]]; [congruence|lia].
    + by intros e' [= <-].
  - split; [|done]. split; [done|]. intros _. by exists self.
Qed.

Lemma MyArgs_init_raises_witness :
  (∃ self, MyArgs_init 3 sample_args = inr self) ∧
  ¬ (∃ self, MyArgs_init 3 int_keyed = inr self) ∧
  ¬ (∃ self, MyArgs_init 2 sample_args = inr self).
Proof.
  split; [|split].
  - apply (proj1 (MyArgs_init_raises 3 sample_args)).
    split; [vm_compute; reflexivity|vm_compute; lia].
  - intros Hret.
    apply (proj1 (MyArgs_init_raises 3 int_keyed)) in Hret as [Hc _].
    vm_compute in Hc. discriminate Hc.
  - intros Hret.
    apply (proj1 (MyArgs_init_raises 2 sample_args)) in Hret as [_ Hd].
    vm_compute in Hd. lia.
Defined.

(** The outcome of [to_argdict]. *)
Lemma to_argdict_cases (limit : nat) : ∀ self,
  match to_argdict limit self with
  | inr _ => all_exportable self = true ∧ args_depth (VArgs self) ≤ limit
  | inl e =>
      (e = TypeError ∧ all_exportable self = false) ∨
      (e = RecursionError ∧ limit < args_depth (VArgs self))
  end.
Proof.
  induction limit as [|l IHl]; intros self.
  - cbn [to_argdict]. right. split; [done|apply args_depth_pos].
  - rewrite to_argdict_S.
    destruct (export_items (export_value l) self) as [e|m] eqn:Hex.
    + destruct (export_items_raises _ _ _ Hex) as (k & v & Hv & Hb).
      destruct v as [| | | | |d|d]; try done.
      rewrite export_value_args in Hb. specialize (IHl d).
      assert (Hbad : exportable (VArgs d) = false →
                all_exportable self = false).
      { intros Hx. apply not_true_is_false. rewrite all_exportable_spec.
        intros Hall. rewrite (Hall k _ Hv) in Hx. done. }
      destruct (shadowed "to_argdict" d) eqn:Hs.
      { injection Hb as <-. left. split; [done|]. apply Hbad.
        apply not_true_is_false. rewrite exportable_args.
        intros [Hs' _]. congruence. }
      destruct (to_argdict l d) as [e'|a]; [|done]. injection Hb as ->.
      destruct IHl as [[-> Hc]|[-> Hd]].
      * left. split; [done|]. apply Hbad. apply not_true_is_false.
        rewrite exportable_args. intros [_ Hx]. congruence.
      * right. split; [done|]. apply Nat.lt_nge. intros Hle.
        pose proof (proj1 (args_depth_le self l) Hle k _ Hv). lia.
    + pose proof (export_items_returns _ _ _ Hex) as Hret.
      split.
      * apply all_exportable_spec. intros k v Hv.
        destruct (Hret k v Hv) as [w Hw].
        destruct v as [| | | | |d|d]; try done.
        rewrite export_value_args in Hw. specialize (IHl d).
        apply exportable_args.
        destruct (shadowed "to_argdict" d); [done|].
        destruct (to_argdict l d); [done|]. by destruct IHl.
      * apply args_depth_le. intros k v Hv.
        destruct (Hret k v Hv) as [w Hw].
        destruct v as [| | | | |d|d]; try (simpl; lia).
        rewrite export_value_args in Hw. specialize (IHl d).
        destruct (shadowed "to_argdict" d); [done|].
        destruct (to_argdict l d); [done|]. by destruct IHl.
Qed.

(** X21: [to_argdict] returns exactly on the instances in which no
    instance that is an attribute, at any level, has an attribute named
    [to_argdict], and which are nested no deeper than the calls that the
    interpreter allows; when it raises, the exception is [TypeError], and
    then some nested instance has such an attribute, or it is
    [RecursionError], and then the instance is nested deeper. *)
Theorem to_argdict_raises (limit : nat) (self : pydict) :
  ((∃ m, to_argdict limit self = inr m) ↔
   all_exportable self = true ∧ args_depth (VArgs self) ≤ limit) ∧
  (∀ e, to_argdict limit self = inl e →
        (e = TypeError ∧ all_exportable self = false) ∨
        (e = RecursionError ∧ limit < args_depth (VArgs self))).
Proof.
  pose proof (to_argdict_cases limit self) as Hc.
  destruct (to_argdict limit self) as [e|m].
  - split.
    + split; [by intros [? ?]|]. intros [Hcon Hd].
      destruct Hc as [[_ Hc]|[_ Hc]]; [congruence|lia].
    + by intros e' [= <-].
  - split; [|done]. split; [done|]. intros _. by exists m.
Qed.

Lemma to_argdict_raises_witness :
  (∃ m, to_argdict 2 sample_self = inr m) ∧
  ¬ (∃ m, to_argdict 1 sample_self = inr m) ∧
  ¬ (∃ m, to_argdict 2
            {[ KStr "model" := VArgs {[ KStr "to_argdict" := VInt 1 ]} ]}
          = inr m).
Proof.
  split; [|split].
  - apply (proj1 (to_argdict_raises 2 sample_self)).
    split; [vm_compute; reflexivity|vm_compute; lia].
  - intros Hret.
    apply (proj1 (to_argdict_raises 1 sample_self)) in Hret as [_ Hd].
    vm_compute in Hd. lia.
  - intros Hret.
    apply (proj1 (to_argdict_raises 2 _)) in Hret as [Hc _].
    vm_compute in Hc. discriminate Hc.
Defined.

(** X3: when every value of the incoming mapping is plain, no mapping in
    it has the key [to_argdict] and it is nested no deeper than the calls
    allowed, [load_argdict] returns on an instance that [to_argdict]
    exports, and [to_argdict] afterwards gives the incoming mapping over
    what it gave before: the incoming entries come back as they were given,
    and the other entries are exported as before. *)
Theorem to_argdict_load_argdict (limit limit' : nat)
    (self argdict old : pydict) :
  plain_values argdict = true →
  unshadowed (VDict argdict) = true →
  dict_depth (VDict argdict) ≤ S limit →
  dict_depth (VDict argdict) ≤ limit' →
  to_argdict limit' self = inr old →
  ∃ self', load_argdict limit self argdict = (self', None) ∧
    self' !! KStr "to_argdict" = self !! KStr "to_argdict" ∧
    to_argdict limit' self' = inr (argdict ∪ old).
Proof.
  intros Hp0 Hu Hl Hl' Hold.
  pose proof (proj1 (plain_values_spec _) Hp0) as Hp.
  apply unshadowed_dict in Hu as [Hs Hus].
  pose proof (dict_depth_pos argdict) as Hpos.
  destruct limit' as [|l']; [lia|].
  pose proof (proj1 (dict_depth_le argdict limit) Hl) as Hdl.
  pose proof (proj1 (dict_depth_le argdict l') Hl') as Hdl'.
  assert (Hb : ∀ k v, argdict !! k = Some v →
            bind_value limit v = inr (bound limit v) ∧
            export_value l' (bound limit v) = inr v)
    by (intros k v Hv; apply bind_export; eauto).
  rewrite to_argdict_S in Hold.
  pose proof (export_items_returns _ _ _ Hold) as Hret.
  assert (Hself : ∀ k v, self !! k = Some v →
            export_value l' v = inr (exported l' v)).
  { intros k v Hv. destruct (Hret k v Hv) as [w Hw].
    unfold exported. by rewrite Hw. }
  rewrite (export_items_ok _ (exported l') self Hself) in Hold.
  injection Hold as <-.
  exists ((bound limit <$> argdict) ∪ self). split; [|split].
  - apply store_items_ok. intros k v Hv. by apply (Hb k v).
  - apply shadowed_false in Hs.
    rewrite lookup_union_r; [done|]. by rewrite lookup_fmap, Hs.
  - rewrite to_argdict_S, (export_items_ok _ (exported l')).
    + f_equal. rewrite map_fmap_union. f_equal.
      rewrite <-map_fmap_compose. rewrite <-(map_fmap_id argdict) at 2.
      apply map_fmap_ext. intros k v Hv. simpl. unfold exported.
      by destruct (Hb k v Hv) as [_ ->].
    + intros k v Hkv. apply lookup_union_Some_raw in Hkv as [Hkv|[_ Hkv]].
      * rewrite lookup_fmap in Hkv.
        destruct (argdict !! k) as [v'|] eqn:Hd; [|done].
        injection Hkv as <-. unfold exported.
        by destruct (Hb k v' Hd) as [_ ->].
      * by apply (Hself k v).
Qed.

Lemma to_argdict_load_argdict_witness :
  ∃ self', load_argdict 2 sample_self sample_args = (self', None) ∧
    to_argdict 3 self'
    = inr (sample_args ∪ {[ KStr "lr" := VInt 1; KStr "seed" := VInt 7;
                            KStr "model" := VDict {[ KStr "depth" := VInt 50;
                                                     KStr "dropout" := VInt 0 ]} ]}).
Proof.
  destruct (to_argdict_load_argdict 2 3 sample_self sample_args
              {[ KStr "lr" := VInt 1; KStr "seed" := VInt 7;
                 KStr "model" := VDict {[ KStr "depth" := VInt 50;
                                          KStr "dropout" := VInt 0 ]} ]})
    as (self' & Hrun & _ & Hexp).
  - vm_compute. reflexivity.
  - vm_compute. reflexivity.
  - vm_compute. lia.
  - vm_compute. lia.
  - reflexivity.
  - exists self'. split; [exact Hrun|exact Hexp].
Defined.

(** An instance of the shape that the constructor builds, without the
    attribute [to_argdict] at any level and nested no deeper than the calls
    allowed, is exported to a plain value, from which the constructor
    builds it again. *)
Lemma export_bind (v : pyval) : ∀ l l',
  container v = true → unshadowed v = true →
  args_depth v ≤ l → args_depth v ≤ l' →
  export_value l v = inr (exported l v) ∧
  plain_value (exported l v) = true ∧
  bind_value l' (exported l v) = inr v.
Proof.
  induction v as [v IHv] using pyval_size_ind. intros l l' Hv Hu Hl Hl'.
  destruct v as [| | | | |d|d]; try done.
  pose proof (args_depth_pos d) as Hpos.
  destruct l as [|l]; [lia|]. destruct l' as [|l']; [lia|].
  apply container_args in Hv as [Hk Hall].
  apply unshadowed_args in Hu as [Hs Hus].
  pose proof (proj1 (args_depth_le d l) Hl) as Hdl.
  pose proof (proj1 (args_depth_le d l') Hl') as Hdl'.
  assert (Hsize : ∀ k v, d !! k = Some v → pv_size v < pv_size (VArgs d))
    by (intros k v Hkv; by apply (pv_size_lookup d k v)).
  assert (IH : ∀ k v, d !! k = Some v →
            export_value l v = inr (exported l v) ∧
            plain_value (exported l v) = true ∧
            bind_value l' (exported l v) = inr v).
  { intros k v Hkv. apply IHv; eauto. }
  assert (Hex : export_value (S l) (VArgs d)
                = inr (VDict (exported l <$> d))).
  { rewrite export_value_args, Hs, to_argdict_S.
    rewrite (export_items_ok _ (exported l)); [done|].
    intros k v Hkv. by apply (IH k v). }
  unfold exported at 1 2 3. rewrite Hex. split; [done|]. split.
  - apply plain_value_dict. split; [by rewrite kwargs_ok_fmap|].
    intros k v. rewrite lookup_fmap.
    destruct (d !! k) as [v'|] eqn:Hd; [|done]. intros [= <-].
    by apply (IH k v').
  - rewrite bind_value_dict, MyArgs_init_S, kwargs_ok_fmap, Hk.
    rewrite (init_body_ok _ (bound l')).
    + f_equal. f_equal. rewrite <-map_fmap_compose.
      rewrite <-(map_fmap_id d) at 2. apply map_fmap_ext.
      intros k v Hd. simpl. unfold bound.
      by destruct (IH k v Hd) as (_ & _ & ->).
    + intros k v. rewrite lookup_fmap.
      destruct (d !! k) as [v'|] eqn:Hd; [|done]. intros [= <-].
      unfold bound. by destruct (IH k v' Hd) as (_ & _ & ->).
Qed.

(** What the constructor builds from a plain value is of that shape. *)
Lemma bound_container (v : pyval) : ∀ l w,
  plain_value v = true → bind_value l v = inr w → container w = true.
Proof.
  induction v as [v IHv] using pyval_size_ind. intros l w Hv Hb.
  destruct v as [| | | | |d|d]; try (by injection Hb as <-); try done.
  apply plain_value_dict in Hv as [Hk Hall].
  rewrite bind_value_dict in Hb. destruct l as [|l].
  { cbn [MyArgs_init] in Hb. by rewrite Hk in Hb. }
  rewrite MyArgs_init_S, Hk, init_body_cases in Hb.
  destruct ((store_items (bind_value l) d ∅).2) eqn:Hst; [done|].
  pose proof (proj1 (store_items_returns _ _ _) Hst) as Hret.
  assert (Hbd : ∀ k v, d !! k = Some v →
            bind_value l v = inr (bound l v)).
  { intros k v Hkv. destruct (Hret k v Hkv) as [w' Hw'].
    unfold bound. by rewrite Hw'. }
  rewrite (store_items_ok _ (bound l) d ∅ Hbd) in Hb. simpl in Hb.
  injection Hb as <-. rewrite (right_id_L ∅ (∪)).
  apply container_args. split; [by rewrite kwargs_ok_fmap|].
  intros k v. rewrite lookup_fmap.
  destruct (d !! k) as [v'|] eqn:Hdk; [|done]. intros [= <-].
  apply (IHv v') with l; eauto using pv_size_lookup.
Qed.

(** X4: an instance whose attributes have keyword names other than
    [to_argdict] and are leaves or such instances (no dictionaries), nested
    no deeper than the calls allowed, is exported by [to_argdict] to a
    plain mapping from which the constructor builds the same instance
    again; the instances that the constructor builds from plain mappings
    have keyword names as attributes, which are leaves or such
    instances. *)
Theorem MyArgs_init_to_argdict (limit limit' : nat) (self : pydict) :
  (container (VArgs self) = true →
   unshadowed (VArgs self) = true →
   args_depth (VArgs self) ≤ limit →
   args_depth (VArgs self) ≤ limit' →
   ∃ m, to_argdict limit self = inr m ∧
     plain_mapping m = true ∧
     MyArgs_init limit' m = inr self) ∧
  (∀ m, plain_mapping m = true → MyArgs_init limit m = inr self →
        container (VArgs self) = true).
Proof.
  split.
  - intros Hc Hu Hl Hl'.
    destruct (export_bind (VArgs self) limit limit' Hc Hu Hl Hl')
      as (Hex & Hp & Hb).
    apply unshadowed_args in Hu as [Hs _].
    unfold exported in Hp, Hb. rewrite export_value_args, Hs in Hex, Hp, Hb.
    destruct (to_argdict limit self) as [e|m]; [done|].
    exists m. split; [done|]. split; [done|].
    rewrite bind_value_dict in Hb.
    destruct (MyArgs_init limit' m); [done|]. by injection Hb as ->.
  - intros m Hm Hinit.
    apply (bound_container (VDict m) limit); [done|].
    by rewrite bind_value_dict, Hinit.
Qed.

Lemma MyArgs_init_to_argdict_witness :
  ∃ m, to_argdict 2 sample_self = inr m ∧ MyArgs_init 2 m = inr sample_self.
Proof.
  destruct (proj1 (MyArgs_init_to_argdict 2 2 sample_self))
    as (m & Hex & _ & Hinit).
  - vm_compute. reflexivity.
  - vm_compute. reflexivity.
  - vm_compute. lia.
  - vm_compute. lia.
  - exists m. split; [exact Hex|exact Hinit].
Defined.

Lemma all_bind_union (limit : nat) (m1 m2 : pydict) :
  all_bind limit m1 = true → all_bind limit m2 = true →
  all_bind limit (m2 ∪ m1) = true.
Proof.
  rewrite !all_bind_spec. intros H1 H2 k v Hk.
  apply lookup_union_Some_raw in Hk as [Hk|[_ Hk]]; eauto.
Qed.

(** X5: two calls of [load_argdict] in a row, neither raising, leave what
    one call with the second mapping laid over the first leaves: where both
    mappings have a key the later call wins; and a call repeated with the
    same mapping changes nothing more. *)
Theorem load_argdict_twice (limit : nat) (self m1 m2 : pydict) :
  all_bind limit m1 = true → all_bind limit m2 = true →
  load_argdict limit (load_argdict limit self m1).1 m2
  = load_argdict limit self (m2 ∪ m1) ∧
  load_argdict limit (load_argdict limit self m1).1 m1
  = load_argdict limit self m1.
Proof.
  intros H1 H2. pose proof (all_bind_union limit m1 m2 H1 H2) as H21.
  pose proof (proj1 (all_bind_spec _ _) H1) as Hb1.
  pose proof (proj1 (all_bind_spec _ _) H2) as Hb2.
  pose proof (proj1 (all_bind_spec _ _) H21) as Hb21.
  unfold load_argdict.
  rewrite (store_items_ok _ (bound limit) m1 self Hb1). simpl.
  rewrite (store_items_ok _ (bound limit) m2 _ Hb2).
  rewrite (store_items_ok _ (bound limit) m1 _ Hb1).
  rewrite (store_items_ok _ (bound limit) (m2 ∪ m1) self Hb21).
  split; f_equal.
  - by rewrite map_fmap_union, (assoc_L (∪)).
  - by rewrite (assoc_L (∪)), (idemp_L (∪)).
Qed.

Lemma load_argdict_twice_witness :
  all_bind 3 sample_args = true ∧ all_bind 3 sample_self = true ∧
  load_argdict 3 (load_argdict 3 ∅ sample_args).1 sample_self
  = load_argdict 3 ∅ (sample_self ∪ sample_args).
Proof.
  assert (H1 : all_bind 3 sample_args = true) by (vm_compute; reflexivity).
  assert (H2 : all_bind 3 sample_self = true) by (vm_compute; reflexivity).
  split; [exact H1|]. split; [exact H2|].
  exact (proj1 (load_argdict_twice 3 ∅ sample_args sample_self H1 H2)).
Defined.

(** X6: whatever its outcome, [load_argdict] removes no attribute and adds
    none but keys of the incoming mapping; when it returns, the attributes
    are those it had together with the keys of the incoming mapping. *)
Theorem load_argdict_keys (limit : nat) (self argdict : pydict) :
  dom self ⊆ dom (load_argdict limit self argdict).1 ∧
  dom (load_argdict limit self argdict).1 ⊆ dom self ∪ dom argdict ∧
  ((load_argdict limit self argdict).2 = None →
   dom (load_argdict limit self argdict).1 = dom argdict ∪ dom self).
Proof.
  split; [|split].
  - unfold load_argdict, store_items.
    apply (map_fold_weak_ind (λ r m, dom self ⊆ dom r.1)); [done|].
    intros i x m [self' [e|]] Hi IHm; simpl in *; [done|].
    destruct (bind_value limit x); simpl; [done|]. rewrite dom_insert_L.
    etrans; [exact IHm|]. apply union_subseteq_r.
  - unfold load_argdict, store_items.
    apply (map_fold_weak_ind (λ r m, dom r.1 ⊆ dom self ∪ dom m)).
    + simpl. apply union_subseteq_l.
    + intros i x m [self' [e|]] Hi IHm; simpl in *; rewrite dom_insert_L.
      * etrans; [exact IHm|]. apply union_mono_l, union_subseteq_r.
      * destruct (bind_value limit x); simpl.
        -- etrans; [exact IHm|]. apply union_mono_l, union_subseteq_r.
        -- rewrite dom_insert_L. apply union_least.
           ++ etrans; [apply union_subseteq_l|apply union_subseteq_r].
           ++ etrans; [exact IHm|]. apply union_mono_l, union_subseteq_r.
  - intros Hret. unfold load_argdict in *.
    pose proof (proj1 (store_items_returns _ _ _) Hret) as Hall.
    assert (Hb : ∀ k v, argdict !! k = Some v →
              bind_value limit v = inr (bound limit v)).
    { intros k v Hv. destruct (Hall k v Hv) as [w Hw].
      unfold bound. by rewrite Hw. }
    rewrite (store_items_ok _ (bound limit) argdict self Hb). simpl.
    by rewrite dom_union_L, dom_fmap_L.
Qed.

Lemma load_argdict_keys_witness :
  (load_argdict 3 sample_self sample_args).2 = None ∧
  dom (load_argdict 3 sample_self sample_args).1
  = dom sample_args ∪ dom sample_self.
Proof.
  assert (Hret : (load_argdict 3 sample_self sample_args).2 = None)
    by (vm_compute; reflexivity).
  split; [exact Hret|].
  exact (proj2 (proj2 (load_argdict_keys 3 sample_self sample_args)) Hret).
Defined.

(** * More on the listing *)

Lemma insert_by_epoch_filter (c : string * Z) (l : list (string * Z)) (n : Z) :
  filter (λ a, a.2 = n) (insert_by_epoch c l)
  = filter (λ a, a.2 = n) (c :: l).
Proof.
  induction l as [|c' l IHl]; [done|]. cbn [insert_by_epoch].
  destruct (Z.leb_spec c.2 c'.2) as [Hle|Hlt]; [done|].
  rewrite filter_cons, IHl, !filter_cons.
  destruct (decide (c'.2 = n)), (decide (c.2 = n)); try done. lia.
Qed.

Lemma sort_by_epoch_filter (l : list (string * Z)) (n : Z) :
  filter (λ a, a.2 = n) (sort_by_epoch l) = filter (λ a, a.2 = n) l.
Proof.
  induction l as [|c l IHl]; [done|]. cbn [sort_by_epoch foldr].
  rewrite insert_by_epoch_filter, !filter_cons. fold (sort_by_epoch l).
  by rewrite IHl.
Qed.

Lemma entries_filter_names (names : list string) (suffix : string) (n : Z) :
  (filter (λ a, a.2 = n) (omap (entry suffix) names)).*1
  = filter (λ x, epoch_of suffix x = Some n)
      (filter (λ x, selected suffix x = true) names).
Proof.
  induction names as [|x names IHn]; [done|].
  cbn [omap list_omap]. unfold entry at 1.
  destruct (selected suffix x) eqn:Hs.
  - rewrite (filter_cons_True (λ x, selected suffix x = true)) by done.
    rewrite (filter_cons (λ x, epoch_of suffix x = Some n)).
    destruct (epoch_of suffix x) as [m|] eqn:He; cbn [fmap option_fmap option_map].
    + rewrite filter_cons. cbn [snd].
      destruct (decide (m = n)) as [->|Hne].
      * rewrite decide_True by done. cbn [fmap list_fmap fst]. f_equal. exact IHn.
      * rewrite decide_False by congruence. exact IHn.
    + rewrite decide_False by done. exact IHn.
  - rewrite (filter_cons_False (λ x, selected suffix x = true)) by congruence.
    exact IHn.
Qed.

(** X7: the sort of the listing is stable: the files that have the same
    number are listed in the order in which [os.listdir] returned them. *)
Theorem namelist_of_stable (names : list string) (suffix : string)
    (ckpts : list (string * Z)) (n : Z) :
  namelist_of names suffix = inr ckpts →
  filter (λ a, a.2 = n) ckpts
  = filter (λ a, a.2 = n) (omap (entry suffix) names) ∧
  (filter (λ a, a.2 = n) ckpts).*1
  = filter (λ x, epoch_of suffix x = Some n)
      (filter (λ x, selected suffix x = true) names).
Proof.
  intros Hrun. apply namelist_of_inr in Hrun as [-> Hall].
  rewrite sort_by_epoch_filter. split; [done|]. apply entries_filter_names.
Qed.

Lemma namelist_of_stable_witness :
  namelist_of ["07_checkpoint.pt"; "9_checkpoint.pt"; "7_checkpoint.pt";
               "+7_checkpoint.pt"] "_checkpoint.pt"
  = inr [("07_checkpoint.pt", 7%Z); ("7_checkpoint.pt", 7%Z);
         ("+7_checkpoint.pt", 7%Z); ("9_checkpoint.pt", 9%Z)] ∧
  (filter (λ a, a.2 = 7%Z)
     [("07_checkpoint.pt", 7%Z); ("7_checkpoint.pt", 7%Z);
      ("+7_checkpoint.pt", 7%Z); ("9_checkpoint.pt", 9%Z)]).*1
  = filter (λ x, epoch_of "_checkpoint.pt" x = Some 7%Z)
      (filter (λ x, selected "_checkpoint.pt" x = true)
         ["07_checkpoint.pt"; "9_checkpoint.pt"; "7_checkpoint.pt";
          "+7_checkpoint.pt"]).
Proof.
  assert (Hrun : namelist_of ["07_checkpoint.pt"; "9_checkpoint.pt";
                              "7_checkpoint.pt"; "+7_checkpoint.pt"]
                   "_checkpoint.pt"
                 = inr [("07_checkpoint.pt", 7%Z); ("7_checkpoint.pt", 7%Z);
                        ("+7_checkpoint.pt", 7%Z); ("9_checkpoint.pt", 9%Z)])
    by (vm_compute; reflexivity).
  split; [exact Hrun|].
  exact (proj2 (namelist_of_stable _ _ _ 7%Z Hrun)).
Defined.

(** Two results of [os.listdir] with the same selected names give the same
    list, when the list has no ties. *)
Lemma namelist_of_same_names (suffix : string) (names names' : list string)
    (ckpts : list (string * Z)) :
  NoDup names → NoDup names' →
  (∀ x, selected suffix x = true → (x ∈ names ↔ x ∈ names')) →
  namelist_of names suffix = inr ckpts →
  ascending ckpts →
  namelist_of names' suffix = inr ckpts.
Proof.
  intros Hnd Hnd' Hsame Hrun Hasc.
  pose proof (namelist_of_inr _ _ _ Hrun) as [Hl Hall].
  rewrite namelist_of_ok.
  - f_equal. apply sorted_ascending_unique; [done|apply sort_by_epoch_sorted|].
    rewrite sort_by_epoch_perm, Hl, sort_by_epoch_perm.
    apply NoDup_Permutation; [by apply NoDup_entries..|].
    intros [x n]. rewrite !elem_of_entries.
    split; intros (Hx & Hs & He); (split; [by apply (Hsame x Hs)|done]).
  - intros x Hx [Hs He]. apply (Hall x); [|done]. by apply (Hsame x Hs).
Qed.

Section listing_more.
Context {B : Type}.
Implicit Types w : ckptdir B.

(** Two directories with the same selected names have the same listing,
    when the listing has no ties. *)
Lemma namelist_same_names (suffix : string) w w'
    (ckpts : list (string * Z)) :
  (∀ x, selected suffix x = true →
        (is_Some (files w !! x) ↔ is_Some (files w' !! x))) →
  namelist_of (listing w) suffix = inr ckpts →
  ascending ckpts →
  namelist_of (listing w') suffix = inr ckpts.
Proof.
  intros Hsame Hrun Hasc.
  apply (namelist_of_same_names suffix (listing w)); auto using NoDup_listing.
  intros x Hs. rewrite !elem_of_listing. by apply Hsame.
Qed.

(** X8: the list that [fetch_ckpt_namelist] builds depends only on which
    selected names [os.listdir] returns, as long as no two listed files
    have the same number: when it builds [ckpts] from the names [names], it
    builds [ckpts] from every list [names'] that has the same selected
    names, in whatever order and with whatever other names, and it returns
    [ckpts] on every directory that has these selected names, whatever the
    content of its files. *)
Theorem fetch_ckpt_namelist_names (suffix : string) (names : list string)
    (ckpts : list (string * Z)) :
  NoDup names →
  namelist_of names suffix = inr ckpts →
  ascending ckpts →
  (∀ names', NoDup names' →
     (∀ x, selected suffix x = true → (x ∈ names ↔ x ∈ names')) →
     namelist_of names' suffix = inr ckpts) ∧
  (∀ w, (∀ x, selected suffix x = true →
              (x ∈ names ↔ is_Some (files w !! x))) →
        fetch_ckpt_namelist suffix w = (w, inr ckpts)).
Proof.
  intros Hnd Hrun Hasc. split.
  - intros names' Hnd' Hsame.
    by apply (namelist_of_same_names suffix names).
  - intros w Hsame. rewrite fetch_ckpt_namelist_unfold. f_equal.
    apply (namelist_of_same_names suffix names); auto using NoDup_listing.
    intros x Hs. rewrite elem_of_listing. by apply Hsame.
Qed.

End listing_more.

Lemma fetch_ckpt_namelist_names_witness :
  namelist_of ["notes.txt"; "12_checkpoint.pt"; "best_checkpoint.pt";
               "3_checkpoint.pt"] "_checkpoint.pt"
  = inr [("3_checkpoint.pt", 3%Z); ("12_checkpoint.pt", 12%Z)].
Proof.
  apply (proj1 (fetch_ckpt_namelist_names (B:=unit) "_checkpoint.pt"
                  ["3_checkpoint.pt"; "12_checkpoint.pt"]
                  [("3_checkpoint.pt", 3%Z); ("12_checkpoint.pt", 12%Z)]
                  ltac:(apply (bool_decide_unpack (NoDup _)); vm_compute; exact I)
                  ltac:(vm_compute; reflexivity)
                  ltac:(repeat constructor; unfold epoch_lt; simpl; lia))).
  - apply (bool_decide_unpack (NoDup _)). vm_compute. exact I.
  - intros x Hs. rewrite !elem_of_cons, !elem_of_nil.
    split; intros Hx; repeat destruct Hx as [Hx|Hx]; subst;
      try (vm_compute in Hs; discriminate); try done; eauto 6.
Defined.

(** * More on [get_last_ckpt] *)

Section get_last_ckpt_more.
Context {Loss MS OS SS Device : Type}.
Local Abbreviation ckpt := (@ckptdict Loss MS OS SS).
Implicit Types w : ckptdir ckpt.

(** [get_last_ckpt] without [specify], on a listing that succeeds. *)
Lemma get_last_ckpt_listed (device : Device) (suffix : string) w ckpts :
  namelist_of (listing w) suffix = inr ckpts →
  get_last_ckpt device suffix None w =
  (w, inr (LastBest (last ckpts ≫= λ c, files w !! c.1)
             (files w !! ("best" +:+ suffix)))).
Proof.
  intros Hrun. unfold get_last_ckpt.
  unfold io_bind at 1. unfold io_bind at 1.
  rewrite fetch_ckpt_namelist_unfold, Hrun.
  destruct (last ckpts) as [[x n]|] eqn:Hlast.
  - assert (Hin : (x, n) ∈ ckpts) by by apply last_Some_elem_of.
    apply (elem_of_namelist suffix w ckpts x n Hrun) in Hin as ([c Hc] & _).
    unfold io_bind at 1. unfold torch_load at 1. simpl. rewrite Hc.
    unfold io_ret at 1. by rewrite read_best.
  - unfold io_ret at 1. by rewrite read_best.
Qed.

(** X9: without [specify], when the directory has numbered files and
    their listing succeeds, the last checkpoint that [get_last_ckpt]
    returns is the content of a listed file whose number no other listed
    file exceeds. *)
Theorem get_last_ckpt_latest (device : Device) (suffix : string) w ckpts :
  fetch_ckpt_namelist suffix w = (w, inr ckpts) → ckpts ≠ [] →
  ∃ x n c, (x, n) ∈ ckpts ∧ files w !! x = Some c ∧
    get_last_ckpt device suffix None w =
    (w, inr (LastBest (Some c) (files w !! ("best" +:+ suffix)))) ∧
    ∀ y m, (y, m) ∈ ckpts → (m ≤ n)%Z.
Proof.
  intros Hfetch Hne. rewrite fetch_ckpt_namelist_unfold in Hfetch.
  assert (Hrun : namelist_of (listing w) suffix = inr ckpts) by congruence.
  destruct (last ckpts) as [[x n]|] eqn:Hlast;
    [|by apply last_None in Hlast].
  assert (Hin : (x, n) ∈ ckpts) by by apply last_Some_elem_of.
  pose proof (proj1 (elem_of_namelist suffix w ckpts x n Hrun) Hin)
    as ([c Hc] & _).
  exists x, n, c. split; [done|]. split; [done|]. split.
  - rewrite (get_last_ckpt_listed device suffix w ckpts Hrun), Hlast.
    simpl. by rewrite Hc.
  - intros y m Hy. apply last_Some in Hlast as [l' ->].
    pose proof (namelist_of_inr _ _ _ Hrun) as [Hl _].
    pose proof (sort_by_epoch_sorted (omap (entry suffix) (listing w)))
      as Hs%Sorted_StronglySorted; [|apply _].
    rewrite <-Hl in Hs.
    apply elem_of_app in Hy as [Hy|Hy].
    + assert (Hx : (x, n) ∈ [(x, n)]) by by left.
      exact (StronglySorted_app_1_elem_of _ _ _ (y, m) (x, n) Hs Hy Hx).
    + apply list_elem_of_singleton in Hy. by injection Hy as -> ->.
Qed.

End get_last_ckpt_more.

Lemma get_last_ckpt_latest_witness :
  ∃ x n c, (x, n) ∈ [("3_checkpoint.pt", 3%Z); ("12_checkpoint.pt", 12%Z)] ∧
    files (sample_dir [12; 3]%Z) !! x = Some c ∧
    get_last_ckpt tt "_checkpoint.pt" None (sample_dir [12; 3]%Z) =
    (sample_dir [12; 3]%Z,
     inr (LastBest (Some c)
            (files (sample_dir [12; 3]%Z) !! "best_checkpoint.pt"))) ∧
    ∀ y m, (y, m) ∈ [("3_checkpoint.pt", 3%Z); ("12_checkpoint.pt", 12%Z)] →
           (m ≤ n)%Z.
Proof.
  apply (get_last_ckpt_latest tt "_checkpoint.pt" (sample_dir [12; 3]%Z)
           [("3_checkpoint.pt", 3%Z); ("12_checkpoint.pt", 12%Z)]).
  - run_listing.
  - discriminate.
Defined.
(** * More on [save_ckpt] *)

Section save_ckpt_more.
Context {Loss MS OS SS Model Optimizer Scheduler : Type}.
Context `{!StateExport Model MS, !StateExport Optimizer OS,
          !StateExport Scheduler SS}.
Local Abbreviation ckpt := (@ckptdict Loss MS OS SS).
Local Abbreviation call := (@save_call Loss Model Optimizer Scheduler).
Implicit Types (w : ckptdir ckpt) (c : call).

(** The outcome of a call, from the listing after the write. *)
Lemma save_call_cases suffix (max_to_keep : Z) c w :
  let w1 := written (record_of c) (sc_prefix c +:+ suffix) w in
  (∃ x, is_Some (files w1 !! x) ∧ unreadable suffix x ∧
        save_call_run suffix max_to_keep c w = (w1, inl ValueError)) ∨
  (∃ ckpts, namelist_of (listing w1) suffix = inr ckpts ∧
     (∀ x, is_Some (files w1 !! x) → ¬ unreadable suffix x) ∧
     save_call_run suffix max_to_keep c w =
     (Ckptdir (remove_all (rotated_out ckpts max_to_keep).*1 (files w1))
        (events w1 ++ (EvRemove <$> (rotated_out ckpts max_to_keep).*1)),
      inr (record_of c))).
Proof.
  intros w1.
  destruct (namelist_of_cases suffix (listing w1))
    as [(x & Hx & Hbad & Hrun)|[Hall Hrun]].
  - left. exists x. split; [by apply elem_of_listing|]. split; [done|].
    by apply save_ckpt_raise.
  - right. eexists. split; [exact Hrun|]. split.
    + intros x Hx. by apply Hall, elem_of_listing.
    + by apply save_ckpt_run.
Qed.

Lemma rotated_out_selected suffix w ckpts (max_to_keep : Z) (x : string) :
  namelist_of (listing w) suffix = inr ckpts →
  x ∈ (rotated_out ckpts max_to_keep).*1 →
  selected suffix x = true ∧ is_Some (files w !! x).
Proof.
  intros Hrun Hin. apply list_elem_of_fmap in Hin as ([y n] & -> & Hin).
  rewrite rotated_out_take in Hin.
  apply elem_of_take in Hin as (i & Hi & _).
  apply list_elem_of_lookup_2 in Hi.
  by apply (elem_of_namelist suffix _ _ _ _ Hrun) in Hi as (? & ? & _).
Qed.

(** X12: whatever its outcome, [save_ckpt] leaves every file alone whose
    name is not selected by the listing (it does not end in the suffix, or
    starts with [best]) and is not the name it writes; a file that is gone
    after the call had a selected name. *)
Theorem save_ckpt_frame (epoch : Z) (best_valid_loss : Loss)
    (best_valid_epoch : Z) (model : Model) (optimizer : Optimizer)
    (scheduler : Scheduler) (prefix suffix : string) (max_to_keep : Z) w
    (x : string) :
  let record :=
    Ckptdict epoch best_valid_loss best_valid_epoch (state_dict model)
      (state_dict optimizer) (state_dict scheduler) in
  let run := save_ckpt epoch best_valid_loss best_valid_epoch model optimizer
               scheduler prefix suffix max_to_keep w in
  (selected suffix x = false → x ≠ prefix +:+ suffix →
   files run.1 !! x = files w !! x) ∧
  (is_Some (<[prefix +:+ suffix := record]> (files w) !! x) →
   files run.1 !! x = None → selected suffix x = true).
Proof.
  intros record run.
  set (c := SaveCall epoch best_valid_loss best_valid_epoch model optimizer
              scheduler prefix).
  change run with (save_call_run suffix max_to_keep c w).
  destruct (save_call_cases suffix max_to_keep c w)
    as [(y & _ & _ & ->)|(ckpts & Hrun & _ & ->)]; simpl.
  - split.
    + intros _ Hne. by rewrite lookup_insert_ne.
    + intros [b Hb] Hnone.
      assert (Hbad : Some b = None) by (rewrite <-Hb; exact Hnone). done.
  - split.
    + intros Hs Hne. rewrite lookup_remove_all.
      destruct (decide (x ∈ (rotated_out ckpts max_to_keep).*1)) as [Hin|_].
      * destruct (rotated_out_selected suffix _ _ _ _ Hrun Hin) as [Hsel _].
        congruence.
      * by rewrite lookup_insert_ne.
    + intros [b Hb]. rewrite lookup_remove_all.
      destruct (decide (x ∈ (rotated_out ckpts max_to_keep).*1)) as [Hin|_].
      * intros _.
        by destruct (rotated_out_selected suffix _ _ _ _ Hrun Hin) as [? _].
      * intros Hnone.
        assert (Hbad : Some b = None) by (rewrite <-Hb; exact Hnone). done.
Qed.

(** X13: when [max_to_keep] is at least 1 and the call returns, the file
    that the listing after the write has last, the one with the highest
    number, is still there after the rotation, with its content. *)
Theorem save_ckpt_keeps_latest (epoch : Z) (best_valid_loss : Loss)
    (best_valid_epoch : Z) (model : Model) (optimizer : Optimizer)
    (scheduler : Scheduler) (prefix suffix : string) (max_to_keep : Z) w
    (ckpts : list (string * Z)) (x : string) (n : Z) :
  let record :=
    Ckptdict epoch best_valid_loss best_valid_epoch (state_dict model)
      (state_dict optimizer) (state_dict scheduler) in
  let w1 := written record (prefix +:+ suffix) w in
  let run := save_ckpt epoch best_valid_loss best_valid_epoch model optimizer
               scheduler prefix suffix max_to_keep w in
  (1 ≤ max_to_keep)%Z →
  fetch_ckpt_namelist suffix w1 = (w1, inr ckpts) →
  last ckpts = Some (x, n) →
  run.2 = inr record ∧
  is_Some (files run.1 !! x) ∧ files run.1 !! x = files w1 !! x.
Proof.
  intros record w1 run Hmax Hfetch Hlast.
  set (c := SaveCall epoch best_valid_loss best_valid_epoch model optimizer
              scheduler prefix).
  change run with (save_call_run suffix max_to_keep c w).
  rewrite fetch_ckpt_namelist_unfold in Hfetch.
  assert (Hrun : namelist_of (listing w1) suffix = inr ckpts) by congruence.
  rewrite (save_ckpt_run suffix max_to_keep c w ckpts Hrun). simpl.
  pose proof (namelist_of_names _ _ _ (NoDup_listing _) Hrun) as [Hnd _].
  pose proof (last_not_rotated_out ckpts max_to_keep (x, n) Hnd Hmax Hlast)
    as Hout.
  assert (Hin : (x, n) ∈ ckpts) by by apply last_Some_elem_of.
  apply (elem_of_namelist suffix _ _ _ _ Hrun) in Hin as (Hx & _).
  rewrite lookup_remove_all, decide_False by done. done.
Qed.

Lemma window_snoc {A} (P : list A) (a : A) (M : nat) :
  drop (length (drop (length P - M) P ++ [a]) - M)
    (drop (length P - M) P ++ [a])
  = drop (length (P ++ [a]) - M) (P ++ [a]).
Proof.
  rewrite !length_app, length_drop. cbn [length].
  destruct (decide (length P ≤ M)) as [Hle|Hgt].
  - replace (length P - M) with 0 by lia. by rewrite Nat.sub_0_r.
  - replace (length P - (length P - M) + 1 - M) with 1 by lia.
    replace (length P + 1 - M) with ((length P - M) + 1) by lia.
    rewrite <-drop_drop. by rewrite (drop_app_le P [a]) by lia.
Qed.

(** Calls in a row with ascending numbers above the listed ones: the
    listing keeps its last [max_to_keep] entries throughout. *)
Lemma save_calls_window_from suffix (max_to_keep : Z)
    (ces : list (call * Z)) (P : list (string * Z)) w :
  (0 ≤ max_to_keep)%Z →
  namelist_of (listing w) suffix
  = inr (drop (length P - Z.to_nat max_to_keep) P) →
  ascending (P ++ (entry_of_call suffix <$> ces)) →
  Forall (λ ce, numbered_as suffix (sc_prefix ce.1) ce.2) ces →
  ∃ w', save_calls suffix max_to_keep ces.*1 w = (w', inr tt) ∧
    namelist_of (listing w') suffix
    = inr (drop (length (P ++ (entry_of_call suffix <$> ces))
                  - Z.to_nat max_to_keep)
             (P ++ (entry_of_call suffix <$> ces))).
Proof.
  intros Hmax. revert P w.
  induction ces as [|[c e] ces IH]; intros P w Hl Hasc Hnum.
  - exists w. split; [done|]. by rewrite app_nil_r.
  - apply Forall_cons in Hnum as [Hc Hnum]. cbn [fmap list_fmap] in *.
    change (entry_of_call suffix (c, e)) with (sc_prefix c +:+ suffix, e) in *.
    assert (Hasc' : ascending ((P ++ [(sc_prefix c +:+ suffix, e)])
                               ++ (entry_of_call suffix <$> ces)))
      by by rewrite <-app_assoc.
    pose proof (StronglySorted_app_1_l _ _ _ Hasc') as HP1.
    pose proof (StronglySorted_app_1_l _ _ _ HP1) as HP.
    destruct (save_call_step suffix max_to_keep c e w _ Hmax Hl)
      as (w2 & Hsave & _ & Hl2).
    + by apply ascending_drop.
    + done.
    + intros a Ha.
      assert (Hin : a ∈ P)
        by (apply (elem_of_sublist _ _ _ Ha), sublist_drop).
      assert (Hnew : (sc_prefix c +:+ suffix, e) ∈ [(sc_prefix c +:+ suffix, e)])
        by by left.
      exact (StronglySorted_app_1_elem_of epoch_lt _ _ a
               (sc_prefix c +:+ suffix, e) HP1 Hin Hnew).
    + rewrite window_snoc in Hl2.
      destruct (IH _ w2 Hl2 Hasc' Hnum) as (w' & Hrun & Hl').
      exists w'. split.
      * by rewrite (save_calls_cons _ _ _ _ _ _ _ Hsave).
      * by rewrite <-app_assoc in Hl'.
Qed.

(** X14: on a directory without numbered files, calls in a row whose file
    names have strictly ascending numbers, with a [max_to_keep] that is not
    negative, all return, and the listing afterwards has exactly the files
    of the last [max_to_keep] calls (of all calls, if there are fewer), in
    their order. *)
Theorem save_calls_window suffix (max_to_keep : Z) (ces : list (call * Z)) w :
  (0 ≤ max_to_keep)%Z →
  (∀ x, is_Some (files w !! x) → selected suffix x = false) →
  Forall (λ ce, numbered_as suffix (sc_prefix ce.1) ce.2) ces →
  StronglySorted Z.lt ces.*2 →
  ∃ w', save_calls suffix max_to_keep ces.*1 w = (w', inr tt) ∧
    fetch_ckpt_namelist suffix w'
    = (w', inr (drop (length ces - Z.to_nat max_to_keep)
                  (entry_of_call suffix <$> ces))).
Proof.
  intros Hmax Hnone Hnum Hsorted.
  destruct (save_calls_window_from suffix max_to_keep ces [] w Hmax)
    as (w' & Hrun & Hl).
  - by apply namelist_of_none.
  - cbn [app]. unfold ascending.
    clear Hnum. induction ces as [|[c e] ces IH]; [constructor|].
    cbn [fmap list_fmap] in *. apply StronglySorted_inv in Hsorted as [Hs Hall].
    constructor; [by apply IH|].
    rewrite Forall_fmap. rewrite Forall_fmap in Hall.
    eapply Forall_impl; [exact Hall|]. by intros [c' e'].
  - done.
  - exists w'. split; [done|]. rewrite fetch_ckpt_namelist_unfold.
    cbn [app] in Hl. by rewrite Hl, length_fmap.
Qed.

End save_ckpt_more.

Section save_then_load.
Context {Loss MS OS SS Model Optimizer Scheduler Device : Type}.
Context `{!StateExport Model MS, !StateExport Optimizer OS,
          !StateExport Scheduler SS}.
Local Abbreviation ckpt := (@ckptdict Loss MS OS SS).
Local Abbreviation call := (@save_call Loss Model Optimizer Scheduler).
Implicit Types (w : ckptdir ckpt) (c : call).

(** [get_last_ckpt] with [specify]. *)
Lemma get_last_ckpt_named (device : Device) (suffix : string)
    (sp : specifier) w :
  get_last_ckpt device suffix (Some sp) w =
  match files w !! (py_format sp +:+ suffix) with
  | Some c => (w, inr (LastBest (Some c) (files w !! ("best" +:+ suffix))))
  | None => (w, inl FileNotFoundError)
  end.
Proof.
  unfold get_last_ckpt.
  unfold io_bind at 1. unfold io_bind at 1. unfold torch_load at 1.
  destruct (files w !! (py_format sp +:+ suffix)); [|done].
  unfold io_ret at 1. by rewrite read_best.
Qed.

(** X15: a call of [save_ckpt] with [max_to_keep] at least 1, whose file
    name has a number above those of all listed files (none of which tie),
    returns, and [get_last_ckpt] on the directory it leaves returns the
    record just saved as the last checkpoint, without [specify] and with
    [specify] set to the prefix; the best checkpoint is the one the
    directory had. *)
Theorem save_ckpt_get_last_ckpt (device : Device) (epoch : Z)
    (best_valid_loss : Loss) (best_valid_epoch : Z) (model : Model)
    (optimizer : Optimizer) (scheduler : Scheduler) (prefix suffix : string)
    (max_to_keep : Z) w (l : list (string * Z)) (e : Z) :
  let record :=
    Ckptdict epoch best_valid_loss best_valid_epoch (state_dict model)
      (state_dict optimizer) (state_dict scheduler) in
  let run := save_ckpt epoch best_valid_loss best_valid_epoch model optimizer
               scheduler prefix suffix max_to_keep w in
  (1 ≤ max_to_keep)%Z →
  fetch_ckpt_namelist suffix w = (w, inr l) →
  ascending l →
  numbered_as suffix prefix e →
  (∀ a, a ∈ l → (a.2 < e)%Z) →
  run.2 = inr record ∧
  get_last_ckpt device suffix None run.1
  = (run.1, inr (LastBest (Some record) (files w !! ("best" +:+ suffix)))) ∧
  get_last_ckpt device suffix (Some (SpecStr prefix)) run.1
  = (run.1, inr (LastBest (Some record) (files w !! ("best" +:+ suffix)))).
Proof.
  intros record run Hmax Hfetch Hasc Hnum Hlt.
  set (c := SaveCall epoch best_valid_loss best_valid_epoch model optimizer
              scheduler prefix).
  change run with (save_call_run suffix max_to_keep c w).
  rewrite fetch_ckpt_namelist_unfold in Hfetch.
  assert (Hrun : namelist_of (listing w) suffix = inr l) by congruence.
  destruct (save_call_step suffix max_to_keep c e w l) as (w2 & Hsave & Hf & Hl2);
    [lia|done..|].
  rewrite Hsave. cbn [fst snd]. change (record_of c) with record in *.
  change (sc_prefix c) with prefix in *.
  set (name := prefix +:+ suffix) in *.
  set (k := length (l ++ [(name, e)]) - Z.to_nat max_to_keep) in *.
  assert (Hk : k ≤ length l) by (unfold k; rewrite length_app; simpl; lia).
  assert (Hname : files w2 !! name = Some record).
  { rewrite Hf, lookup_remove_all, decide_False; [apply lookup_insert_eq|].
    rewrite take_app_le by done. intros Hin.
    apply list_elem_of_fmap in Hin as ([y m] & Hy & Hin). simpl in Hy. subst y.
    pose proof (elem_of_sublist _ _ _ Hin (sublist_take _ _)) as Hin'.
    clear Hin. rename Hin' into Hin.
    pose proof (Hlt _ Hin) as Hm. simpl in Hm.
    apply (elem_of_namelist suffix w l name m Hrun) in Hin as (_ & _ & He).
    destruct Hnum as [_ He']. fold name in He'. rewrite He' in He.
    injection He as ->. lia. }
  assert (Hbest : files w2 !! ("best" +:+ suffix)
                  = files w !! ("best" +:+ suffix)).
  { assert (Hsel : selected suffix ("best" +:+ suffix) = false)
      by apply selected_best.
    rewrite Hf, lookup_remove_all, decide_False.
    - apply lookup_insert_ne. intros Heq. destruct Hnum as [Hs _].
      fold name in Hs. rewrite Heq in Hs. congruence.
    - intros Hin. apply list_elem_of_fmap in Hin as ([y m] & Hy & Hin).
      simpl in Hy. subst y.
      pose proof (elem_of_sublist _ _ _ Hin (sublist_take _ _)) as Hin'.
      clear Hin. rename Hin' into Hin.
      apply elem_of_app in Hin as [Hin|Hin].
      + apply (elem_of_namelist suffix w l _ m Hrun) in Hin as (_ & Hs & _).
        congruence.
      + apply list_elem_of_singleton in Hin. injection Hin as Heq _.
        destruct Hnum as [Hs _]. fold name in Hs. rewrite <-Heq in Hs.
        congruence. }
  split; [done|]. split.
  - rewrite (get_last_ckpt_listed device suffix w2 _ Hl2).
    rewrite drop_app_le by done. rewrite last_snoc. simpl.
    by rewrite Hname, Hbest.
  - rewrite get_last_ckpt_named. simpl. fold name.
    by rewrite Hname, Hbest.
Qed.

(** X16: saving again under the name of a listed file, when the listing
    has no ties and no more than [max_to_keep] entries, replaces the record
    of that file and deletes nothing: the listing is as before, and
    [get_last_ckpt] with [specify] set to the prefix returns the new
    record. *)
Theorem save_ckpt_overwrites (device : Device) (epoch : Z)
    (best_valid_loss : Loss) (best_valid_epoch : Z) (model : Model)
    (optimizer : Optimizer) (scheduler : Scheduler) (prefix suffix : string)
    (max_to_keep : Z) w (ckpts : list (string * Z)) :
  let record :=
    Ckptdict epoch best_valid_loss best_valid_epoch (state_dict model)
      (state_dict optimizer) (state_dict scheduler) in
  let run := save_ckpt epoch best_valid_loss best_valid_epoch model optimizer
               scheduler prefix suffix max_to_keep w in
  is_Some (files w !! (prefix +:+ suffix)) →
  fetch_ckpt_namelist suffix w = (w, inr ckpts) →
  ascending ckpts →
  (Z.of_nat (length ckpts) ≤ max_to_keep)%Z →
  run.2 = inr record ∧
  files run.1 = <[prefix +:+ suffix := record]> (files w) ∧
  fetch_ckpt_namelist suffix run.1 = (run.1, inr ckpts) ∧
  (get_last_ckpt device suffix (Some (SpecStr prefix)) run.1).2
  = inr (LastBest (Some record)
           (<[prefix +:+ suffix := record]> (files w) !! ("best" +:+ suffix))).
Proof.
  intros record run Hthere Hfetch Hasc Hlen.
  set (c := SaveCall epoch best_valid_loss best_valid_epoch model optimizer
              scheduler prefix).
  change run with (save_call_run suffix max_to_keep c w).
  rewrite fetch_ckpt_namelist_unfold in Hfetch.
  assert (Hrun : namelist_of (listing w) suffix = inr ckpts) by congruence.
  set (w1 := written (record_of c) (sc_prefix c +:+ suffix) w).
  assert (Hsame : ∀ x, is_Some (files w !! x) ↔ is_Some (files w1 !! x)).
  { intros x. unfold w1, written, torch_save. simpl.
    destruct (decide (x = prefix +:+ suffix)) as [->|Hne].
    - rewrite lookup_insert_eq. split; [by eexists|done].
    - by rewrite lookup_insert_ne. }
  assert (Hrun1 : namelist_of (listing w1) suffix = inr ckpts)
    by (apply (namelist_same_names suffix w w1); [intros x _; apply Hsame|done..]).
  rewrite (save_ckpt_run suffix max_to_keep c w ckpts Hrun1).
  assert (Hnone : rotated_out ckpts max_to_keep = []).
  { rewrite rotated_out_take.
    by replace (Z.to_nat (Z.of_nat (length ckpts) - max_to_keep)) with 0
      by lia. }
  rewrite Hnone. cbn [fst snd fmap list_fmap files remove_all foldl].
  split; [done|]. split; [done|]. split.
  - rewrite fetch_ckpt_namelist_unfold. f_equal. exact Hrun1.
  - rewrite get_last_ckpt_named. simpl.
    change (record_of c) with record. by rewrite lookup_insert_eq.
Qed.

End save_then_load.
(** * Properties of [print_2way] *)

Section print_2way_facts.
Context {V : Type} (py_str : V → string).

(** X17: when neither stream is closed and [f] is not [sys.stdout],
    [print_2way] returns after sending the same text to both streams, the
    values separated by spaces and ended by a newline (a lone newline for no
    values), and nothing is left in the buffer of [f]. *)
Theorem print_2way_both (x : list V) (o : outputs) :
  st_closed (out_stdout o) = false → st_closed (out_other o) = false →
  ∃ o', print_2way py_str Other x o = (o', None) ∧
    st_sent (out_stdout o') = st_sent (out_stdout o) +:+ print_text py_str x ∧
    st_sent (out_other o') = st_sent (out_other o) +:+ print_text py_str x ∧
    st_buffer (out_other o') = "" ∧
    print_text py_str [] = String "010"%char "".
Proof.
  intros Hs Ho. destruct o as [[cs bs fs] [co bo fo]]. simpl in *. subst.
  eexists. split; [reflexivity|]. unfold st_sent. simpl.
  by rewrite !string_app_assoc, string_app_nil_r.
Qed.

(** X18: when [f] is closed, [print_2way] raises [ValueError] after the
    text was sent to [sys.stdout], and [f] is as it was; when [sys.stdout]
    is closed it raises [ValueError] and no stream has changed; when [f]
    is [sys.stdout] itself the text is sent twice and flushed. *)
Theorem print_2way_closed (x : list V) (o : outputs) :
  (st_closed (out_stdout o) = false → st_closed (out_other o) = true →
   ∃ o', print_2way py_str Other x o = (o', Some ValueError) ∧
     st_sent (out_stdout o') = st_sent (out_stdout o) +:+ print_text py_str x ∧
     out_other o' = out_other o) ∧
  (st_closed (out_stdout o) = true →
   ∀ f, print_2way py_str f x o = (o, Some ValueError)) ∧
  (st_closed (out_stdout o) = false →
   ∃ o', print_2way py_str Stdout x o = (o', None) ∧
     st_flushed (out_stdout o') =
       st_sent (out_stdout o) +:+ print_text py_str x
       +:+ print_text py_str x ∧
     st_buffer (out_stdout o') = "" ∧
     out_other o' = out_other o).
Proof.
  destruct o as [[cs bs fs] [co bo fo]]. simpl. split; [|split].
  - intros -> ->. eexists. split; [reflexivity|]. unfold st_sent. simpl.
    by rewrite string_app_assoc.
  - intros -> f. reflexivity.
  - intros ->. eexists. split; [reflexivity|]. unfold st_sent. simpl.
    by rewrite !string_app_assoc.
Qed.

End print_2way_facts.

Lemma print_2way_both_witness :
  let o := Outputs (Stream false "" "epoch 1") (Stream false "epoch 1" "") in
  ∃ o', print_2way pretty Other [2; 10]%Z o = (o', None) ∧
    st_sent (out_stdout o') = "epoch 1" +:+ print_text pretty [2; 10]%Z ∧
    st_flushed (out_other o') = "epoch 1" +:+ print_text pretty [2; 10]%Z.
Proof.
  intros o.
  destruct (print_2way_both pretty [2; 10]%Z o eq_refl eq_refl)
    as (o' & Hrun & Hs & Ho & Hb & _).
  exists o'. split; [exact Hrun|]. split; [exact Hs|].
  unfold st_sent in Ho. rewrite Hb, string_app_nil_r in Ho. exact Ho.
Defined.

Lemma print_2way_closed_witness :
  let o := Outputs (Stream false "" "") (Stream true "" "log") in
  ∃ o', print_2way pretty Other [7%Z] o = (o', Some ValueError) ∧
    st_sent (out_stdout o') = "" +:+ print_text pretty [7%Z] ∧
    out_other o' = Stream true "" "log".
Proof.
  intros o.
  exact (proj1 (print_2way_closed pretty [7%Z] o) eq_refl eq_refl).
Defined.
(** * More on [load_ckpt] *)

Section load_ckpt_more.
Context {Loss MS OS SS Model Optimizer Scheduler : Type}.
Context `{!StateImport Model MS, !StateImport Optimizer OS,
          !StateImport Scheduler SS}.
Local Abbreviation ckpt := (@ckptdict Loss MS OS SS).

(** X19: when the import into the given model succeeds, [load_ckpt] does
    not use the wrapper; with [restore_opt_sche] it then imports into the
    optimizer and after it into the scheduler: an exception of the
    optimizer's import leaves the scheduler as it was given while the model
    has its new state, an exception of the scheduler's import comes after
    the optimizer has its new state, and when both succeed the call returns
    the record's epoch, best loss and best epoch with the three objects. *)
Theorem load_ckpt_order `{!StateImport (DataParallel Model) MS}
    (model model' : Model) (optimizer : Optimizer) (scheduler : Scheduler)
    (ckpt : ckpt) :
  load_state_dict model (ck_model ckpt) = (model', None) →
  (∀ (wrapped wrapped' : StateImport (DataParallel Model) MS) restore,
     load_ckpt (StateImport1:=wrapped) model optimizer scheduler ckpt restore
     = load_ckpt (StateImport1:=wrapped') model optimizer scheduler ckpt
         restore) ∧
  (∀ optimizer' e,
     load_state_dict optimizer (ck_optimizer ckpt) = (optimizer', Some e) →
     load_ckpt model optimizer scheduler ckpt true
     = (Objects model' optimizer' scheduler, inl e)) ∧
  (∀ optimizer' scheduler' e,
     load_state_dict optimizer (ck_optimizer ckpt) = (optimizer', None) →
     load_state_dict scheduler (ck_scheduler ckpt) = (scheduler', Some e) →
     load_ckpt model optimizer scheduler ckpt true
     = (Objects model' optimizer' scheduler', inl e)) ∧
  (∀ optimizer' scheduler',
     load_state_dict optimizer (ck_optimizer ckpt) = (optimizer', None) →
     load_state_dict scheduler (ck_scheduler ckpt) = (scheduler', None) →
     load_ckpt model optimizer scheduler ckpt true
     = (Objects model' optimizer' scheduler',
        inr (Restored (ck_epoch ckpt) (ck_best_valid_loss ckpt)
               (ck_best_valid_epoch ckpt) model' optimizer' scheduler'))).
Proof.
  intros Hm.
  assert (Hmodel : ∀ wrapped : StateImport (DataParallel Model) MS,
            load_model (StateImport1:=wrapped) model ckpt = (model', None))
    by (intros wrapped; unfold load_model; by rewrite Hm).
  split; [|split; [|split]].
  - intros wrapped wrapped' restore. unfold load_ckpt.
    by rewrite (Hmodel wrapped), (Hmodel wrapped').
  - intros o' e Ho. unfold load_ckpt. by rewrite Hmodel, Ho.
  - intros o' s' e Ho Hs. unfold load_ckpt. by rewrite Hmodel, Ho, Hs.
  - intros o' s' Ho Hs. unfold load_ckpt. by rewrite Hmodel, Ho, Hs.
Qed.

Context `{!StateImport (DataParallel Model) MS}.
Context `{!StateExport Model MS, !StateExport Optimizer OS,
          !StateExport Scheduler SS}.

(** X20: when the import of an object's exported state restores that
    object, [load_ckpt] on the record that [save_ckpt] returns gives back
    the saved epoch, best loss and best epoch and the saved model,
    optimizer and scheduler; with [restore_opt_sche = false] it gives back
    the saved model and the optimizer and scheduler of the call. *)
Theorem load_ckpt_save_ckpt (epoch : Z) (best_valid_loss : Loss)
    (best_valid_epoch : Z) (model model0 : Model)
    (optimizer optimizer0 : Optimizer) (scheduler scheduler0 : Scheduler)
    (prefix suffix : string) (max_to_keep : Z)
    (w : ckptdir ckpt) (record : ckpt) :
  (save_ckpt epoch best_valid_loss best_valid_epoch model optimizer scheduler
     prefix suffix max_to_keep w).2 = inr record →
  load_state_dict model0 (state_dict model) = (model, None) →
  load_state_dict optimizer0 (state_dict optimizer) = (optimizer, None) →
  load_state_dict scheduler0 (state_dict scheduler) = (scheduler, None) →
  load_ckpt model0 optimizer0 scheduler0 record true
  = (Objects model optimizer scheduler,
     inr (Restored epoch best_valid_loss best_valid_epoch model optimizer
            scheduler)) ∧
  load_ckpt model0 optimizer0 scheduler0 record false
  = (Objects model optimizer0 scheduler0,
     inr (Restored epoch best_valid_loss best_valid_epoch model optimizer0
            scheduler0)).
Proof.
  intros Hsave Hm Ho Hs.
  set (c := SaveCall epoch best_valid_loss best_valid_epoch model optimizer
              scheduler prefix).
  change (save_ckpt epoch best_valid_loss best_valid_epoch model optimizer
            scheduler prefix suffix max_to_keep w)
    with (save_call_run suffix max_to_keep c w) in Hsave.
  assert (Hrec : record = record_of c).
  { destruct (namelist_of
                (listing (written (record_of c) (sc_prefix c +:+ suffix) w))
                suffix) as [e|ckpts] eqn:Hrun.
    - by rewrite (save_ckpt_raise suffix max_to_keep c w e Hrun) in Hsave.
    - rewrite (save_ckpt_run suffix max_to_keep c w ckpts Hrun) in Hsave.
      by injection Hsave as <-. }
  subst record. unfold load_ckpt, load_model, record_of, c. simpl.
  by rewrite Hm, Ho, Hs.
Qed.

End load_ckpt_more.

Lemma load_ckpt_order_witness :
  load_ckpt sample_model sample_optimizer sample_scheduler
    (Ckptdict 7 0%Z 7 [("fc.weight", 7%Z); ("fc.bias", 1%Z)]
       [("momentum", 2%Z)] [("last_epoch", 7%Z)]) true
  = (Objects [("fc.weight", 7%Z); ("fc.bias", 1%Z)] sample_optimizer
       sample_scheduler, inl RuntimeError).
Proof.
  apply (proj1 (proj2 (load_ckpt_order sample_model
                        [("fc.weight", 7%Z); ("fc.bias", 1%Z)]
                        sample_optimizer sample_scheduler
                        (Ckptdict 7 0%Z 7
                           [("fc.weight", 7%Z); ("fc.bias", 1%Z)]
                           [("momentum", 2%Z)] [("last_epoch", 7%Z)])
                        eq_refl)) sample_optimizer RuntimeError).
  reflexivity.
Defined.

Lemma load_ckpt_save_ckpt_witness :
  load_ckpt sample_model sample_optimizer sample_scheduler (sample_ckpt 4) true
  = (Objects [("fc.weight", 4%Z); ("fc.bias", 1%Z)] [("lr", 2%Z)]
       [("last_epoch", 4%Z)],
     inr (Restored 4 0%Z 4 [("fc.weight", 4%Z); ("fc.bias", 1%Z)]
            [("lr", 2%Z)] [("last_epoch", 4%Z)])).
Proof.
  apply (load_ckpt_save_ckpt 4 0%Z 4 (sc_model (sample_call 4)) sample_model
           (sc_optimizer (sample_call 4)) sample_optimizer
           (sc_scheduler (sample_call 4)) sample_scheduler
           "4" "_checkpoint.pt" 3 (sample_dir [1; 2; 3]%Z) (sample_ckpt 4)).
  - vm_compute. reflexivity.
  - reflexivity.
  - reflexivity.
  - reflexivity.
Defined.
(** * The extra statements on sample objects *)

Lemma save_ckpt_frame_witness :
  let w := Ckptdir (<["notes.txt" := sample_ckpt 0]>
                      (files (sample_dir [1; 2]%Z))) [] in
  let run := save_ckpt 3 0%Z 3 (sc_model (sample_call 3))
               (sc_optimizer (sample_call 3)) (sc_scheduler (sample_call 3))
               "3" "_checkpoint.pt" 1 w in
  selected "_checkpoint.pt" "notes.txt" = false ∧
  files run.1 !! "notes.txt" = files w !! "notes.txt".
Proof.
  intros w run.
  assert (Hs : selected "_checkpoint.pt" "notes.txt" = false)
    by (vm_compute; reflexivity).
  split; [exact Hs|].
  apply (proj1 (save_ckpt_frame 3 0%Z 3 (sc_model (sample_call 3))
                  (sc_optimizer (sample_call 3)) (sc_scheduler (sample_call 3))
                  "3" "_checkpoint.pt" 1 w "notes.txt") Hs).
  discriminate.
Defined.

Lemma save_ckpt_keeps_latest_witness :
  let run := save_ckpt 2 0%Z 2 (sc_model (sample_call 2))
               (sc_optimizer (sample_call 2)) (sc_scheduler (sample_call 2))
               "2" "_checkpoint.pt" 1 (sample_dir [1; 9]%Z) in
  run.2 = inr (sample_ckpt 2) ∧ is_Some (files run.1 !! "9_checkpoint.pt").
Proof.
  intros run.
  destruct (save_ckpt_keeps_latest 2 0%Z 2 (sc_model (sample_call 2))
              (sc_optimizer (sample_call 2)) (sc_scheduler (sample_call 2))
              "2" "_checkpoint.pt" 1 (sample_dir [1; 9]%Z)
              [("1_checkpoint.pt", 1%Z); ("2_checkpoint.pt", 2%Z);
               ("9_checkpoint.pt", 9%Z)] "9_checkpoint.pt" 9%Z)
    as (Hret & Hsome & _).
  - lia.
  - run_listing.
  - reflexivity.
  - split; [exact Hret|exact Hsome].
Defined.

Lemma save_calls_window_witness :
  ∃ w', save_calls "_checkpoint.pt" 2
          [sample_call 1; sample_call 2; sample_call 3; sample_call 5;
           sample_call 8; sample_call 13] (sample_dir []) = (w', inr tt) ∧
    fetch_ckpt_namelist "_checkpoint.pt" w'
    = (w', inr [("8_checkpoint.pt", 8%Z); ("13_checkpoint.pt", 13%Z)]).
Proof.
  destruct (save_calls_window "_checkpoint.pt" 2
              [(sample_call 1, 1%Z); (sample_call 2, 2%Z);
               (sample_call 3, 3%Z); (sample_call 5, 5%Z);
               (sample_call 8, 8%Z); (sample_call 13, 13%Z)] (sample_dir []))
    as (w' & Hrun & Hlist).
  - lia.
  - intros x [b Hb]. vm_compute in Hb. discriminate.
  - repeat constructor;
      apply (numbered_as_pretty _ "_checkpoint.pt"); reflexivity.
  - repeat constructor; lia.
  - exists w'. split; [exact Hrun|exact Hlist].
Defined.

Lemma save_ckpt_get_last_ckpt_witness :
  let run := save_ckpt 4 0%Z 4 (sc_model (sample_call 4))
               (sc_optimizer (sample_call 4)) (sc_scheduler (sample_call 4))
               "4" "_checkpoint.pt" 2 (sample_dir [1; 2; 3]%Z) in
  get_last_ckpt tt "_checkpoint.pt" None run.1
  = (run.1, inr (LastBest (Some (sample_ckpt 4)) None)).
Proof.
  intros run.
  destruct (save_ckpt_get_last_ckpt tt 4 0%Z 4 (sc_model (sample_call 4))
              (sc_optimizer (sample_call 4)) (sc_scheduler (sample_call 4))
              "4" "_checkpoint.pt" 2 (sample_dir [1; 2; 3]%Z)
              [("1_checkpoint.pt", 1%Z); ("2_checkpoint.pt", 2%Z);
               ("3_checkpoint.pt", 3%Z)] 4%Z)
    as (_ & Hlast & _).
  - lia.
  - run_listing.
  - repeat constructor; unfold epoch_lt; simpl; lia.
  - split; vm_compute; reflexivity.
  - intros a Ha.
    repeat (apply elem_of_cons in Ha as [->|Ha]; [simpl; lia|]).
    by apply elem_of_nil in Ha.
  - exact Hlast.
Defined.

Lemma save_ckpt_overwrites_witness :
  let run := save_ckpt 2 1%Z 2 (sc_model (sample_call 5))
               (sc_optimizer (sample_call 5)) (sc_scheduler (sample_call 5))
               "2" "_checkpoint.pt" 3 (sample_dir [1; 2; 3]%Z) in
  fetch_ckpt_namelist "_checkpoint.pt" run.1
  = (run.1, inr [("1_checkpoint.pt", 1%Z); ("2_checkpoint.pt", 2%Z);
                 ("3_checkpoint.pt", 3%Z)]) ∧
  ck_model <$> files run.1 !! "2_checkpoint.pt"
  = Some [("fc.weight", 5%Z); ("fc.bias", 1%Z)].
Proof.
  intros run.
  destruct (save_ckpt_overwrites tt 2 1%Z 2 (sc_model (sample_call 5))
              (sc_optimizer (sample_call 5)) (sc_scheduler (sample_call 5))
              "2" "_checkpoint.pt" 3 (sample_dir [1; 2; 3]%Z)
              [("1_checkpoint.pt", 1%Z); ("2_checkpoint.pt", 2%Z);
               ("3_checkpoint.pt", 3%Z)])
    as (_ & Hfiles & Hlist & _).
  - eexists. vm_compute. reflexivity.
  - run_listing.
  - repeat constructor; unfold epoch_lt; simpl; lia.
  - simpl. lia.
  - split; [exact Hlist|]. fold run in Hfiles. rewrite Hfiles.
    by rewrite lookup_insert_eq.
Defined.
